(** * The task scheduler of [services/geminiService.ts]

    A shallow embedding of [PromiseQueue] (priority queue behind a
    concurrency gate), of [retryOperation] (error classification and
    backoff) and of the result construction of [regenerateQuestionData],
    with the properties the specification states about them. *)

From Stdlib Require Import ZArith QArith List Permutation String Ascii DecimalString.
From Stdlib Require Import Bool Lia Lqa Sorted.
Import ListNotations.

Local Open Scope string_scope.
Local Open Scope list_scope.
Local Open Scope Z_scope.

(** ** JavaScript values

    Numbers are exact rationals: every status code and every JSON number
    is one, and [===] on numbers is numeric equality.  An object is the
    ordered list of its own properties. *)

#[warnings="-register-all"]
Inductive JsVal : Type :=
| JUndefined
| JNull
| JBool (b : bool)
| JNum (q : Q)
| JStr (s : string)
| JArr (items : list JsVal)
| JObj (props : list (string * JsVal)).

(** [v === n] for a number literal [n]. *)
Definition strict_eq_num (v : JsVal) (n : Z) : bool :=
  match v with
  | JNum q => Qeq_bool q (inject_Z n)
  | _ => false
  end.

(** [v === s] for a string literal [s]. *)
Definition strict_eq_str (v : JsVal) (s : string) : bool :=
  match v with
  | JStr t => String.eqb t s
  | _ => false
  end.

(** ** Strings: [includes] and [toLowerCase] *)

(** [s.includes(needle)]: [needle] starts at some position of [s]. *)
Fixpoint includes (s needle : string) : bool :=
  String.prefix needle s ||
  match s with
  | EmptyString => false
  | String _ rest => includes rest needle
  end.

Definition is_upper (c : ascii) : bool :=
  ((65 <=? N_of_ascii c) && (N_of_ascii c <=? 90))%N.

Definition is_lower (c : ascii) : bool :=
  ((97 <=? N_of_ascii c) && (N_of_ascii c <=? 122))%N.

Definition lower_ascii (c : ascii) : ascii :=
  if is_upper c then ascii_of_N (N_of_ascii c + 32) else c.

(** [s.toLowerCase()] on the bytes of the string.  The letters A-Z are
    folded and every other byte is kept; no character outside A-Z
    lowercases to a letter of the words searched for below, so the
    searches agree with those of JavaScript. *)
Fixpoint toLowerCase (s : string) : string :=
  match s with
  | EmptyString => EmptyString
  | String c rest => String (lower_ascii c) (toLowerCase rest)
  end.

(** ** Errors and their classification *)

(** What the [catch] clause of [retryOperation] reads of a failure:
    [error.code], [error.status] and [error.message].  The failure is an
    object and a present message is a string, as for every [Error]. *)
Record JsError : Type := mkError {
  code : JsVal;
  status : JsVal;
  message : option string
}.

(** [error.message && test(error.message)] in a condition. *)
Definition message_and (error : JsError) (test : string -> bool) : bool :=
  match message error with
  | None => false
  | Some m => negb (String.eqb m "") && test m
  end.

Definition isRateLimitError (error : JsError) : bool :=
  strict_eq_num (code error) 429 ||
  strict_eq_num (status error) 429 ||
  strict_eq_str (status error) "RESOURCE_EXHAUSTED" ||
  message_and error (fun m =>
    includes m "429" ||
    includes (toLowerCase m) "quota" ||
    includes (toLowerCase m) "exhausted").

Definition isNetworkError (error : JsError) : bool :=
  message_and error (fun m =>
    includes m "xhr" ||
    includes m "fetch" ||
    includes m "network" ||
    includes m "Failed to fetch").

Definition isServerError (error : JsError) : bool :=
  strict_eq_num (code error) 500 ||
  strict_eq_num (code error) 503 ||
  strict_eq_num (status error) 500 ||
  strict_eq_num (status error) 503.

Definition isRpcError (error : JsError) : bool :=
  message_and error (fun m => includes m "error code: 6").

Inductive Classification : Type := RateLimited | Transient | Fatal.

(** The branch of the [catch] clause a failure takes, tests in the order
    of the source. *)
Definition classify (error : JsError) : Classification :=
  if isRateLimitError error then RateLimited
  else if isNetworkError error || isServerError error || isRpcError error
       then Transient
       else Fatal.

(** ** [retryOperation]

    The operation is any closure returning a promise: its [k]-th
    invocation settles with [operation k].  [Math_random k] is the [k]-th
    value drawn from [Math.random()].  The state counts the invocations
    and the draws and keeps the timeline of what happened: each entry
    into [retryOperation] with its arguments and the outcome of the
    attempt, and each [wait] with the branch that asked for it. *)

Inductive Outcome (T : Type) : Type :=
| Fulfilled (v : T)
| Rejected (e : JsError).
Arguments Fulfilled {T} v.
Arguments Rejected {T} e.

Inductive RetryEvent (T : Type) : Type :=
| Attempt (retries delay : Z) (o : Outcome T)
| Wait (why : Classification) (ms : Q).
Arguments Attempt {T} retries delay o.
Arguments Wait {T} why ms.

Record RetryState (T : Type) : Type := mkRetryState {
  calls : nat;
  draws : nat;
  timeline : list (RetryEvent T)
}.
Arguments mkRetryState {T} calls draws timeline.
Arguments calls {T} r.
Arguments draws {T} r.
Arguments timeline {T} r.

Definition retry_start {T : Type} : RetryState T := mkRetryState 0 0 [].

(** State passing, written as a monad. *)
Definition Retry (T A : Type) : Type := RetryState T -> A * RetryState T.

Definition ret {T A : Type} (a : A) : Retry T A := fun st => (a, st).

Definition bind {T A B : Type} (c : Retry T A) (k : A -> Retry T B) : Retry T B :=
  fun st => let (a, st') := c st in k a st'.

Notation "x <- c ;; k" := (bind c (fun x => k))
  (at level 61, c at next level, right associativity).
Notation "c ;; k" := (bind c (fun _ => k))
  (at level 61, right associativity).

Section RetryOperation.
Context {T : Type}.
Variable operation : nat -> Outcome T.
Variable Math_random : nat -> Q.

(** [await operation()] inside [retryOperation(operation, retries, delay)]. *)
Definition attempt (retries delay : Z) : Retry T (Outcome T) :=
  fun st =>
    let o := operation (calls st) in
    (o, mkRetryState (S (calls st)) (draws st)
                     (timeline st ++ [Attempt retries delay o])).

(** [Math.random()]. *)
Definition random : Retry T Q :=
  fun st =>
    (Math_random (draws st),
     mkRetryState (calls st) (S (draws st)) (timeline st)).

(** [await wait(ms)]. *)
Definition wait (why : Classification) (ms : Q) : Retry T unit :=
  fun st =>
    (tt, mkRetryState (calls st) (draws st) (timeline st ++ [Wait why ms])).

(** The body of [retryOperation]; [None] only when the fuel is used up. *)
Fixpoint retryOperation_fuel (fuel : nat) (retries delay : Z)
  : Retry T (option (Outcome T)) :=
  match fuel with
  | O => ret None
  | S fuel' =>
    r <- attempt retries delay ;;
    match r with
    | Fulfilled v => ret (Some (Fulfilled v))
    | Rejected error =>
      if retries <=? 0 then ret (Some (Rejected error))
      else if isRateLimitError error then
        x <- random ;;
        let waitTime := (5000 + x * 3000)%Q in
        wait RateLimited waitTime ;;
        retryOperation_fuel fuel' (retries - 1) (delay * 2)
      else if isNetworkError error || isServerError error || isRpcError error then
        wait Transient (inject_Z delay) ;;
        retryOperation_fuel fuel' (retries - 1) (delay * 2)
      else ret (Some (Rejected error))
    end
  end.

(** One level of recursion per remaining retry, and the first call. *)
Definition retryOperation (retries delay : Z) : Retry T (option (Outcome T)) :=
  retryOperation_fuel (S (Z.to_nat retries)) retries delay.

(** [retryOperation(operation)]: [retries = 2], [delay = 2000]. *)
Definition retryOperation_default : Retry T (option (Outcome T)) :=
  retryOperation 2 2000.

End RetryOperation.

(** The waits of a timeline, and those of one branch. *)
Definition waits {T : Type} (tl : list (RetryEvent T)) : list Q :=
  flat_map (fun ev => match ev with Wait _ ms => [ms] | Attempt _ _ _ => [] end) tl.

Definition Classification_eqb (a b : Classification) : bool :=
  match a, b with
  | RateLimited, RateLimited | Transient, Transient | Fatal, Fatal => true
  | _, _ => false
  end.

Definition waits_of {T : Type} (why : Classification) (tl : list (RetryEvent T)) : list Q :=
  flat_map (fun ev =>
    match ev with
    | Wait c ms => if Classification_eqb c why then [ms] else []
    | Attempt _ _ _ => []
    end) tl.

(** The outcomes of the attempts of a timeline, in order. *)
Definition attempts {T : Type} (tl : list (RetryEvent T)) : list (Outcome T) :=
  flat_map (fun ev => match ev with Attempt _ _ o => [o] | Wait _ _ => [] end) tl.

(** ** [PromiseQueue]

    JavaScript runs one callback at a time, so the queue changes in three
    kinds of steps: a call of [add]; the continuation of [wrappedTask]
    after [await task()], which settles the handle; and the [finally]
    callback of a started item, which frees the slot and runs [run()].
    The part of a task that runs inside [run()], up to its first [await],
    does not call [add]: no task of the module does. *)

(** An item of the queue.  [task] names the [wrappedTask] closure, which
    is a new one at every call of [add]: it is the number of that call. *)
Record QueueItem : Type := mkItem {
  task : nat;
  priority : bool
}.

Record PromiseQueue : Type := mkQueue {
  queue : list QueueItem;
  running : Z;
  concurrency : Z
}.

(** [new PromiseQueue(concurrency)]. *)
Definition new_PromiseQueue (c : Z) : PromiseQueue := mkQueue [] 0 c.

(** [Array.prototype.findIndex]: the first index whose element passes the
    test, [-1] when there is none. *)
Fixpoint findIndex_from {A : Type} (test : A -> bool) (i : Z) (l : list A) : Z :=
  match l with
  | [] => -1
  | x :: rest => if test x then i else findIndex_from test (i + 1) rest
  end.

Definition findIndex {A : Type} (test : A -> bool) (l : list A) : Z :=
  findIndex_from test 0 l.

(** [l.push(item)]. *)
Definition push {A : Type} (l : list A) (item : A) : list A := l ++ [item].

(** [l.splice(start, 0, item)]: a negative [start] counts from the end,
    and the position is clamped to the array. *)
Definition splice_insert {A : Type} (l : list A) (start : Z) (item : A) : list A :=
  let len := Z.of_nat (List.length l) in
  let k := if start <? 0 then Z.max (len + start) 0 else Z.min start len in
  firstn (Z.to_nat k) l ++ item :: skipn (Z.to_nat k) l.

(** The queue after the insertion of [add], before [run()]. *)
Definition enqueue (q : list QueueItem) (item : QueueItem) : list QueueItem :=
  if priority item then
    let insertIndex := findIndex (fun i => negb (priority i)) q in
    if insertIndex =? -1 then push q item
    else splice_insert q insertIndex item
  else push q item.

(** A call of [resolve] or [reject] of the promise [add] returned. *)
Inductive HandleCall (T : Type) : Type :=
| Resolve (v : T)
| Reject (e : JsError).
Arguments Resolve {T} v.
Arguments Reject {T} e.

(** The [try]/[catch] of [wrappedTask] once [task()] has settled. *)
Definition wrappedTask_settles {T : Type} (o : Outcome T) : HandleCall T :=
  match o with
  | Fulfilled result => Resolve result
  | Rejected err => Reject err
  end.

(** [l.shift()]: the first element, [undefined] ([None]) when there is
    none, and the array that is left. *)
Definition shift {A : Type} (l : list A) : option A * list A :=
  match l with
  | [] => (None, [])
  | x :: rest => (Some x, rest)
  end.

(** The first occurrence of [t] taken out of [l]. *)
Fixpoint remove_first (t : nat) (l : list nat) : list nat :=
  match l with
  | [] => []
  | x :: rest => if Nat.eqb x t then rest else x :: remove_first t rest
  end.

Definition mem (t : nat) (l : list nat) : bool := existsb (Nat.eqb t) l.

(** The queue object and the record of what has happened around it:
    the items created by [add], the items whose [task()] was called (in
    that order), the started tasks whose work has not settled, those
    whose handle is settled and whose [finally] callback is still to run,
    those whose [finally] callback has run, every call of a handle's
    [resolve] or [reject], and every value the field [running] has had. *)
Record World (T : Type) : Type := mkWorld {
  pq : PromiseQueue;
  submitted : list QueueItem;
  started : list QueueItem;
  awaiting : list nat;
  finishing : list nat;
  finished : list nat;
  handle_calls : list (nat * HandleCall T);
  running_seen : list Z
}.
Arguments mkWorld {T} pq submitted started awaiting finishing finished
  handle_calls running_seen.
Arguments pq {T} w.
Arguments submitted {T} w.
Arguments started {T} w.
Arguments awaiting {T} w.
Arguments finishing {T} w.
Arguments finished {T} w.
Arguments handle_calls {T} w.
Arguments running_seen {T} w.

Inductive Event (T : Type) : Type :=
| Add (priority : bool)
| Settle (t : nat) (o : Outcome T)
| Finally (t : nat).
Arguments Add {T} priority.
Arguments Settle {T} t o.
Arguments Finally {T} t.

Section Scheduler.
Context {T : Type}.

Definition new_World (c : Z) : World T :=
  mkWorld (new_PromiseQueue c) [] [] [] [] [] [] [0].

(** [this.running++; item.task()...] for the item [run()] has shifted
    off the queue, [rest] being what is left of the queue. *)
Definition start_item (item : QueueItem) (rest : list QueueItem) (w : World T)
  : World T :=
  let r := running (pq w) + 1 in
  mkWorld (mkQueue rest r (concurrency (pq w)))
          (submitted w)
          (started w ++ [item])
          (awaiting w ++ [task item])
          (finishing w)
          (finished w)
          (handle_calls w)
          (running_seen w ++ [r]).

(** The [while] loop of [run()]; [if (item)] fails on [undefined] only,
    an item being an object. *)
Fixpoint run_loop (fuel : nat) (w : World T) : World T :=
  match fuel with
  | O => w
  | S fuel' =>
    if (running (pq w) <? concurrency (pq w))
       && (Z.of_nat (List.length (queue (pq w))) >? 0)
    then
      match shift (queue (pq w)) with
      | (Some item, rest) => run_loop fuel' (start_item item rest w)
      | (None, _) => run_loop fuel' w
      end
    else w
  end.

(** Every iteration shifts one item, so the length of the queue bounds
    the number of iterations. *)
Definition run (w : World T) : World T :=
  run_loop (List.length (queue (pq w))) w.

(** The body of [add] up to the call of [run()]: the item is made and
    inserted. *)
Definition insert_item (prio : bool) (w : World T) : World T :=
  let item := mkItem (List.length (submitted w)) prio in
  mkWorld (mkQueue (enqueue (queue (pq w)) item)
                   (running (pq w)) (concurrency (pq w)))
          (submitted w ++ [item])
          (started w) (awaiting w) (finishing w) (finished w)
          (handle_calls w) (running_seen w).

(** [add(task, priority)]. *)
Definition add (prio : bool) (w : World T) : World T :=
  run (insert_item prio w).

(** The work of the started task [t] settles with [o]: [wrappedTask]
    resumes and calls [resolve] or [reject]. *)
Definition settle (t : nat) (o : Outcome T) (w : World T) : option (World T) :=
  if mem t (awaiting w) then
    Some (mkWorld (pq w) (submitted w) (started w)
                  (remove_first t (awaiting w))
                  (finishing w ++ [t])
                  (finished w)
                  (handle_calls w ++ [(t, wrappedTask_settles o)])
                  (running_seen w))
  else None.

(** [this.running--] in the [finally] callback of [t]. *)
Definition release (t : nat) (w : World T) : World T :=
  let r := running (pq w) - 1 in
  mkWorld (mkQueue (queue (pq w)) r (concurrency (pq w)))
          (submitted w) (started w) (awaiting w)
          (remove_first t (finishing w))
          (finished w ++ [t])
          (handle_calls w)
          (running_seen w ++ [r]).

(** The [finally] callback of [t]: [this.running--; this.run()]. *)
Definition finally (t : nat) (w : World T) : option (World T) :=
  if mem t (finishing w) then Some (run (release t w)) else None.

Definition step (w : World T) (ev : Event T) : option (World T) :=
  match ev with
  | Add prio => Some (add prio w)
  | Settle t o => settle t o w
  | Finally t => finally t w
  end.

(** A sequence of events; [None] when one of them cannot happen. *)
Fixpoint exec (w : World T) (evs : list (Event T)) : option (World T) :=
  match evs with
  | [] => Some w
  | ev :: rest =>
    match step w ev with
    | Some w' => exec w' rest
    | None => None
    end
  end.

End Scheduler.

(** The items in the order [run()] takes them: those already started,
    then the queue. *)
Definition line {T : Type} (w : World T) : list QueueItem :=
  started w ++ queue (pq w).

(** [a] comes before [b] in [l]. *)
Definition before {A : Type} (a b : A) (l : list A) : Prop :=
  exists l1 l2 l3, l = l1 ++ a :: l2 ++ b :: l3.

Definition is_high (i : QueueItem) : Prop := priority i = true.
Definition is_normal (i : QueueItem) : Prop := priority i = false.

(** The queue is its priority items followed by its normal items. *)
Definition partitioned (q : list QueueItem) : Prop :=
  exists hs ns, q = hs ++ ns /\ Forall is_high hs /\ Forall is_normal ns.

(** The calls made on the handle of task [t]. *)
Definition calls_on {T : Type} (t : nat) (hc : list (nat * HandleCall T))
  : list (HandleCall T) :=
  map snd (filter (fun c => Nat.eqb (fst c) t) hc).

(** ** Objects, and the result of [regenerateQuestionData] *)

(** The property [k] among the own properties of an object.  The list
    is in the order of the members of the JSON text or of the
    assignments, and the last binding of a name is the one that counts, as
    it does for [JSON.parse]. *)
Fixpoint obj_find (props : list (string * JsVal)) (k : string) : option JsVal :=
  match props with
  | [] => None
  | (k', v) :: rest =>
    match obj_find rest k with
    | Some v' => Some v'
    | None => if String.eqb k' k then Some v else None
    end
  end.

(** [o.k]: [undefined] when the property is absent. *)
Definition obj_get (props : list (string * JsVal)) (k : string) : JsVal :=
  match obj_find props k with
  | Some v => v
  | None => JUndefined
  end.

(** [o.k = v]: the property is rebound where it is, or added. *)
Definition obj_set (props : list (string * JsVal)) (k : string) (v : JsVal)
  : list (string * JsVal) :=
  match obj_find props k with
  | Some _ => map (fun p => if String.eqb (fst p) k then (k, v) else p) props
  | None => props ++ [(k, v)]
  end.

Definition index_key (i : nat) : string :=
  NilEmpty.string_of_uint (Nat.to_uint i).

Fixpoint chars (s : string) : list JsVal :=
  match s with
  | EmptyString => []
  | String c rest => JStr (String c EmptyString) :: chars rest
  end.

Definition indexed (items : list JsVal) : list (string * JsVal) :=
  map (fun p => (index_key (fst p), snd p))
      (combine (seq 0 (List.length items)) items).

(** The own enumerable properties of a value, which is what a spread
    [{...v}] copies: those of an object, the elements of an array or the
    characters of a string under their indices, none otherwise. *)
Definition own_props (v : JsVal) : list (string * JsVal) :=
  match v with
  | JObj props => props
  | JArr items => indexed items
  | JStr s => indexed (chars s)
  | _ => []
  end.

(** [{...target, ...v}]. *)
Definition spread (target : list (string * JsVal)) (v : JsVal)
  : list (string * JsVal) :=
  fold_left (fun acc p => obj_set acc (fst p) (snd p)) (own_props v) target.

(** [v.k]: a [TypeError] ([None]) on [undefined] and [null]. *)
Definition get_prop (v : JsVal) (k : string) : option JsVal :=
  match v with
  | JUndefined | JNull => None
  | _ => Some (obj_get (own_props v) k)
  end.

Definition truthy (v : JsVal) : bool :=
  match v with
  | JUndefined | JNull => false
  | JBool b => b
  | JNum q => negb (Qeq_bool q 0)
  | JStr s => negb (String.eqb s "")
  | JArr _ | JObj _ => true
  end.

(** [a || b]. *)
Definition js_or (a b : JsVal) : JsVal := if truthy a then a else b.

(** All of a list of results, or the first failure. *)
Fixpoint sequence {A : Type} (l : list (option A)) : option (list A) :=
  match l with
  | [] => Some []
  | None :: _ => None
  | Some a :: rest =>
    match sequence rest with
    | Some r => Some (a :: r)
    | None => None
    end
  end.

Section Regenerate.
(** Built-ins: [String(v)], and the [k]-th [crypto.randomUUID()] of one
    call of [validateAndFixData]. *)
Variable String_of : JsVal -> string.
Variable randomUUID : nat -> string.

(** The callback of [data.sub_questions.map]. *)
Definition fix_sub_question (k : nat) (sq : JsVal) : option JsVal :=
  match get_prop sq "content", get_prop sq "is_correct" with
  | Some content, Some is_correct =>
    Some (JObj (obj_set
                 (obj_set
                   (obj_set (spread [] sq) "id" (JStr (randomUUID k)))
                   "content" (js_or content (JStr "")))
                 "is_correct" (JBool (truthy is_correct))))
  | _, _ => None
  end.

(** [validateAndFixData(data, originalType)].  The result is given by
    its own properties; [None] is a [TypeError], thrown when a property
    is read from [null] or written on a value that is no object. *)
Definition validateAndFixData (data originalType : JsVal)
  : option (list (string * JsVal)) :=
  let data :=
    match data with
    | JArr [] => JObj []
    | JArr (first :: _) => first
    | _ => data
    end in
  match data with
  | JObj _ | JArr _ =>
    let d := own_props data in
    let d := obj_set d "content"
               (js_or (obj_get d "content") (JStr "Nội dung câu hỏi...")) in
    let d := obj_set d "solution_guide"
               (js_or (obj_get d "solution_guide") (JStr "(AI chưa tạo lời giải)")) in
    if strict_eq_str originalType "multiple_choice" then
      let d :=
        match obj_get d "options" with
        | JArr (_ :: _) => d
        | _ => obj_set d "options"
                 (JArr [JStr "(Chưa có đáp án)"; JStr "(Chưa có đáp án)";
                        JStr "(Chưa có đáp án)"; JStr "(Chưa có đáp án)"])
        end in
      Some (if truthy (obj_get d "correct_option") then d
            else obj_set d "correct_option" (JStr "A"))
    else if strict_eq_str originalType "true_false_group" then
      let subs :=
        match obj_get d "sub_questions" with
        | JArr items => items
        | _ => []
        end in
      match sequence (map (fun p => fix_sub_question (fst p) (snd p))
                          (combine (seq 0 (List.length subs)) subs)) with
      | Some fixed => Some (obj_set d "sub_questions" (JArr fixed))
      | None => None
      end
    else if strict_eq_str originalType "short_answer" then
      Some (match obj_get d "correct_answer" with
            | JStr _ => d
            | other => obj_set d "correct_answer"
                         (JStr (String_of (js_or other (JStr ""))))
            end)
    else if strict_eq_str originalType "essay" then
      Some (if truthy (obj_get d "reference_solution") then d
            else obj_set d "reference_solution" (JStr ""))
    else Some d
  | _ => None
  end.

(** What one call of the model gives the operation of
    [regenerateQuestionData]: the call itself fails, the response has
    no text, [safeJsonParse] throws, or it returns a value. *)
Inductive Response : Type :=
| CallFailed (e : JsError)
| NoText
| ParseFailed (e : JsError)
| Parsed (v : JsVal).

Variable TypeError_thrown : JsError.

Definition Error_ (msg : string) : JsError :=
  mkError JUndefined JUndefined (Some msg).

(** The object literal returned once the response is parsed. *)
Definition regenerated (question : list (string * JsVal))
                       (newData : list (string * JsVal)) : JsVal :=
  JObj (obj_set
         (obj_set
           (obj_set (spread [] (JObj newData)) "id" (obj_get question "id"))
           "type" (obj_get question "type"))
         "figure_image" (obj_get question "figure_image")).

(** One run of the operation [regenerateQuestionData] hands to
    [retryOperation], for the question and the response it got. *)
Definition regenerate_attempt (question : list (string * JsVal)) (r : Response)
  : Outcome JsVal :=
  match r with
  | CallFailed e => Rejected e
  | NoText => Rejected (Error_ "Empty response from regeneration")
  | ParseFailed e => Rejected e
  | Parsed v =>
    match validateAndFixData v (obj_get question "type") with
    | Some newData => Fulfilled (regenerated question newData)
    | None => Rejected TypeError_thrown
    end
  end.

(** [regenerateQuestionData(question, options)] once its task runs:
    [retryOperation] with its default arguments around the operation,
    the [k]-th invocation of which gets [responses k]. *)
Definition regenerateQuestionData (question : list (string * JsVal))
                                  (responses : nat -> Response)
                                  (Math_random : nat -> Q)
  : option (Outcome JsVal) * RetryState JsVal :=
  retryOperation_default (fun k => regenerate_attempt question (responses k))
                         Math_random retry_start.

(** The read [o.k] of a value the function returned. *)
Definition field (o : JsVal) (k : string) : JsVal :=
  obj_get (own_props o) k.

End Regenerate.

(** ** The classification in the words of the specification *)

(** [needle] occurs in [s]. *)
Definition contains (s needle : string) : Prop :=
  exists pre post, s = (pre ++ needle ++ post)%string.

(** The same letter, in either case. *)
Definition same_letter (c d : ascii) : Prop :=
  c = d \/
  (is_upper c = true /\ N_of_ascii d = (N_of_ascii c + 32)%N) \/
  (is_upper d = true /\ N_of_ascii c = (N_of_ascii d + 32)%N).

Inductive caseless_eq : string -> string -> Prop :=
| caseless_nil : caseless_eq EmptyString EmptyString
| caseless_cons c d s t :
    same_letter c d -> caseless_eq s t -> caseless_eq (String c s) (String d t).

(** [needle] occurs in [s], case ignored. *)
Definition contains_caseless (s needle : string) : Prop :=
  exists pre mid post,
    s = (pre ++ mid ++ post)%string /\ caseless_eq mid needle.

(** The value is the number [n]. *)
Definition is_number (v : JsVal) (n : Z) : Prop :=
  exists q, v = JNum q /\ (q == inject_Z n)%Q.

Definition message_has (e : JsError) (P : string -> Prop) : Prop :=
  exists m, message e = Some m /\ P m.

Definition spec_rateLimited (e : JsError) : Prop :=
  is_number (code e) 429 \/ is_number (status e) 429 \/
  status e = JStr "RESOURCE_EXHAUSTED" \/
  message_has e (fun m =>
    contains_caseless m "429" \/ contains_caseless m "quota" \/
    contains_caseless m "exhausted").

Definition spec_transient (e : JsError) : Prop :=
  message_has e (fun m =>
    contains m "xhr" \/ contains m "fetch" \/ contains m "network" \/
    contains m "Failed to fetch") \/
  is_number (code e) 500 \/ is_number (code e) 503 \/
  is_number (status e) 500 \/ is_number (status e) 503 \/
  message_has e (fun m => contains m "error code: 6").

(** ** The shape of a timeline

    What [retryOperation(operation, retries, delay)] adds to the timeline:
    one attempt that ends the call, or an attempt, the wait of its branch
    and what the recursive call adds. *)

Definition ends_call {T : Type} (retries : Z) (o : Outcome T) : Prop :=
  match o with
  | Fulfilled _ => True
  | Rejected e => retries <= 0 \/ classify e = Fatal
  end.

Inductive backoff_chain {T : Type} (Math_random : nat -> Q)
  : Z -> Z -> list (RetryEvent T) -> Prop :=
| chain_end retries delay o :
    ends_call retries o ->
    backoff_chain Math_random retries delay [Attempt retries delay o]
| chain_rate retries delay e k rest :
    0 < retries ->
    classify e = RateLimited ->
    backoff_chain Math_random (retries - 1) (delay * 2) rest ->
    backoff_chain Math_random retries delay
      (Attempt retries delay (Rejected e)
       :: Wait RateLimited (5000 + Math_random k * 3000)%Q :: rest)
| chain_transient retries delay e rest :
    0 < retries ->
    classify e = Transient ->
    backoff_chain Math_random (retries - 1) (delay * 2) rest ->
    backoff_chain Math_random retries delay
      (Attempt retries delay (Rejected e)
       :: Wait Transient (inject_Z delay) :: rest).

(** ** Invariants of the scheduler *)

(** The gate: [running] counts the started tasks whose [finally]
    callback has not run, and has never left [0 .. c]. *)
Definition gate_ok {T : Type} (c : Z) (w : World T) : Prop :=
  concurrency (pq w) = c /\
  running (pq w)
    = Z.of_nat (List.length (awaiting w) + List.length (finishing w)) /\
  List.length (started w)
    = (List.length (awaiting w) + List.length (finishing w)
       + List.length (finished w))%nat /\
  running (pq w) <= c /\
  Forall (fun r => 0 <= r <= c) (running_seen w) /\
  last (running_seen w) 0 = running (pq w).

(** The names: every item of the line has its own [task], given before
    the next call of [add]. *)
Definition ids_ok {T : Type} (w : World T) : Prop :=
  NoDup (map task (line w)) /\
  (forall x, In x (line w) -> (task x < List.length (submitted w))%nat).

(** The order: the queue is partitioned, every submitted item is in the
    line, and two items of one priority class are in the line in the
    order of their submission. *)
Definition order_ok {T : Type} (w : World T) : Prop :=
  ids_ok w /\
  partitioned (queue (pq w)) /\
  (forall x, In x (submitted w) -> In x (line w)) /\
  (forall a b, before a b (submitted w) -> priority a = priority b ->
               before a b (line w)).

(** The handles: the tasks awaited are started tasks, each once; a task
    whose handle was called is a started task that is awaited no more;
    and no handle was called twice. *)
Definition handles_ok {T : Type} (w : World T) : Prop :=
  ids_ok w /\
  NoDup (awaiting w) /\
  (forall t, In t (awaiting w) -> In t (map task (started w))) /\
  (forall t, In t (map fst (handle_calls w)) ->
             In t (map task (started w)) /\ ~ In t (awaiting w)) /\
  NoDup (map fst (handle_calls w)).

(** ** Scenarios of the specification *)

Definition error_500 : JsError :=
  mkError JUndefined (JNum 500) (Some "Internal error encountered.").

Definition error_429 : JsError :=
  mkError (JNum 429) (JStr "RESOURCE_EXHAUSTED") (Some "Quota exceeded").

Definition error_schema : JsError :=
  mkError (JNum 400) (JStr "INVALID_ARGUMENT") (Some "malformed schema").

(** Work that always fails with status 500. *)
Definition always_500 : nat -> Outcome JsVal := fun _ => Rejected error_500.

(** Work that always fails with a validation error. *)
Definition always_invalid : nat -> Outcome JsVal := fun _ => Rejected error_schema.

(** Work that fails twice with 429 and then succeeds. *)
Definition twice_429 : nat -> Outcome JsVal :=
  fun k => if (k <? 2)%nat then Rejected error_429 else Fulfilled (JStr "ok").

(** [Math.random()] returning one half every time. *)
Definition half : nat -> Q := fun _ => (1 # 2)%Q.

(** A question, and a response that names another id, type and figure. *)
Definition question_q1 : list (string * JsVal) :=
  [("id", JStr "q-1"); ("type", JStr "short_answer");
   ("content", JStr "1 + 1 = ?"); ("solution_guide", JStr "2");
   ("correct_answer", JStr "2");
   ("figure_image", JStr "data:image/png;base64,AAAA")].

Definition response_other : Response :=
  Parsed (JObj [("id", JStr "other"); ("type", JStr "essay");
                ("content", JStr "2 + 2 = ?"); ("correct_answer", JNum 4);
                ("figure_image", JNull)]).

Definition run_q1 : option (Outcome JsVal) * RetryState JsVal :=
  regenerateQuestionData (fun _ => "4") (fun _ => "uuid") (Error_ "TypeError")
                         question_q1 (fun _ => response_other) half.

Definition regenerated_q1 : JsVal :=
  match fst run_q1 with
  | Some (Fulfilled v) => v
  | _ => JUndefined
  end.

(** ** Further readings of a timeline *)

(** The arguments [retries] and [delay] of the calls of [retryOperation],
    in order. *)
Definition attempt_args {T : Type} (tl : list (RetryEvent T)) : list (Z * Z) :=
  flat_map (fun ev =>
    match ev with
    | Attempt r d _ => [(r, d)]
    | Wait _ _ => []
    end) tl.

(** A failure that the [catch] clause answers with a retry when retries
    are left. *)
Definition retryable {T : Type} (o : Outcome T) : Prop :=
  exists e, o = Rejected e /\ classify e <> Fatal.

(** ** The parts of [validateAndFixData] *)

(** [if (Array.isArray(data)) data = data.length > 0 ? data[0] : {}]. *)
Definition first_or_empty (data : JsVal) : JsVal :=
  match data with
  | JArr [] => JObj []
  | JArr (first :: _) => first
  | _ => data
  end.

(** The two assignments under [Ensure mandatory fields exist]. *)
Definition ensure_mandatory (d : list (string * JsVal)) : list (string * JsVal) :=
  let d := obj_set d "content"
             (js_or (obj_get d "content") (JStr "Nội dung câu hỏi...")) in
  obj_set d "solution_guide"
    (js_or (obj_get d "solution_guide") (JStr "(AI chưa tạo lời giải)")).

(** The chain of tests under [Fix based on type]. *)
Definition fix_by_type (String_of : JsVal -> string) (randomUUID : nat -> string)
           (originalType : JsVal) (d : list (string * JsVal))
  : option (list (string * JsVal)) :=
  if strict_eq_str originalType "multiple_choice" then
    let d :=
      match obj_get d "options" with
      | JArr (_ :: _) => d
      | _ => obj_set d "options"
               (JArr [JStr "(Chưa có đáp án)"; JStr "(Chưa có đáp án)";
                      JStr "(Chưa có đáp án)"; JStr "(Chưa có đáp án)"])
      end in
    Some (if truthy (obj_get d "correct_option") then d
          else obj_set d "correct_option" (JStr "A"))
  else if strict_eq_str originalType "true_false_group" then
    let subs :=
      match obj_get d "sub_questions" with
      | JArr items => items
      | _ => []
      end in
    match sequence (map (fun p => fix_sub_question randomUUID (fst p) (snd p))
                        (combine (seq 0 (List.length subs)) subs)) with
    | Some fixed => Some (obj_set d "sub_questions" (JArr fixed))
    | None => None
    end
  else if strict_eq_str originalType "short_answer" then
    Some (match obj_get d "correct_answer" with
          | JStr _ => d
          | other => obj_set d "correct_answer"
                       (JStr (String_of (js_or other (JStr ""))))
          end)
  else if strict_eq_str originalType "essay" then
    Some (if truthy (obj_get d "reference_solution") then d
          else obj_set d "reference_solution" (JStr ""))
  else Some d.

(** A sub-question as the [map] of [validateAndFixData] leaves it: an
    object with the [k]-th identifier drawn, a content that is kept when
    truthy and the empty string otherwise, and a boolean [is_correct]. *)
Definition fixed_sub (randomUUID : nat -> string) (k : nat) (sq : JsVal) : Prop :=
  exists sp,
    sq = JObj sp /\
    obj_get sp "id" = JStr (randomUUID k) /\
    (truthy (obj_get sp "content") = true \/ obj_get sp "content" = JStr "") /\
    exists b, obj_get sp "is_correct" = JBool b.

(** The properties [validateAndFixData] may write. *)
Definition repaired_keys : list string :=
  ["content"; "solution_guide"; "options"; "correct_option"; "sub_questions";
   "correct_answer"; "reference_solution"].

(** ** Schemas *)

(** [Type.STRING], ... of the SDK. *)
Inductive SchemaType : Type := STRING | BOOLEAN | INTEGER | ARRAY | OBJECT.

(** A [Schema] object: [type], and [enum], [items], [properties] and
    [required] where it has them. *)
#[warnings="-register-all"]
Inductive Schema : Type :=
| mkSchema (type : SchemaType) (enum : option (list string))
           (items : option Schema) (properties : list (string * Schema))
           (required : list string).

Definition schema_properties (s : Schema) : list (string * Schema) :=
  match s with mkSchema _ _ _ properties _ => properties end.

Definition schema_required (s : Schema) : list string :=
  match s with mkSchema _ _ _ _ required => required end.

Definition of_type (t : SchemaType) : Schema := mkSchema t None None [] [].

Definition string_enum (values : list string) : Schema :=
  mkSchema STRING (Some values) None [] [].

Definition array_of (s : Schema) : Schema := mkSchema ARRAY None (Some s) [] [].

Definition object_of (properties : list (string * Schema)) (required : list string)
  : Schema :=
  mkSchema OBJECT None None properties required.

Definition subQuestionSchema : Schema :=
  object_of [("id", of_type STRING); ("content", of_type STRING);
             ("is_correct", of_type BOOLEAN)]
            ["content"; "is_correct"].

Definition extractionItemSchema : Schema :=
  object_of
    [("type", string_enum ["multiple_choice"; "true_false_group";
                           "short_answer"; "essay"]);
     ("content", of_type STRING);
     ("solution_guide", of_type STRING);
     ("options", array_of (of_type STRING));
     ("correct_option", string_enum ["A"; "B"; "C"; "D"]);
     ("sub_questions", array_of subQuestionSchema);
     ("correct_answer", of_type STRING);
     ("reference_solution", of_type STRING);
     ("topic", of_type STRING);
     ("difficulty", of_type STRING)]
    ["type"; "content"; "solution_guide"].

Definition extractionListSchema : Schema := array_of extractionItemSchema.

(** [getStrictSchemaForType(type)]. *)
Definition getStrictSchemaForType (type : string) : Schema :=
  let commonProps :=
    [("type", string_enum [type]);
     ("content", of_type STRING);
     ("solution_guide", of_type STRING);
     ("topic", of_type STRING);
     ("difficulty", of_type STRING)] in
  let commonRequired := ["type"; "content"; "solution_guide"] in
  if String.eqb type "multiple_choice" then
    object_of (commonProps ++
               [("options", array_of (of_type STRING));
                ("correct_option", string_enum ["A"; "B"; "C"; "D"])])
              (commonRequired ++ ["options"; "correct_option"])
  else if String.eqb type "true_false_group" then
    object_of (commonProps ++ [("sub_questions", array_of subQuestionSchema)])
              (commonRequired ++ ["sub_questions"])
  else if String.eqb type "short_answer" then
    object_of (commonProps ++ [("correct_answer", of_type STRING)])
              (commonRequired ++ ["correct_answer"])
  else if String.eqb type "essay" then
    object_of (commonProps ++ [("reference_solution", of_type STRING)])
              (commonRequired ++ ["reference_solution"])
  else extractionItemSchema.

(** ** The other API functions *)

Section ApiFunctions.
Variable String_of : JsVal -> string.
Variable randomUUID : nat -> string.
Variable TypeError_thrown : JsError.

(** The object literal [{ ...question, ...res }] of [solveSpecificQuestion]. *)
Definition solved (question res : list (string * JsVal)) : JsVal :=
  JObj (spread (spread [] (JObj question)) (JObj res)).

(** One run of the operation of [solveSpecificQuestion]. *)
Definition solve_attempt (question : list (string * JsVal)) (r : Response)
  : Outcome JsVal :=
  match r with
  | CallFailed e => Rejected e
  | NoText => Rejected (Error_ "Empty")
  | ParseFailed e => Rejected e
  | Parsed v =>
    match validateAndFixData String_of randomUUID v (obj_get question "type") with
    | Some res => Fulfilled (solved question res)
    | None => Rejected TypeError_thrown
    end
  end.

(** [solveSpecificQuestion(question)] once its task runs. *)
Definition solveSpecificQuestion (question : list (string * JsVal))
           (responses : nat -> Response) (Math_random : nat -> Q)
  : option (Outcome JsVal) * RetryState JsVal :=
  retryOperation_default (fun k => solve_attempt question (responses k))
                         Math_random retry_start.

(** One run of the operation of [solveQuestionBatch]: the parsed response
    is returned as it is. *)
Definition batch_attempt (r : Response) : Outcome JsVal :=
  match r with
  | CallFailed e => Rejected e
  | NoText => Rejected (Error_ "Batch solve returned empty.")
  | ParseFailed e => Rejected e
  | Parsed v => Fulfilled v
  end.

(** [solveQuestionBatch(questions)] once its task runs. *)
Definition solveQuestionBatch (responses : nat -> Response)
           (Math_random : nat -> Q)
  : option (Outcome JsVal) * RetryState JsVal :=
  retryOperation_default (fun k => batch_attempt (responses k))
                         Math_random retry_start.

(** The calls of [crypto.randomUUID()] one [validateAndFixData] has made,
    read off its result: one for each sub-question of a true/false group. *)
Definition uuids_used (originalType : JsVal) (d : list (string * JsVal)) : nat :=
  if strict_eq_str originalType "true_false_group" then
    match obj_get d "sub_questions" with
    | JArr fixed => List.length fixed
    | _ => 0%nat
    end
  else 0%nat.

(** [data.map((q) => ({ ...validateAndFixData(q, q.type), id:
    crypto.randomUUID() }))], [n] identifiers having been drawn before;
    [None] is a [TypeError]. *)
Fixpoint extract_items (n : nat) (data : list JsVal) : option (list JsVal) :=
  match data with
  | [] => Some []
  | q :: rest =>
    match get_prop q "type" with
    | None => None
    | Some ty =>
      match validateAndFixData String_of (fun k => randomUUID (n + k)) q ty with
      | None => None
      | Some d =>
        let used := uuids_used ty d in
        match extract_items (n + used + 1) rest with
        | Some qs =>
          Some (JObj (obj_set (spread [] (JObj d)) "id"
                              (JStr (randomUUID (n + used)))) :: qs)
        | None => None
        end
      end
    end
  end.

(** One run of the operation of [extractQuestionsFromImage]; the
    identifiers are numbered within the run. *)
Definition extract_attempt (r : Response) : Outcome JsVal :=
  match r with
  | CallFailed e => Rejected e
  | NoText => Rejected (Error_ "No data returned from AI")
  | ParseFailed e => Rejected e
  | Parsed (JArr data) =>
    match extract_items 0 data with
    | Some qs => Fulfilled (JArr qs)
    | None => Rejected TypeError_thrown
    end
  | Parsed _ => Rejected (Error_ "No data returned from AI")
  end.

(** [extractQuestionsFromImage(base64Image)] once its task runs:
    [retryOperation(..., 2, 3000)]. *)
Definition extractQuestionsFromImage (responses : nat -> Response)
           (Math_random : nat -> Q)
  : option (Outcome JsVal) * RetryState JsVal :=
  retryOperation (fun k => extract_attempt (responses k))
                 Math_random 2 3000 retry_start.

End ApiFunctions.

(** The same question and response for [solveSpecificQuestion]. *)
Definition run_solve_q1 : option (Outcome JsVal) * RetryState JsVal :=
  solveSpecificQuestion (fun _ => "4") (fun _ => "uuid") (Error_ "TypeError")
                        question_q1 (fun _ => response_other) half.

Definition solved_q1 : JsVal :=
  match fst run_solve_q1 with
  | Some (Fulfilled v) => v
  | _ => JUndefined
  end.

(** A page with a true/false group of two statements and a short answer,
    as the model returns it, and identifiers numbered as they are drawn. *)
Definition response_page : Response :=
  Parsed (JArr
    [JObj [("type", JStr "true_false_group"); ("content", JStr "Xét tính đúng sai");
           ("sub_questions",
            JArr [JObj [("content", JStr "a"); ("is_correct", JBool true)];
                  JObj [("content", JStr "b")]])];
     JObj [("type", JStr "short_answer"); ("id", JStr "from the model");
           ("correct_answer", JStr "4")]]).

Definition uuid_numbered (k : nat) : string := index_key k.

Definition run_extract_page : option (Outcome JsVal) * RetryState JsVal :=
  extractQuestionsFromImage (fun _ => "") uuid_numbered (Error_ "TypeError")
                            (fun _ => response_page) half.

Definition extracted_page : JsVal :=
  match fst run_extract_page with
  | Some (Fulfilled v) => v
  | _ => JUndefined
  end.

(** * The store of questions

    The [zustand] store of the editor: its data fields are the state, and
    an action is a function of the state, the partial state its updater
    returns being merged into it.  An updater that throws gives [None],
    and the store stays as it was. *)

Module Store.

Record State : Type := mkState {
  questions : list JsVal;
  imageBase64 : option string;
  pdfPages : list string;
  isProcessing : bool;
  selectedQuestionId : option string;
  error : option string;
  croppingForQuestionId : option string;
  solvingStatus : list (string * JsVal);
  past : list (list JsVal);
  future : list (list JsVal);
  isSelectionMode : bool;
  selectedQuestionIds : list JsVal
}.

(** The state [create] starts from. *)
Definition initial : State :=
  mkState [] None [] false None None None [] [] [] false [].

(** The three fields [pushToHistory], [undo] and [redo] return. *)
Record History : Type := mkHistory {
  h_questions : list JsVal;
  h_past : list (list JsVal);
  h_future : list (list JsVal)
}.

(** [set(partial)] for the partial states the actions return. *)
Definition set_history (s : State) (h : History) : State :=
  mkState (h_questions h) (imageBase64 s) (pdfPages s) (isProcessing s)
          (selectedQuestionId s) (error s) (croppingForQuestionId s)
          (solvingStatus s) (h_past h) (h_future h)
          (isSelectionMode s) (selectedQuestionIds s).

Definition set_questions (s : State) (qs : list JsVal) : State :=
  mkState qs (imageBase64 s) (pdfPages s) (isProcessing s)
          (selectedQuestionId s) (error s) (croppingForQuestionId s)
          (solvingStatus s) (past s) (future s)
          (isSelectionMode s) (selectedQuestionIds s).

Definition set_solvingStatus (s : State) (m : list (string * JsVal)) : State :=
  mkState (questions s) (imageBase64 s) (pdfPages s) (isProcessing s)
          (selectedQuestionId s) (error s) (croppingForQuestionId s)
          m (past s) (future s)
          (isSelectionMode s) (selectedQuestionIds s).

Definition set_selectedQuestionId (s : State) (id : option string) : State :=
  mkState (questions s) (imageBase64 s) (pdfPages s) (isProcessing s)
          id (error s) (croppingForQuestionId s)
          (solvingStatus s) (past s) (future s)
          (isSelectionMode s) (selectedQuestionIds s).

Definition set_selectedQuestionIds (s : State) (ids : list JsVal) : State :=
  mkState (questions s) (imageBase64 s) (pdfPages s) (isProcessing s)
          (selectedQuestionId s) (error s) (croppingForQuestionId s)
          (solvingStatus s) (past s) (future s)
          (isSelectionMode s) ids.

Definition set_isSelectionMode (s : State) (b : bool) : State :=
  mkState (questions s) (imageBase64 s) (pdfPages s) (isProcessing s)
          (selectedQuestionId s) (error s) (croppingForQuestionId s)
          (solvingStatus s) (past s) (future s)
          b (selectedQuestionIds s).

Definition setPdfPages (pages : list string) (s : State) : State :=
  mkState (questions s) (imageBase64 s) pages (isProcessing s)
          (selectedQuestionId s) (error s) (croppingForQuestionId s)
          (solvingStatus s) (past s) (future s)
          (isSelectionMode s) (selectedQuestionIds s).

Definition setImage (base64 : option string) (s : State) : State :=
  mkState (questions s) base64 (pdfPages s) (isProcessing s)
          (selectedQuestionId s) (error s) (croppingForQuestionId s)
          (solvingStatus s) (past s) (future s)
          (isSelectionMode s) (selectedQuestionIds s).

Definition setProcessing (status : bool) (s : State) : State :=
  mkState (questions s) (imageBase64 s) (pdfPages s) status
          (selectedQuestionId s) (error s) (croppingForQuestionId s)
          (solvingStatus s) (past s) (future s)
          (isSelectionMode s) (selectedQuestionIds s).

Definition setSelectedQuestion (id : option string) (s : State) : State :=
  set_selectedQuestionId s id.

Definition setError (msg : option string) (s : State) : State :=
  mkState (questions s) (imageBase64 s) (pdfPages s) (isProcessing s)
          (selectedQuestionId s) msg (croppingForQuestionId s)
          (solvingStatus s) (past s) (future s)
          (isSelectionMode s) (selectedQuestionIds s).

Definition setCroppingForQuestionId (id : option string) (s : State) : State :=
  mkState (questions s) (imageBase64 s) (pdfPages s) (isProcessing s)
          (selectedQuestionId s) (error s) id
          (solvingStatus s) (past s) (future s)
          (isSelectionMode s) (selectedQuestionIds s).

(** [delete o[k]]. *)
Definition obj_delete (props : list (string * JsVal)) (k : string)
  : list (string * JsVal) :=
  filter (fun p => negb (String.eqb (fst p) k)) props.

Definition setQuestionSolvingStatus (id : string) (status : bool) (s : State)
  : State :=
  set_solvingStatus s
    (obj_set (spread [] (JObj (solvingStatus s))) id (JBool status)).

(** [pushToHistory(state, newQuestions)]: the list on screen goes on top
    of [past], the oldest entry is dropped beyond 50, [future] is
    emptied. *)
Definition pushToHistory (state : State) (newQuestions : list JsVal) : History :=
  let newPast := past state ++ [questions state] in
  let newPast := if Nat.ltb 50 (List.length newPast) then tl newPast else newPast in
  mkHistory newQuestions newPast [].

Definition setQuestions (qs : list JsVal) (s : State) : State :=
  set_history s (mkHistory qs [] []).

Definition addQuestion (question : JsVal) (state : State) : State :=
  set_history state (pushToHistory state (questions state ++ [question])).

Definition addQuestions (newQuestions : list JsVal) (state : State) : State :=
  set_history state (pushToHistory state (questions state ++ newQuestions)).

(** [q.id === id], a [TypeError] when [q] is [undefined] or [null]. *)
Definition id_is (id : string) (q : JsVal) : option bool :=
  match get_prop q "id" with
  | Some v => Some (strict_eq_str v id)
  | None => None
  end.

(** [l.some(test)]: stops at the first element that passes; a test that
    throws before that ends the call. *)
Fixpoint array_some {A : Type} (test : A -> option bool) (l : list A)
  : option bool :=
  match l with
  | [] => Some false
  | x :: rest =>
    match test x with
    | None => None
    | Some true => Some true
    | Some false => array_some test rest
    end
  end.

(** [l.findIndex(test)], with a test that may throw. *)
Fixpoint array_findIndex_from {A : Type} (test : A -> option bool) (i : nat)
         (l : list A) : option (option nat) :=
  match l with
  | [] => Some None
  | x :: rest =>
    match test x with
    | None => None
    | Some true => Some (Some i)
    | Some false => array_findIndex_from test (S i) rest
    end
  end.

Definition array_findIndex {A : Type} (test : A -> option bool) (l : list A)
  : option (option nat) :=
  array_findIndex_from test 0 l.

(** [l.filter(test)]: every element is tested. *)
Fixpoint array_filter {A : Type} (test : A -> option bool) (l : list A)
  : option (list A) :=
  match l with
  | [] => Some []
  | x :: rest =>
    match test x with
    | None => None
    | Some b =>
      match array_filter test rest with
      | None => None
      | Some r => Some (if b then x :: r else r)
      end
    end
  end.

(** [l.map(f)]: every element is mapped, in order. *)
Definition array_map {A B : Type} (f : A -> option B) (l : list A)
  : option (list B) :=
  sequence (map f l).

(** The object literal [{ ...q, ...updates }]. *)
Definition merged (q updates : JsVal) : JsVal :=
  JObj (spread (spread [] q) updates).

Definition updateQuestion (id : string) (updates : JsVal) (state : State)
  : option State :=
  match array_some (id_is id) (questions state) with
  | None => None
  | Some false => Some state
  | Some true =>
    match array_map (fun q => match id_is id q with
                              | None => None
                              | Some true => Some (merged q updates)
                              | Some false => Some q
                              end) (questions state) with
    | None => None
    | Some newQuestions => Some (set_questions state newQuestions)
    end
  end.

(** [state.selectedQuestionId === id ? null : state.selectedQuestionId]. *)
Definition unselect (id : string) (selected : option string) : option string :=
  match selected with
  | Some x => if String.eqb x id then None else Some x
  | None => None
  end.

Definition deleteQuestion (id : string) (state : State) : option State :=
  match array_filter (fun q => option_map negb (id_is id q))
                     (questions state) with
  | None => None
  | Some newQuestions =>
    let newSolvingStatus := obj_delete (spread [] (JObj (solvingStatus state))) id in
    Some (set_selectedQuestionId
            (set_solvingStatus
               (set_history state (pushToHistory state newQuestions))
               newSolvingStatus)
            (unselect id (selectedQuestionId state)))
  end.

(** [l.splice(start, 1)]: the element removed, if there is one, and the
    array left.  A negative [start] counts from the end. *)
Definition splice_remove {A : Type} (l : list A) (start : Z)
  : option A * list A :=
  let len := Z.of_nat (List.length l) in
  let k := if start <? 0 then Z.max (len + start) 0 else Z.min start len in
  (nth_error l (Z.to_nat k),
   firstn (Z.to_nat k) l ++ skipn (S (Z.to_nat k)) l).

(** [reorderQuestions(fromIndex, toIndex)], for integer indices.  The
    destructuring [const [removed] = ...] gives [undefined] when nothing
    was removed, and that is inserted. *)
Definition reorderQuestions (fromIndex toIndex : Z) (state : State) : State :=
  let (spliced, result) := splice_remove (questions state) fromIndex in
  let removed := match spliced with Some q => q | None => JUndefined end in
  set_history state
    (pushToHistory state (splice_insert result toIndex removed)).

(** The template literal [`${v}`]: a string is itself, any other value
    goes through the conversion to a string. *)
Definition template_text (String_of : JsVal -> string) (v : JsVal) : string :=
  match v with
  | JStr s => s
  | _ => String_of v
  end.

(** The sub-questions of the copy: each a copy with an identifier of its
    own, the [k]-th getting the [(1 + k)]-th identifier drawn. *)
Definition renumbered (fresh : nat -> string) (subs : list JsVal) : list JsVal :=
  map (fun p => JObj (obj_set (spread [] (snd p)) "id" (JStr (fresh (S (fst p))))))
      (combine (seq 0 (List.length subs)) subs).

(** The copy [duplicateQuestion] makes of [original]; [fresh k] is the
    [k]-th identifier the call draws.  [None] is the [TypeError] of
    [sub_questions.map] on a group whose [sub_questions] is no array. *)
Definition duplicate_of (String_of : JsVal -> string) (fresh : nat -> string)
           (original : JsVal) : option JsVal :=
  let newQuestion :=
    obj_set
      (obj_set (spread [] original) "id" (JStr (fresh 0%nat)))
      "content"
      (JStr (template_text String_of (field original "content") ++ " (Sao chép)")%string) in
  if strict_eq_str (obj_get newQuestion "type") "true_false_group" then
    match obj_get newQuestion "sub_questions" with
    | JArr subs =>
      Some (JObj (obj_set newQuestion "sub_questions"
                          (JArr (renumbered fresh subs))))
    | _ => None
    end
  else Some (JObj newQuestion).

Definition duplicateQuestion (String_of : JsVal -> string)
           (fresh : nat -> string) (id : string) (state : State)
  : option State :=
  match array_findIndex (id_is id) (questions state) with
  | None => None
  | Some None => Some state
  | Some (Some index) =>
    match nth_error (questions state) index with
    | None => None
    | Some original =>
      match duplicate_of String_of fresh original with
      | None => None
      | Some newQuestion =>
        Some (set_history state
                (pushToHistory state
                   (splice_insert (questions state)
                                  (Z.of_nat index + 1) newQuestion)))
      end
    end
  end.

(** [!ids.includes(q.id)]. *)
Definition id_not_among (ids : list string) (q : JsVal) : option bool :=
  match get_prop q "id" with
  | Some v => Some (negb (existsb (strict_eq_str v) ids))
  | None => None
  end.

Definition deleteMultipleQuestions (ids : list string) (state : State)
  : option State :=
  match array_filter (id_not_among ids) (questions state) with
  | None => None
  | Some newQuestions =>
    let newSolvingStatus :=
      fold_left obj_delete ids (spread [] (JObj (solvingStatus state))) in
    Some (set_isSelectionMode
            (set_selectedQuestionIds
               (set_solvingStatus
                  (set_history state (pushToHistory state newQuestions))
                  newSolvingStatus)
               [])
            false)
  end.

Definition clearAll (s : State) : State :=
  mkState [] None [] (isProcessing s)
          (selectedQuestionId s) None (croppingForQuestionId s)
          [] [] [] false [].

Definition toggleSelectionMode (state : State) : State :=
  set_selectedQuestionIds
    (set_isSelectionMode state (negb (isSelectionMode state))) [].

(** [selectedQuestionIds.includes(id)]. *)
Definition is_selected (id : string) (state : State) : bool :=
  existsb (fun qid => strict_eq_str qid id) (selectedQuestionIds state).

Definition toggleQuestionSelection (id : string) (state : State) : State :=
  let isSelected := is_selected id state in
  set_selectedQuestionIds state
    (if isSelected
     then filter (fun qid => negb (strict_eq_str qid id))
                 (selectedQuestionIds state)
     else selectedQuestionIds state ++ [JStr id]).

Definition selectAllQuestions (state : State) : option State :=
  match array_map (fun q => get_prop q "id") (questions state) with
  | None => None
  | Some ids => Some (set_selectedQuestionIds state ids)
  end.

Definition clearSelection (s : State) : State := set_selectedQuestionIds s [].

Definition undo (state : State) : State :=
  match past state with
  | [] => state
  | _ :: _ =>
    let previous := last (past state) [] in
    let newPast := removelast (past state) in
    set_history state
      (mkHistory previous newPast (questions state :: future state))
  end.

Definition redo (state : State) : State :=
  match future state with
  | [] => state
  | next :: newFuture =>
    set_history state
      (mkHistory next (past state ++ [questions state]) newFuture)
  end.

Definition resetHistory (s : State) : State :=
  set_history s (mkHistory (questions s) [] []).

(** What undoing a recorded change [s -> s'] has to give: the list of
    before on screen, the list of after as the one state to redo, and
    that list again after [redo]. *)
Definition undoes (s s' : State) : Prop :=
  questions (undo s') = questions s /\
  future (undo s') = [questions s'] /\
  questions (redo (undo s')) = questions s' /\
  past (redo (undo s')) = past s'.

(** The calls a component can make on the store. *)
Inductive Action : Type :=
| SetPdfPages (pages : list string)
| SetImage (base64 : option string)
| SetProcessing (status : bool)
| SetQuestionSolvingStatus (id : string) (status : bool)
| SetQuestions (qs : list JsVal)
| AddQuestion (question : JsVal)
| AddQuestions (newQuestions : list JsVal)
| UpdateQuestion (id : string) (updates : JsVal)
| DeleteQuestion (id : string)
| ReorderQuestions (fromIndex toIndex : Z)
| DuplicateQuestion (fresh : nat -> string) (id : string)
| DeleteMultipleQuestions (ids : list string)
| ClearAll
| SetSelectedQuestion (id : option string)
| SetError (msg : option string)
| SetCroppingForQuestionId (id : option string)
| ToggleSelectionMode
| ToggleQuestionSelection (id : string)
| SelectAllQuestions
| ClearSelection
| Undo
| Redo
| ResetHistory.

(** The store after a call: that of the action, or the same store when
    its updater threw. *)
Definition unless_thrown (s : State) (r : option State) : State :=
  match r with
  | Some s' => s'
  | None => s
  end.

Definition dispatch (String_of : JsVal -> string) (s : State) (a : Action)
  : State :=
  match a with
  | SetPdfPages pages => setPdfPages pages s
  | SetImage base64 => setImage base64 s
  | SetProcessing status => setProcessing status s
  | SetQuestionSolvingStatus id status => setQuestionSolvingStatus id status s
  | SetQuestions qs => setQuestions qs s
  | AddQuestion question => addQuestion question s
  | AddQuestions newQuestions => addQuestions newQuestions s
  | UpdateQuestion id updates => unless_thrown s (updateQuestion id updates s)
  | DeleteQuestion id => unless_thrown s (deleteQuestion id s)
  | ReorderQuestions fromIndex toIndex => reorderQuestions fromIndex toIndex s
  | DuplicateQuestion fresh id =>
    unless_thrown s (duplicateQuestion String_of fresh id s)
  | DeleteMultipleQuestions ids => unless_thrown s (deleteMultipleQuestions ids s)
  | ClearAll => clearAll s
  | SetSelectedQuestion id => setSelectedQuestion id s
  | SetError msg => setError msg s
  | SetCroppingForQuestionId id => setCroppingForQuestionId id s
  | ToggleSelectionMode => toggleSelectionMode s
  | ToggleQuestionSelection id => toggleQuestionSelection id s
  | SelectAllQuestions => unless_thrown s (selectAllQuestions s)
  | ClearSelection => clearSelection s
  | Undo => undo s
  | Redo => redo s
  | ResetHistory => resetHistory s
  end.

(** The store after a sequence of calls. *)
Definition after (String_of : JsVal -> string) (s : State) (acts : list Action)
  : State :=
  fold_left (dispatch String_of) acts s.

End Store.

(** The bound [pushToHistory] is meant to keep on the history. *)
Definition history_ok (s : Store.State) : Prop :=
  (List.length (Store.past s) + List.length (Store.future s) <= 50)%nat.

(** * The handlers of the components

    What a handler does to the store, given how the calls it awaits
    settled.  The handler's own calls are run one after the other; no
    call of another handler comes in between. *)














(** * Text with formulas

    [processText] of the Word export and [renderText] of the preview
    split a text with the same regular expression,
    [/(\$\$[\s\S]*?\$\$|\$[\s\S]*?\$)/g].  A string is the sequence of
    its bytes in UTF-8; the expression and the escaping tell apart ASCII
    characters only, which are single bytes there and occur in no other
    character. *)

(** The shortest [inner] with [s = inner ++ "$" ++ after]. *)
Fixpoint find_dollar (s : string) : option (string * string) :=
  match s with
  | EmptyString => None
  | String c rest =>
    if Ascii.eqb c "$" then Some (EmptyString, rest)
    else match find_dollar rest with
         | Some (inner, after) => Some (String c inner, after)
         | None => None
         end
  end.

(** [s] without a leading [$$]. *)
Definition after_dollars (s : string) : option string :=
  match s with
  | String c (String d after) =>
    if Ascii.eqb c "$" && Ascii.eqb d "$" then Some after else None
  | _ => None
  end.

(** The shortest [inner] with [s = inner ++ "$$" ++ after]. *)
Fixpoint find_dollars (s : string) : option (string * string) :=
  match after_dollars s with
  | Some after => Some (EmptyString, after)
  | None =>
    match s with
    | EmptyString => None
    | String c rest =>
      match find_dollars rest with
      | Some (inner, after) => Some (String c inner, after)
      | None => None
      end
    end
  end.

(** A match of the expression at the start of [s]: the text matched and
    what follows.  The first alternative is tried first, its lazy
    [[\s\S]*?] stops at the first [$$] that closes; the second one
    stops at the first [$]. *)
Definition match_formula (s : string) : option (string * string) :=
  let block :=
    match after_dollars s with
    | Some rest =>
      match find_dollars rest with
      | Some (inner, after) => Some ("$$" ++ inner ++ "$$", after)%string
      | None => None
      end
    | None => None
    end in
  match block with
  | Some r => Some r
  | None =>
    match s with
    | String c rest =>
      if Ascii.eqb c "$" then
        match find_dollar rest with
        | Some (inner, after) => Some ("$" ++ inner ++ "$", after)%string
        | None => None
        end
      else None
    | EmptyString => None
    end
  end.

(** [text.split(re)] from a position on: [acc] is the text passed since
    the last match.  The pieces are the texts between the matches and,
    for the capturing group, the matches themselves, in turn.  Every
    step passes one character at least, so the length of the text is
    fuel enough. *)
Fixpoint split_from (fuel : nat) (text acc : string) : list string :=
  match fuel with
  | O => [(acc ++ text)%string]
  | S fuel =>
    match text with
    | EmptyString => [acc]
    | String c rest =>
      match match_formula text with
      | Some (m, after) => acc :: m :: split_from fuel after EmptyString
      | None => split_from fuel rest (acc ++ String c EmptyString)%string
      end
    end
  end.

Definition split_formulas (text : string) : list string :=
  split_from (String.length text) text EmptyString.

(** [s.startsWith(p)] and [s.endsWith(p)]. *)
Definition startsWith (s p : string) : bool := String.prefix p s.

Fixpoint endsWith (s p : string) : bool :=
  String.eqb s p
  || match s with
     | EmptyString => false
     | String _ rest => endsWith rest p
     end.

(** [s.slice(a, -b)]. *)
Definition slice_ends (a b : nat) (s : string) : string :=
  String.substring a (String.length s - b - a) s.

(** [s.replace(/c/g, by)] for a single character [c]. *)
Fixpoint replace_all (c : ascii) (by_ : string) (s : string) : string :=
  match s with
  | EmptyString => EmptyString
  | String x rest =>
    if Ascii.eqb x c then (by_ ++ replace_all c by_ rest)%string
    else String x (replace_all c by_ rest)
  end.

Definition newline : ascii := Ascii.ascii_of_nat 10.
Definition double_quote : string := String (Ascii.ascii_of_nat 34) EmptyString.

(** The four replacements of a piece of plain text, in their order. *)
Definition escape_html (part : string) : string :=
  replace_all newline "<br/>"
    (replace_all ">" "&gt;"
       (replace_all "<" "&lt;"
          (replace_all "&" "&amp;" part))).

(** What one character of plain text should become. *)
Definition escape_char (c : ascii) : string :=
  if Ascii.eqb c "&" then "&amp;"
  else if Ascii.eqb c "<" then "&lt;"
  else if Ascii.eqb c ">" then "&gt;"
  else if Ascii.eqb c newline then "<br/>"
  else String c EmptyString.

Fixpoint escape_each (s : string) : string :=
  match s with
  | EmptyString => EmptyString
  | String c rest => (escape_char c ++ escape_each rest)%string
  end.

Section ProcessText.
(** [katex.renderToString(latex, { displayMode, output: 'mathml',
    throwOnError: false })]: the markup, or [None] when it throws. *)
Variable katex_renderToString : string -> bool -> option string.

Definition convertLatexToMathML (latex : string) (displayMode : bool) : string :=
  match katex_renderToString latex displayMode with
  | Some html => html
  | None => latex
  end.

(** The function [parts.map] applies. *)
Definition process_part (part : string) : string :=
  if startsWith part "$$" && endsWith part "$$" then
    let math := slice_ends 2 2 part in
    ("<div style=" ++ double_quote ++ "text-align: center; margin: 10px 0;"
     ++ double_quote ++ ">" ++ convertLatexToMathML math true ++ "</div>")%string
  else if startsWith part "$" && endsWith part "$" then
    let math := slice_ends 1 1 part in
    convertLatexToMathML math false
  else escape_html part.

Definition processText (text : string) : string :=
  if String.eqb text "" then ""
  else String.concat "" (map process_part (split_formulas text)).

End ProcessText.

(** [s] has no [$]. *)
Fixpoint dollar_free (s : string) : bool :=
  match s with
  | EmptyString => true
  | String c rest => negb (Ascii.eqb c "$") && dollar_free rest
  end.

(** * Properties *)

(** ** Strings *)

Lemma prefix_app (n s : string) :
  String.prefix n s = true <-> exists post, s = (n ++ post)%string.
Proof.
  revert s; induction n as [|c n IH]; intros s.
  - split; [intros _; now exists s | intros _; now destruct s].
  - destruct s as [|d s]; simpl.
    + split; [discriminate | intros [post H]; discriminate].
    + destruct (Ascii.ascii_dec c d) as [->|Hne].
      * rewrite IH. split; intros [post H]; exists post.
        -- now rewrite H.
        -- now injection H.
      * split; [discriminate|]. intros [post H]. injection H as H1 H2.
        now elim Hne.
Qed.

Lemma includes_contains (s needle : string) :
  includes s needle = true <-> contains s needle.
Proof.
  unfold contains. induction s as [|c s IH].
  - cbn [includes]. rewrite orb_false_r, prefix_app. split.
    + intros [post H]. now exists EmptyString, post.
    + intros [pre [post H]]. destruct pre; [now exists post | discriminate].
  - cbn [includes]. rewrite orb_true_iff, prefix_app, IH. split.
    + intros [[post H] | [pre [post H]]].
      * now exists EmptyString, post.
      * exists (String c pre), post. simpl. now rewrite H.
    + intros [pre [post H]]. destruct pre as [|d pre].
      * left. now exists post.
      * right. simpl in H. injection H as _ H. now exists pre, post.
Qed.

Lemma toLowerCase_app (a b : string) :
  toLowerCase (a ++ b) = (toLowerCase a ++ toLowerCase b)%string.
Proof. induction a as [|c a IH]; simpl; [reflexivity | now rewrite IH]. Qed.

Lemma toLowerCase_split (m a b : string) :
  toLowerCase m = (a ++ b)%string ->
  exists m1 m2, m = (m1 ++ m2)%string /\ toLowerCase m1 = a /\ toLowerCase m2 = b.
Proof.
  revert m; induction a as [|c a IH]; intros m H.
  - now exists EmptyString, m.
  - destruct m as [|d m]; [discriminate|]. simpl in H. injection H as Hc H.
    destruct (IH _ H) as [m1 [m2 [-> [H1 H2]]]].
    exists (String d m1), m2. simpl. now rewrite Hc, H1.
Qed.

Lemma is_upper_range (c : ascii) :
  is_upper c = true <-> (65 <= N_of_ascii c <= 90)%N.
Proof.
  unfold is_upper. rewrite andb_true_iff, !N.leb_le. tauto.
Qed.

Lemma lower_ascii_code (c : ascii) :
  N_of_ascii (lower_ascii c) =
  if is_upper c then (N_of_ascii c + 32)%N else N_of_ascii c.
Proof.
  unfold lower_ascii. destruct (is_upper c) eqn:U; [|reflexivity].
  apply is_upper_range in U. apply N_ascii_embedding. lia.
Qed.

Lemma N_of_ascii_inj (c d : ascii) : N_of_ascii c = N_of_ascii d -> c = d.
Proof.
  intros H. rewrite <- (ascii_N_embedding c), <- (ascii_N_embedding d).
  now rewrite H.
Qed.

Ltac upper_cases c :=
  let H := fresh "H" in
  pose proof (is_upper_range c) as H;
  destruct (is_upper c);
  [ assert (65 <= N_of_ascii c <= 90)%N by (now apply H)
  | assert (~ (65 <= N_of_ascii c <= 90)%N)
      by (let X := fresh in intros X; apply H in X; discriminate) ];
  clear H.

Lemma same_letter_lower (c d : ascii) :
  same_letter c d <-> lower_ascii c = lower_ascii d.
Proof.
  unfold same_letter. split.
  - intros H. apply N_of_ascii_inj. rewrite !lower_ascii_code.
    destruct H as [H | [[H1 H2] | [H1 H2]]].
    + now subst d.
    + upper_cases c; upper_cases d; try discriminate; lia.
    + upper_cases c; upper_cases d; try discriminate; lia.
  - intros H. apply (f_equal N_of_ascii) in H. rewrite !lower_ascii_code in H.
    upper_cases c; upper_cases d.
    + left. apply N_of_ascii_inj. lia.
    + right. left. split; [reflexivity | lia].
    + right. right. split; [reflexivity | lia].
    + left. now apply N_of_ascii_inj.
Qed.

Lemma caseless_eq_lower (s t : string) :
  caseless_eq s t <-> toLowerCase s = toLowerCase t.
Proof.
  split.
  - induction 1 as [|c d s t Hcd _ IH]; [reflexivity|].
    simpl. apply same_letter_lower in Hcd. now rewrite Hcd, IH.
  - revert t; induction s as [|c s IH]; intros [|d t] H; try discriminate.
    + constructor.
    + simpl in H. injection H as Hc H. constructor.
      * now apply same_letter_lower.
      * now apply IH.
Qed.

(** Searching the lowercased message is searching the message with the
    case ignored. *)
Lemma includes_lower_caseless (m needle : string) :
  includes (toLowerCase m) (toLowerCase needle) = true <->
  contains_caseless m needle.
Proof.
  rewrite includes_contains. unfold contains, contains_caseless. split.
  - intros [pre [post H]].
    apply toLowerCase_split in H. destruct H as [m1 [m2 [-> [H1 H2]]]].
    apply toLowerCase_split in H2. destruct H2 as [m3 [m4 [-> [H3 H4]]]].
    exists m1, m3, m4. split; [reflexivity | now apply caseless_eq_lower].
  - intros [pre [mid [post [-> H]]]]. apply caseless_eq_lower in H.
    exists (toLowerCase pre), (toLowerCase post).
    now rewrite !toLowerCase_app, H.
Qed.

(** A character that is no letter has one case only. *)
Lemma same_letter_caseless_char (c d : ascii) :
  is_upper d = false -> is_lower d = false -> same_letter c d -> c = d.
Proof.
  intros Ud Ld [H | [[H1 H2] | [H1 H2]]]; [assumption | | congruence].
  exfalso. apply is_upper_range in H1.
  unfold is_lower in Ld. apply andb_false_iff in Ld.
  rewrite !N.leb_gt in Ld. lia.
Qed.

Lemma caseless_eq_429 (mid : string) : caseless_eq mid "429" <-> mid = "429".
Proof.
  split.
  - intros H.
    repeat match goal with
    | H : caseless_eq _ (String _ _) |- _ =>
      inversion H; subst; clear H
    | H : caseless_eq _ EmptyString |- _ =>
      inversion H; subst; clear H
    | H : same_letter _ _ |- _ =>
      apply same_letter_caseless_char in H; [subst | reflexivity | reflexivity]
    end.
    reflexivity.
  - intros ->. repeat constructor.
Qed.

Lemma includes_429_caseless (m : string) :
  includes m "429" = true <-> contains_caseless m "429".
Proof.
  rewrite includes_contains. unfold contains, contains_caseless. split.
  - intros [pre [post ->]]. exists pre, "429", post.
    split; [reflexivity | now apply caseless_eq_429].
  - intros [pre [mid [post [-> H]]]]. apply caseless_eq_429 in H. subst mid.
    now exists pre, post.
Qed.

(** ** The error classification *)

Lemma strict_eq_num_spec (v : JsVal) (n : Z) :
  strict_eq_num v n = true <-> is_number v n.
Proof.
  unfold is_number. destruct v; simpl;
    try (split; [discriminate | intros [q' [E _]]; discriminate]).
  rewrite Qeq_bool_iff. split.
  - intros H. now exists q.
  - intros [q' [E H]]. injection E as ->. exact H.
Qed.

Lemma strict_eq_str_spec (v : JsVal) (s : string) :
  strict_eq_str v s = true <-> v = JStr s.
Proof.
  destruct v; simpl; try (split; discriminate).
  rewrite String.eqb_eq. split; [now intros -> | now intros [= ->]].
Qed.

Lemma message_and_spec (e : JsError) (test : string -> bool) (P : string -> Prop) :
  (forall m, test m = true <-> P m) ->
  test "" = false ->
  message_and e test = true <-> message_has e P.
Proof.
  intros Htest Hempty. unfold message_and, message_has.
  destruct (message e) as [m|].
  - destruct (String.eqb_spec m "") as [->|Hne]; simpl.
    + split; [discriminate|]. intros [m' [[= <-] HP]].
      apply Htest in HP. congruence.
    + rewrite Htest. split.
      * intros HP. now exists m.
      * now intros [m' [[= <-] HP]].
  - split; [discriminate | now intros [m [E _]]].
Qed.

Lemma isRateLimitError_spec (e : JsError) :
  isRateLimitError e = true <-> spec_rateLimited e.
Proof.
  unfold isRateLimitError, spec_rateLimited.
  rewrite !orb_true_iff, !strict_eq_num_spec, strict_eq_str_spec.
  rewrite (message_and_spec e _
             (fun m => contains_caseless m "429" \/ contains_caseless m "quota" \/
                       contains_caseless m "exhausted")).
  - tauto.
  - intros m. rewrite !orb_true_iff, includes_429_caseless.
    rewrite <- (includes_lower_caseless m "quota").
    rewrite <- (includes_lower_caseless m "exhausted"). simpl toLowerCase at 2 4.
    tauto.
  - reflexivity.
Qed.

Lemma isNetworkError_spec (e : JsError) :
  isNetworkError e = true <->
  message_has e (fun m =>
    contains m "xhr" \/ contains m "fetch" \/ contains m "network" \/
    contains m "Failed to fetch").
Proof.
  unfold isNetworkError. apply message_and_spec.
  - intros m. rewrite !orb_true_iff, !includes_contains. tauto.
  - reflexivity.
Qed.

Lemma isServerError_spec (e : JsError) :
  isServerError e = true <->
  is_number (code e) 500 \/ is_number (code e) 503 \/
  is_number (status e) 500 \/ is_number (status e) 503.
Proof.
  unfold isServerError. rewrite !orb_true_iff, !strict_eq_num_spec. tauto.
Qed.

Lemma isRpcError_spec (e : JsError) :
  isRpcError e = true <-> message_has e (fun m => contains m "error code: 6").
Proof.
  unfold isRpcError. apply message_and_spec.
  - intros m. apply includes_contains.
  - reflexivity.
Qed.

Lemma retryable_spec (e : JsError) :
  isNetworkError e || isServerError e || isRpcError e = true <->
  spec_transient e.
Proof.
  unfold spec_transient.
  rewrite !orb_true_iff, isNetworkError_spec, isServerError_spec, isRpcError_spec.
  tauto.
Qed.

(** C4.  The branch taken for a failure is the rate-limit one exactly when
    its code or status is 429, its status is RESOURCE_EXHAUSTED, or its
    message contains 429, quota or exhausted in any case; it is the
    transient one exactly when it is not the rate-limit one and the
    message contains xhr, fetch, network or Failed to fetch, the code or
    status is 500 or 503, or the message contains error code: 6; it is
    the fatal one in every other case. *)
Theorem classification_matches_spec (e : JsError) :
  (classify e = RateLimited <-> spec_rateLimited e) /\
  (classify e = Transient <-> ~ spec_rateLimited e /\ spec_transient e) /\
  (classify e = Fatal <-> ~ spec_rateLimited e /\ ~ spec_transient e).
Proof.
  unfold classify.
  rewrite <- isRateLimitError_spec, <- retryable_spec.
  destruct (isRateLimitError e);
    destruct (isNetworkError e || isServerError e || isRpcError e);
    repeat split; intros; try discriminate; try tauto; try congruence;
    try (intros X; discriminate).
  all: try (destruct H; congruence).
Qed.

(** ** [retryOperation] *)

Lemma classify_cases (e : JsError) :
  (classify e = RateLimited /\ isRateLimitError e = true) \/
  (classify e = Transient /\ isRateLimitError e = false /\
   isNetworkError e || isServerError e || isRpcError e = true) \/
  (classify e = Fatal /\ isRateLimitError e = false /\
   isNetworkError e || isServerError e || isRpcError e = false).
Proof.
  unfold classify. destruct (isRateLimitError e); [now left|].
  destruct (isNetworkError e || isServerError e || isRpcError e); tauto.
Qed.

Lemma attempts_attempt {T : Type} (r d : Z) (o : Outcome T) tl :
  attempts (Attempt r d o :: tl) = o :: attempts tl.
Proof. reflexivity. Qed.

Lemma attempts_wait {T : Type} why ms (tl : list (RetryEvent T)) :
  attempts (Wait why ms :: tl) = attempts tl.
Proof. reflexivity. Qed.

Lemma chain_head {T : Type} rnd retries delay (tl : list (RetryEvent T)) :
  backoff_chain rnd retries delay tl ->
  exists o rest, tl = Attempt retries delay o :: rest.
Proof. intros H; inversion H; subst; eauto. Qed.

(** In a chain, a retryable failure with retries left is followed by the
    wait of its branch and by the next attempt, made with one retry less
    and twice the delay. *)
Lemma chain_step {T : Type} rnd retries delay (tl : list (RetryEvent T)) :
  backoff_chain rnd retries delay tl ->
  forall pre r d e post,
    tl = pre ++ Attempt r d (Rejected e) :: post ->
    0 < r ->
    classify e <> Fatal ->
    exists ms o post',
      post = Wait (classify e) ms :: Attempt (r - 1) (d * 2) o :: post' /\
      (classify e = Transient -> ms = inject_Z d) /\
      (classify e = RateLimited -> exists k, ms = (5000 + rnd k * 3000)%Q).
Proof.
  induction 1 as [retries delay o Hend
                 | retries delay e0 k rest Hr Hc Hchain IH
                 | retries delay e0 rest Hr Hc Hchain IH];
    intros pre r d e post Heq Hpos Hnf.
  - destruct pre as [|x pre]; simpl in Heq.
    + injection Heq as -> -> ->. destruct Hend; [lia | contradiction].
    + injection Heq as _ Heq. now destruct pre.
  - destruct pre as [|x pre]; simpl in Heq.
    + injection Heq as <- <- <- <-.
      destruct (chain_head _ _ _ _ Hchain) as [o [rest' ->]].
      rewrite Hc. exists (5000 + rnd k * 3000)%Q, o, rest'.
      repeat split; [discriminate | now exists k].
    + injection Heq as _ Heq. destruct pre as [|y pre]; [discriminate|].
      injection Heq as _ Heq. now apply (IH pre).
  - destruct pre as [|x pre]; simpl in Heq.
    + injection Heq as <- <- <- <-.
      destruct (chain_head _ _ _ _ Hchain) as [o [rest' ->]].
      rewrite Hc. exists (inject_Z delay), o, rest'.
      repeat split; discriminate.
    + injection Heq as _ Heq. destruct pre as [|y pre]; [discriminate|].
      injection Heq as _ Heq. now apply (IH pre).
Qed.

(** A chain whose attempts all fail in a retryable way uses the whole
    budget. *)
Lemma chain_exhausts {T : Type} rnd retries delay (tl : list (RetryEvent T)) :
  backoff_chain rnd retries delay tl ->
  0 <= retries ->
  (forall o, In o (attempts tl) -> exists e, o = Rejected e /\ classify e <> Fatal) ->
  List.length (attempts tl) = S (Z.to_nat retries).
Proof.
  induction 1 as [retries delay o Hend
                 | retries delay e0 k rest Hr Hc Hchain IH
                 | retries delay e0 rest Hr Hc Hchain IH];
    intros Hpos Hall.
  - destruct (Hall o) as [e [-> Hnf]]; [now left|].
    destruct Hend; [|contradiction].
    replace retries with 0 by lia. reflexivity.
  - rewrite attempts_attempt, attempts_wait. cbn [List.length].
    rewrite IH; [lia | lia |].
    intros o Ho. apply Hall. rewrite attempts_attempt, attempts_wait. now right.
  - rewrite attempts_attempt, attempts_wait. cbn [List.length].
    rewrite IH; [lia | lia |].
    intros o Ho. apply Hall. rewrite attempts_attempt, attempts_wait. now right.
Qed.

Section RetryFacts.
Context {T : Type}.
Variable operation : nat -> Outcome T.
Variable Math_random : nat -> Q.

(** With one unit of fuel per remaining retry and one more, the call
    returns: its result is the outcome of the last invocation of the
    operation, and the timeline has grown by a chain. *)
Lemma retryOperation_fuel_run (fuel : nat) :
  forall (retries delay : Z) (st : RetryState T),
    (Z.to_nat retries < fuel)%nat ->
    exists st' tl,
      retryOperation_fuel operation Math_random fuel retries delay st
        = (Some (operation (pred (calls st'))), st') /\
      (calls st < calls st')%nat /\
      timeline st' = timeline st ++ tl /\
      backoff_chain Math_random retries delay tl /\
      attempts tl = map operation (seq (calls st) (calls st' - calls st)).
Proof.
  induction fuel as [|fuel IH]; intros retries delay st Hfuel; [lia|].
  cbn [retryOperation_fuel]. unfold bind at 1. unfold attempt at 1.
  set (st1 := mkRetryState (S (calls st)) (draws st)
                (timeline st ++ [Attempt retries delay (operation (calls st))])).
  assert (Hend : ends_call retries (operation (calls st)) ->
    exists st' tl,
      (Some (operation (calls st)), st1)
        = (Some (operation (pred (calls st'))), st') /\
      (calls st < calls st')%nat /\
      timeline st' = timeline st ++ tl /\
      backoff_chain Math_random retries delay tl /\
      attempts tl = map operation (seq (calls st) (calls st' - calls st))).
  { intros He. exists st1, [Attempt retries delay (operation (calls st))].
    subst st1; cbn [calls timeline pred]. repeat split; try lia.
    - now constructor.
    - replace (S (calls st) - calls st)%nat with 1%nat by lia. reflexivity. }
  subst st1.
  destruct (operation (calls st)) as [v|error] eqn:Hop.
  - unfold ret. apply Hend. exact I.
  - destruct (Z.leb_spec retries 0) as [Hr|Hr].
    + unfold ret. apply Hend. now left.
    + destruct (classify_cases error) as [[Hc Hrl] | [[Hc [Hrl Htr]] | [Hc [Hrl Htr]]]];
        rewrite Hrl; try rewrite Htr.
      * unfold bind at 1, random at 1, bind at 1, wait at 1.
        cbn [calls draws timeline].
        match goal with |- context [retryOperation_fuel _ _ _ _ _ ?s] =>
          destruct (IH (retries - 1) (delay * 2) s) as
            [st' [tl [Hrun [Hcalls [Htl [Hchain Hatt]]]]]]; [lia|] end.
        cbn [calls timeline] in Hcalls, Htl, Hatt.
        exists st', (Attempt retries delay (Rejected error)
                     :: Wait RateLimited (5000 + Math_random (draws st) * 3000)%Q
                     :: tl).
        repeat split; try assumption; try lia.
        -- rewrite Htl. now rewrite <- !app_assoc.
        -- now constructor.
        -- rewrite attempts_attempt, attempts_wait, Hatt, <- Hop.
           replace (calls st' - calls st)%nat with (S (calls st' - S (calls st)))
             by lia.
           reflexivity.
      * unfold bind at 1, wait at 1. cbn [calls draws timeline].
        match goal with |- context [retryOperation_fuel _ _ _ _ _ ?s] =>
          destruct (IH (retries - 1) (delay * 2) s) as
            [st' [tl [Hrun [Hcalls [Htl [Hchain Hatt]]]]]]; [lia|] end.
        cbn [calls timeline] in Hcalls, Htl, Hatt.
        exists st', (Attempt retries delay (Rejected error)
                     :: Wait Transient (inject_Z delay) :: tl).
        repeat split; try assumption; try lia.
        -- rewrite Htl. now rewrite <- !app_assoc.
        -- now constructor.
        -- rewrite attempts_attempt, attempts_wait, Hatt, <- Hop.
           replace (calls st' - calls st)%nat with (S (calls st' - S (calls st)))
             by lia.
           reflexivity.
      * unfold ret. apply Hend. now right.
Qed.

End RetryFacts.

(** The call returns, whatever the operation does. *)
Lemma retryOperation_run {T : Type} (operation : nat -> Outcome T)
      (Math_random : nat -> Q) (retries delay : Z) :
  exists st,
    retryOperation operation Math_random retries delay retry_start
      = (Some (operation (pred (calls st))), st) /\
    (0 < calls st)%nat /\
    backoff_chain Math_random retries delay (timeline st) /\
    attempts (timeline st) = map operation (seq 0 (calls st)).
Proof.
  destruct (retryOperation_fuel_run operation Math_random
              (S (Z.to_nat retries)) retries delay retry_start)
    as [st [tl [Hrun [Hcalls [Htl [Hchain Hatt]]]]]]; [lia|].
  exists st. cbn [retry_start calls timeline app] in *.
  rewrite Nat.sub_0_r in Hatt. subst tl. now repeat split.
Qed.

Lemma chain_rate_waits {T : Type} rnd retries delay (tl : list (RetryEvent T)) :
  backoff_chain rnd retries delay tl ->
  forall ms, In (Wait RateLimited ms) tl ->
  exists k, ms = (5000 + rnd k * 3000)%Q.
Proof.
  induction 1 as [retries delay o Hend
                 | retries delay e0 k rest Hr Hc Hchain IH
                 | retries delay e0 rest Hr Hc Hchain IH];
    intros ms Hin.
  - destruct Hin as [Hin | []]. discriminate.
  - destruct Hin as [Hin | [Hin | Hin]]; [discriminate | | now apply IH].
    injection Hin as <-. now exists k.
  - destruct Hin as [Hin | [Hin | Hin]]; [discriminate | discriminate | now apply IH].
Qed.

Lemma rate_wait_window (x : Q) :
  (0 <= x)%Q -> (x < 1)%Q ->
  (5000 <= 5000 + x * 3000)%Q /\ (5000 + x * 3000 <= 8000)%Q.
Proof. intros H0 H1. split; lra. Qed.

Lemma waits_of_app {T : Type} why (a b : list (RetryEvent T)) :
  waits_of why (a ++ b) = waits_of why a ++ waits_of why b.
Proof. apply flat_map_app. Qed.

(** One level of the recursion, with the state written out. *)
Lemma retryOperation_fuel_S {T : Type} (operation : nat -> Outcome T)
      (Math_random : nat -> Q) (fuel : nat) (retries delay : Z)
      (st : RetryState T) :
  retryOperation_fuel operation Math_random (S fuel) retries delay st =
  let o := operation (calls st) in
  let tl := timeline st ++ [Attempt retries delay o] in
  let done := (Some o, mkRetryState (S (calls st)) (draws st) tl) in
  match o with
  | Fulfilled _ => done
  | Rejected error =>
    if retries <=? 0 then done
    else if isRateLimitError error then
      retryOperation_fuel operation Math_random fuel (retries - 1) (delay * 2)
        (mkRetryState (S (calls st)) (S (draws st))
           (tl ++ [Wait RateLimited (5000 + Math_random (draws st) * 3000)%Q]))
    else if isNetworkError error || isServerError error || isRpcError error then
      retryOperation_fuel operation Math_random fuel (retries - 1) (delay * 2)
        (mkRetryState (S (calls st)) (draws st)
           (tl ++ [Wait Transient (inject_Z delay)]))
    else done
  end.
Proof.
  cbn [retryOperation_fuel]. unfold bind at 1, attempt at 1. cbv zeta.
  destruct (operation (calls st)) as [v|error]; [reflexivity|].
  destruct (retries <=? 0); [reflexivity|].
  destruct (isRateLimitError error); [reflexivity|].
  destruct (isNetworkError error || isServerError error || isRpcError error);
    reflexivity.
Qed.

(** Two calls that differ in the delay only go through the same attempts
    and draw the same rate-limit waits. *)
Lemma rate_waits_lockstep {T : Type} (operation : nat -> Outcome T)
      (Math_random : nat -> Q) (fuel : nat) :
  forall retries d d' (st st' : RetryState T),
    calls st = calls st' ->
    draws st = draws st' ->
    waits_of RateLimited (timeline st) = waits_of RateLimited (timeline st') ->
    forall run run',
    run = retryOperation_fuel operation Math_random fuel retries d st ->
    run' = retryOperation_fuel operation Math_random fuel retries d' st' ->
    fst run = fst run' /\
    calls (snd run) = calls (snd run') /\
    draws (snd run) = draws (snd run') /\
    waits_of RateLimited (timeline (snd run))
      = waits_of RateLimited (timeline (snd run')).
Proof.
  induction fuel as [|fuel IH]; intros retries d d' st st' Hc Hd Hw run run' -> ->.
  - cbn. now repeat split.
  - rewrite !retryOperation_fuel_S. cbv zeta. rewrite <- Hc, <- Hd.
    assert (Hdone :
      waits_of RateLimited (timeline st ++ [Attempt retries d (operation (calls st))])
      = waits_of RateLimited (timeline st' ++ [Attempt retries d' (operation (calls st))])).
    { rewrite !waits_of_app, Hw. reflexivity. }
    destruct (operation (calls st)) as [v|error].
    + cbn [fst snd calls draws timeline]. now repeat split.
    + destruct (retries <=? 0).
      * cbn [fst snd calls draws timeline]. now repeat split.
      * destruct (isRateLimitError error).
        -- eapply IH; [| | | reflexivity | reflexivity];
             cbn [calls draws timeline]; try reflexivity.
           rewrite !waits_of_app, Hw. reflexivity.
        -- destruct (isNetworkError error || isServerError error || isRpcError error).
           ++ eapply IH; [| | | reflexivity | reflexivity];
                cbn [calls draws timeline]; try reflexivity.
              rewrite !waits_of_app, Hw. reflexivity.
           ++ cbn [fst snd calls draws timeline]. now repeat split.
Qed.

Lemma waits_attempt {T : Type} (r d : Z) (o : Outcome T) tl :
  waits (Attempt r d o :: tl) = waits tl.
Proof. reflexivity. Qed.

Lemma waits_wait {T : Type} why ms (tl : list (RetryEvent T)) :
  waits (Wait why ms :: tl) = ms :: waits tl.
Proof. reflexivity. Qed.

(** The delays [delay], [2 delay], [4 delay], ... of [n] waits. *)
Lemma doubling_shift (delay : Z) (n : nat) :
  map (fun i => inject_Z (delay * 2 ^ Z.of_nat i)) (seq 1 n)
  = map (fun i => inject_Z (delay * 2 * 2 ^ Z.of_nat i)) (seq 0 n).
Proof.
  rewrite <- seq_shift, map_map. apply map_ext. intros i.
  rewrite Nat2Z.inj_succ, Z.pow_succ_r by lia. f_equal. ring.
Qed.

Lemma chain_all_transient {T : Type} rnd retries delay (tl : list (RetryEvent T)) :
  backoff_chain rnd retries delay tl ->
  0 <= retries ->
  (forall o, In o (attempts tl) ->
             exists e, o = Rejected e /\ classify e = Transient) ->
  waits tl = map (fun i => inject_Z (delay * 2 ^ Z.of_nat i))
                 (seq 0 (Z.to_nat retries)).
Proof.
  induction 1 as [retries delay o Hend
                 | retries delay e0 k rest Hr Hc Hchain IH
                 | retries delay e0 rest Hr Hc Hchain IH];
    intros Hpos Hall.
  - destruct (Hall o) as [e [-> Hnf]]; [now left|].
    destruct Hend as [Hend | Hend]; [|congruence].
    replace retries with 0 by lia. reflexivity.
  - destruct (Hall (Rejected e0)) as [e [[= <-] Hnf]]; [now left | congruence].
  - rewrite waits_attempt, waits_wait, IH; [| lia |].
    + replace (Z.to_nat retries) with (S (Z.to_nat (retries - 1))) by lia.
      cbn [seq map]. rewrite doubling_shift. f_equal.
      f_equal. simpl. ring.
    + intros o Ho. apply Hall. rewrite attempts_attempt, attempts_wait. now right.
Qed.

(** A run in which every attempt fails in a retryable way makes one
    attempt more than it has retries and ends with the last failure. *)
Lemma retry_uses_whole_budget {T : Type} (operation : nat -> Outcome T)
      (Math_random : nat -> Q) (retries delay : Z) :
  (forall k, exists e, operation k = Rejected e /\ classify e <> Fatal) ->
  0 <= retries ->
  exists e st,
    retryOperation operation Math_random retries delay retry_start
      = (Some (Rejected e), st) /\
    calls st = S (Z.to_nat retries) /\
    operation (Z.to_nat retries) = Rejected e /\
    attempts (timeline st) = map operation (seq 0 (S (Z.to_nat retries))).
Proof.
  intros Hfail Hpos.
  destruct (retryOperation_run operation Math_random retries delay)
    as [st [Hrun [Hcalls [Hchain Hatt]]]].
  assert (Hn : calls st = S (Z.to_nat retries)).
  { rewrite <- (chain_exhausts _ _ _ _ Hchain Hpos).
    - now rewrite Hatt, length_map, length_seq.
    - intros o Ho. rewrite Hatt in Ho. apply in_map_iff in Ho.
      destruct Ho as [k [<- _]]. apply Hfail. }
  destruct (Hfail (Z.to_nat retries)) as [e [He _]].
  exists e, st. rewrite Hrun, Hn in *. cbn [pred]. rewrite He.
  now repeat split.
Qed.

(** C3.  When every invocation of the operation fails with a retryable
    classification, [retryOperation] with its default budget of 2 retries
    invokes the operation exactly 3 times and then rejects with the error
    of the third invocation; with any budget [retries >= 0] it invokes it
    [retries + 1] times and rejects with the last error. *)
Theorem retry_bound {T : Type} (operation : nat -> Outcome T)
        (Math_random : nat -> Q) :
  (forall k, exists e, operation k = Rejected e /\ classify e <> Fatal) ->
  (exists e st,
     retryOperation_default operation Math_random retry_start
       = (Some (Rejected e), st) /\
     calls st = 3%nat /\
     operation 2%nat = Rejected e /\
     attempts (timeline st)
       = [operation 0%nat; operation 1%nat; operation 2%nat]) /\
  (forall retries delay, 0 <= retries ->
     exists e st,
       retryOperation operation Math_random retries delay retry_start
         = (Some (Rejected e), st) /\
       calls st = S (Z.to_nat retries) /\
       operation (Z.to_nat retries) = Rejected e).
Proof.
  intros Hfail. split.
  - destruct (retry_uses_whole_budget operation Math_random 2 2000 Hfail)
      as [e [st [Hrun [Hcalls [Hlast Hatt]]]]]; [lia|].
    exists e, st. now repeat split.
  - intros retries delay Hpos.
    destruct (retry_uses_whole_budget operation Math_random retries delay Hfail Hpos)
      as [e [st [Hrun [Hcalls [Hlast _]]]]].
    now exists e, st.
Qed.

Lemma retry_bound_witness :
  exists e st,
    retryOperation_default always_500 half retry_start = (Some (Rejected e), st) /\
    calls st = 3%nat /\
    always_500 2%nat = Rejected e /\
    attempts (timeline st) = [always_500 0%nat; always_500 1%nat; always_500 2%nat].
Proof.
  apply (retry_bound always_500 half).
  intros k. exists error_500. split; [reflexivity | vm_compute; discriminate].
Defined.

(** C5.  A failure classified fatal is rethrown at once: whatever the
    number of retries left, the call ends with that error after this one
    invocation, without a wait and without a draw; a call whose first
    failure is fatal has invoked the operation exactly once. *)
Theorem fatal_fails_fast {T : Type} (operation : nat -> Outcome T)
        (Math_random : nat -> Q) (retries delay : Z) (e : JsError) :
  classify e = Fatal ->
  (forall fuel st,
     operation (calls st) = Rejected e ->
     retryOperation_fuel operation Math_random (S fuel) retries delay st
       = (Some (Rejected e),
          mkRetryState (S (calls st)) (draws st)
                       (timeline st ++ [Attempt retries delay (Rejected e)]))) /\
  (operation 0%nat = Rejected e ->
   retryOperation operation Math_random retries delay retry_start
     = (Some (Rejected e),
        mkRetryState 1 0 [Attempt retries delay (Rejected e)])).
Proof.
  intros Hfatal.
  assert (Hstep : forall fuel st,
     operation (calls st) = Rejected e ->
     retryOperation_fuel operation Math_random (S fuel) retries delay st
       = (Some (Rejected e),
          mkRetryState (S (calls st)) (draws st)
                       (timeline st ++ [Attempt retries delay (Rejected e)]))).
  { intros fuel st Hop. rewrite retryOperation_fuel_S. cbv zeta. rewrite Hop.
    destruct (classify_cases e) as [[Hc _] | [[Hc _] | [_ [Hrl Htr]]]];
      try congruence.
    rewrite Hrl, Htr. now destruct (retries <=? 0). }
  split; [exact Hstep|].
  intros Hop. unfold retryOperation. now rewrite Hstep.
Qed.

Lemma fatal_fails_fast_witness :
  retryOperation always_invalid half 2 2000 retry_start
    = (Some (Rejected error_schema),
       mkRetryState 1 0 [Attempt 2 2000 (Rejected error_schema)]).
Proof.
  apply (fatal_fails_fast always_invalid half 2 2000 error_schema);
    reflexivity.
Defined.

Lemma retryOperation_timeline {T : Type} (operation : nat -> Outcome T)
      (Math_random : nat -> Q) (retries delay : Z) :
  backoff_chain Math_random retries delay
    (timeline (snd (retryOperation operation Math_random retries delay retry_start))) /\
  attempts (timeline (snd (retryOperation operation Math_random retries delay retry_start)))
  = map operation
        (seq 0 (calls (snd (retryOperation operation Math_random retries delay
                                           retry_start)))).
Proof.
  destruct (retryOperation_run operation Math_random retries delay)
    as [st [Hrun [_ [Hchain Hatt]]]].
  rewrite Hrun. now split.
Qed.

(** C6.  With [Math.random()] in [0, 1): a failure classified rate-limited
    with retries left is followed by a wait between 5000 and 8000 ms and
    then by the next attempt, made with twice the delay; every rate-limit
    wait of the timeline is in that window; and the rate-limit waits are
    the same whatever delay the call was given. *)
Theorem rate_limit_backoff {T : Type} (operation : nat -> Outcome T)
        (Math_random : nat -> Q) (retries delay : Z) :
  (forall k, (0 <= Math_random k)%Q /\ (Math_random k < 1)%Q) ->
  let tl := timeline (snd (retryOperation operation Math_random retries delay
                                          retry_start)) in
  (forall pre r d e post,
     tl = pre ++ Attempt r d (Rejected e) :: post ->
     classify e = RateLimited ->
     0 < r ->
     exists ms o post',
       post = Wait RateLimited ms :: Attempt (r - 1) (d * 2) o :: post' /\
       (5000 <= ms)%Q /\ (ms <= 8000)%Q) /\
  (forall ms, In (Wait RateLimited ms) tl -> (5000 <= ms)%Q /\ (ms <= 8000)%Q) /\
  (forall delay',
     waits_of RateLimited
       (timeline (snd (retryOperation operation Math_random retries delay'
                                      retry_start)))
     = waits_of RateLimited tl).
Proof.
  intros Hrnd tl.
  destruct (retryOperation_timeline operation Math_random retries delay)
    as [Hchain _]. fold tl in Hchain.
  split; [|split].
  - intros pre r d e post Htl Hc Hr.
    destruct (chain_step _ _ _ _ Hchain pre r d e post Htl) as
      [ms [o [post' [-> [_ Hms]]]]]; [assumption | congruence |].
    destruct (Hms Hc) as [k ->]. rewrite Hc.
    exists (5000 + Math_random k * 3000)%Q, o, post'.
    split; [reflexivity|]. apply rate_wait_window; apply Hrnd.
  - intros ms Hin.
    destruct (chain_rate_waits _ _ _ _ Hchain ms Hin) as [k ->].
    apply rate_wait_window; apply Hrnd.
  - intros delay'. subst tl. unfold retryOperation.
    eapply (rate_waits_lockstep operation Math_random _ retries delay' delay
              retry_start retry_start); reflexivity.
Qed.

Lemma rate_limit_backoff_witness :
  exists ms o post',
    [Wait RateLimited (5000 + (1 # 2) * 3000)%Q;
     Attempt 1 4000 (Rejected error_429);
     Wait RateLimited (5000 + (1 # 2) * 3000)%Q;
     Attempt 0 8000 (Fulfilled (JStr "ok"))]
    = Wait RateLimited ms :: Attempt (2 - 1) (2000 * 2) o :: post' /\
    (5000 <= ms)%Q /\ (ms <= 8000)%Q.
Proof.
  apply (proj1 (rate_limit_backoff twice_429 half 2 2000
                  (fun k => conj (ltac:(discriminate) : (0 <= half k)%Q)
                                 (eq_refl : (half k < 1)%Q)))
               [] 2 2000 error_429).
  - reflexivity.
  - reflexivity.
  - reflexivity.
Defined.

(** C7.  The first attempt is made with the delay the caller gave.  A
    failure classified transient with retries left is followed by a wait
    of exactly the current delay and then by the next attempt, made with
    twice that delay.  When every attempt fails that way the waits are
    [delay], [2 delay], [4 delay], ... one per retry. *)
Theorem transient_backoff {T : Type} (operation : nat -> Outcome T)
        (Math_random : nat -> Q) (retries delay : Z) :
  let tl := timeline (snd (retryOperation operation Math_random retries delay
                                          retry_start)) in
  (exists o rest, tl = Attempt retries delay o :: rest) /\
  (forall pre r d e post,
     tl = pre ++ Attempt r d (Rejected e) :: post ->
     classify e = Transient ->
     0 < r ->
     exists o post',
       post = Wait Transient (inject_Z d) :: Attempt (r - 1) (d * 2) o :: post') /\
  (0 <= retries ->
   (forall k, exists e, operation k = Rejected e /\ classify e = Transient) ->
   waits tl = map (fun i => inject_Z (delay * 2 ^ Z.of_nat i))
                  (seq 0 (Z.to_nat retries))).
Proof.
  intros tl.
  destruct (retryOperation_timeline operation Math_random retries delay)
    as [Hchain Hatt]. fold tl in Hchain, Hatt.
  split; [|split].
  - now apply chain_head with (rnd := Math_random).
  - intros pre r d e post Htl Hc Hr.
    destruct (chain_step _ _ _ _ Hchain pre r d e post Htl) as
      [ms [o [post' [-> [Hms _]]]]]; [assumption | congruence |].
    rewrite (Hms Hc), Hc. now exists o, post'.
  - intros Hpos Hfail. apply (chain_all_transient _ _ _ _ Hchain Hpos).
    intros o Ho. rewrite Hatt in Ho. apply in_map_iff in Ho.
    destruct Ho as [k [<- _]]. apply Hfail.
Qed.

Lemma transient_backoff_witness :
  waits (timeline (snd (retryOperation always_500 half 2 2000 retry_start)))
  = [inject_Z 2000; inject_Z 4000].
Proof.
  apply (proj2 (proj2 (transient_backoff always_500 half 2 2000))).
  - lia.
  - intros k. exists error_500. split; reflexivity.
Defined.

(** ** The scheduler: how invariants are carried through an execution *)

Section SchedulerFacts.
Context {T : Type}.
Variable P : World T -> Prop.

Hypothesis P_start : forall w item rest,
  P w -> queue (pq w) = item :: rest ->
  running (pq w) < concurrency (pq w) ->
  P (start_item item rest w).
Hypothesis P_insert : forall prio w, P w -> P (insert_item prio w).
Hypothesis P_settle : forall t o w w', P w -> settle t o w = Some w' -> P w'.
Hypothesis P_release : forall t w,
  P w -> mem t (finishing w) = true -> P (release t w).

Lemma run_loop_preserves (fuel : nat) : forall w, P w -> P (run_loop fuel w).
Proof.
  induction fuel as [|fuel IH]; intros w Hw; cbn [run_loop]; [assumption|].
  destruct (running (pq w) <? concurrency (pq w)) eqn:Hlt; cbn [andb];
    [|assumption].
  destruct (Z.of_nat (List.length (queue (pq w))) >? 0); [|assumption].
  destruct (queue (pq w)) as [|item rest] eqn:Hq; cbn [shift]; [now apply IH|].
  apply IH, P_start; [assumption | assumption | now apply Z.ltb_lt].
Qed.

Lemma step_preserves (w : World T) (ev : Event T) (w' : World T) :
  P w -> step w ev = Some w' -> P w'.
Proof.
  intros Hw Hstep. destruct ev as [prio | t o | t]; cbn [step] in Hstep.
  - injection Hstep as <-. apply run_loop_preserves, P_insert, Hw.
  - now apply (P_settle t o w).
  - unfold finally in Hstep. destruct (mem t (finishing w)) eqn:Hmem;
      [|discriminate].
    injection Hstep as <-. now apply run_loop_preserves, P_release.
Qed.

Lemma exec_preserves (evs : list (Event T)) :
  forall w w', P w -> exec w evs = Some w' -> P w'.
Proof.
  induction evs as [|ev evs IH]; intros w w' Hw Hexec; cbn [exec] in Hexec.
  - now injection Hexec as <-.
  - destruct (step w ev) as [w1|] eqn:Hstep; [|discriminate].
    apply (IH w1); [|assumption]. now apply (step_preserves w ev).
Qed.

End SchedulerFacts.

Lemma mem_In (t : nat) (l : list nat) : mem t l = true <-> In t l.
Proof.
  unfold mem. rewrite existsb_exists. split.
  - intros [x [Hin Heq]]. apply Nat.eqb_eq in Heq. now subst.
  - intros Hin. exists t. split; [assumption | apply Nat.eqb_refl].
Qed.

Lemma length_remove_first (t : nat) (l : list nat) :
  In t l -> S (List.length (remove_first t l)) = List.length l.
Proof.
  induction l as [|x l IH]; intros Hin; [contradiction|].
  cbn [remove_first]. destruct (Nat.eqb_spec x t) as [->|Hne]; [reflexivity|].
  destruct Hin as [Heq|Hin]; [congruence|].
  cbn [List.length]. now rewrite IH.
Qed.

(** ** The concurrency gate *)

Lemma gate_ok_new {T : Type} (c : Z) : 0 <= c -> gate_ok c (@new_World T c).
Proof.
  intros Hc. unfold gate_ok. cbn. repeat split; try lia.
  constructor; [lia | constructor].
Qed.

Lemma gate_ok_start {T : Type} (c : Z) (w : World T) item rest :
  gate_ok c w -> queue (pq w) = item :: rest ->
  running (pq w) < concurrency (pq w) ->
  gate_ok c (start_item item rest w).
Proof.
  intros [Hc [Hrun [Hst [Hle [Hseen Hlast]]]]] _ Hlt.
  unfold gate_ok, start_item.
  cbn [pq concurrency running started awaiting finishing finished running_seen].
  rewrite !length_app, last_last. cbn [List.length].
  repeat split; try lia.
  apply Forall_app. split; [assumption|]. constructor; [lia | constructor].
Qed.

Lemma gate_ok_insert {T : Type} (c : Z) prio (w : World T) :
  gate_ok c w -> gate_ok c (insert_item prio w).
Proof. intros H. exact H. Qed.

Lemma gate_ok_settle {T : Type} (c : Z) t o (w w' : World T) :
  gate_ok c w -> settle t o w = Some w' -> gate_ok c w'.
Proof.
  intros [Hc [Hrun [Hst [Hle [Hseen Hlast]]]]] Hsettle.
  unfold settle in Hsettle. destruct (mem t (awaiting w)) eqn:Hmem;
    [|discriminate].
  injection Hsettle as <-. apply mem_In, length_remove_first in Hmem.
  unfold gate_ok.
  cbn [pq concurrency running started awaiting finishing finished running_seen].
  rewrite !length_app. cbn [List.length].
  repeat split; try assumption; lia.
Qed.

Lemma gate_ok_release {T : Type} (c : Z) t (w : World T) :
  gate_ok c w -> mem t (finishing w) = true -> gate_ok c (release t w).
Proof.
  intros [Hc [Hrun [Hst [Hle [Hseen Hlast]]]]] Hmem.
  apply mem_In, length_remove_first in Hmem.
  unfold gate_ok, release.
  cbn [pq concurrency running started awaiting finishing finished running_seen].
  rewrite !length_app, last_last. cbn [List.length].
  repeat split; try lia.
  apply Forall_app. split; [assumption|]. constructor; [lia | constructor].
Qed.

(** C1.  In every execution of a queue made with a limit [c >= 0], every
    value the counter [running] has had is between 0 and [c], the counter
    is its last recorded value, and it is the number of items started
    minus the number of [finally] callbacks run. *)
Theorem concurrency_bound {T : Type} (c : Z) (evs : list (Event T)) (w : World T) :
  0 <= c ->
  exec (new_World c) evs = Some w ->
  Forall (fun r => 0 <= r <= c) (running_seen w) /\
  last (running_seen w) 0 = running (pq w) /\
  0 <= running (pq w) <= c /\
  running (pq w)
    = Z.of_nat (List.length (started w)) - Z.of_nat (List.length (finished w)).
Proof.
  intros Hc Hexec.
  assert (H : gate_ok c w).
  { apply (exec_preserves (gate_ok c)) with (evs := evs) (w := new_World c);
      eauto using gate_ok_start, gate_ok_insert, gate_ok_settle,
                  gate_ok_release, gate_ok_new. }
  destruct H as [_ [Hrun [Hst [Hle [Hseen Hlast]]]]].
  repeat split; try assumption; lia.
Qed.

Lemma concurrency_bound_witness :
  Forall (fun r => 0 <= r <= 1) [0; 1; 0; 1] /\
  last [0; 1; 0; 1] 0 = 1 /\
  0 <= 1 <= 1 /\
  1 = Z.of_nat 2 - Z.of_nat 1.
Proof.
  apply (concurrency_bound 1
           [Add false; Add true; Settle 0%nat (Fulfilled tt); Finally 0%nat]
           (mkWorld (mkQueue [] 1 1)
                    [mkItem 0 false; mkItem 1 true]
                    [mkItem 0 false; mkItem 1 true]
                    [1%nat] [] [0%nat] [(0%nat, Resolve tt)] [0; 1; 0; 1])).
  - lia.
  - reflexivity.
Defined.

(** ** Insertion by priority *)

Lemma findIndex_from_highs (hs ns : list QueueItem) :
  Forall is_high hs ->
  forall i,
    findIndex_from (fun i => negb (priority i)) i (hs ++ ns)
    = findIndex_from (fun i => negb (priority i))
                     (i + Z.of_nat (List.length hs)) ns.
Proof.
  induction 1 as [|h hs Hh _ IH]; intros i; cbn [app findIndex_from List.length].
  - now rewrite Z.add_0_r.
  - unfold is_high in Hh. rewrite Hh. cbn [negb]. rewrite IH. f_equal. lia.
Qed.

Lemma splice_insert_at (A : Type) (pre post : list A) (item : A) :
  splice_insert (pre ++ post) (Z.of_nat (List.length pre)) item
  = pre ++ item :: post.
Proof.
  unfold splice_insert.
  destruct (Z.ltb_spec (Z.of_nat (List.length pre)) 0) as [Hneg|_]; [lia|].
  rewrite length_app, Z.min_l by lia. rewrite Nat2Z.id.
  rewrite firstn_app, skipn_app, Nat.sub_diag, firstn_all, skipn_all.
  cbn [firstn skipn app]. now rewrite app_nil_r.
Qed.

(** In a partitioned queue a priority item goes between the priority
    items and the normal items. *)
Lemma enqueue_high (hs ns : list QueueItem) (item : QueueItem) :
  Forall is_high hs -> Forall is_normal ns -> priority item = true ->
  enqueue (hs ++ ns) item = hs ++ item :: ns.
Proof.
  intros Hhs Hns Hitem. unfold enqueue, findIndex. rewrite Hitem.
  rewrite (findIndex_from_highs hs ns Hhs). cbn [Z.add].
  destruct ns as [|n ns].
  - cbn [findIndex_from]. rewrite app_nil_r. reflexivity.
  - apply Forall_inv in Hns. unfold is_normal in Hns.
    cbn [findIndex_from]. rewrite Hns. cbn [negb].
    destruct (Z.eqb_spec (Z.of_nat (List.length hs)) (-1)) as [Heq|_]; [lia|].
    apply splice_insert_at.
Qed.

Lemma enqueue_normal (q : list QueueItem) (item : QueueItem) :
  priority item = false -> enqueue q item = q ++ [item].
Proof. intros H. unfold enqueue. now rewrite H. Qed.

Lemma partitioned_enqueue (q : list QueueItem) (item : QueueItem) :
  partitioned q -> partitioned (enqueue q item).
Proof.
  intros [hs [ns [-> [Hhs Hns]]]]. destruct (priority item) eqn:Hp.
  - rewrite enqueue_high by assumption.
    exists (hs ++ [item]), ns. rewrite <- app_assoc. repeat split; try assumption.
    apply Forall_app. split; [assumption | now constructor].
  - rewrite enqueue_normal by assumption.
    exists hs, (ns ++ [item]). rewrite app_assoc. repeat split; try assumption.
    apply Forall_app. split; [assumption | now constructor].
Qed.

Lemma partitioned_tail (x : QueueItem) (q : list QueueItem) :
  partitioned (x :: q) -> partitioned q.
Proof.
  intros [hs [ns [Heq [Hhs Hns]]]]. destruct hs as [|h hs].
  - cbn in Heq. subst ns. exists [], q. repeat split; [constructor|].
    now apply Forall_inv_tail in Hns.
  - injection Heq as _ ->. exists hs, ns. repeat split; [|assumption].
    now apply Forall_inv_tail in Hhs.
Qed.

Lemma queue_partitioned_reachable {T : Type} (c : Z) (evs : list (Event T))
      (w : World T) :
  exec (new_World c) evs = Some w -> partitioned (queue (pq w)).
Proof.
  apply (exec_preserves (fun w => partitioned (queue (pq w)))).
  - intros w0 item rest Hp Hq _. cbn. rewrite Hq in Hp.
    now apply partitioned_tail in Hp.
  - intros prio w0 Hp. cbn. now apply partitioned_enqueue.
  - intros t o w0 w' Hp Hs. unfold settle in Hs.
    destruct (mem t (awaiting w0)); [|discriminate]. now injection Hs as <-.
  - intros t w0 Hp _. exact Hp.
  - exists [], []. now repeat split.
Qed.

Lemma before_app_parts (A : Type) (a b : A) (l1 l2 : list A) :
  In a l1 -> In b l2 -> before a b (l1 ++ l2).
Proof.
  intros Ha Hb. apply in_split in Ha. apply in_split in Hb.
  destruct Ha as [x1 [x2 ->]]. destruct Hb as [y1 [y2 ->]].
  exists x1, (x2 ++ y1), y2. now rewrite <- !app_assoc.
Qed.

(** C2.  In every state the queue can be in, it is a run of priority
    items followed by a run of normal items; [add] puts a priority item
    between the two runs, that is at the index of the first normal item
    or at the tail when there is none, and a normal item at the tail.
    After the insertion every priority item of the queue comes before
    every normal item, and a new priority item comes after every priority
    item that was queued. *)
Theorem add_insertion {T : Type} (c : Z) (evs : list (Event T)) (w : World T)
        (prio : bool) :
  exec (new_World c) evs = Some w ->
  let q := queue (pq w) in
  let item := mkItem (List.length (submitted w)) prio in
  let q' := queue (pq (insert_item prio w)) in
  (prio = true ->
   exists hs ns,
     q = hs ++ ns /\ Forall is_high hs /\ Forall is_normal ns /\
     findIndex (fun i => negb (priority i)) q
       = (if Nat.eqb (List.length ns) 0 then -1 else Z.of_nat (List.length hs)) /\
     q' = hs ++ item :: ns) /\
  (prio = false -> q' = q ++ [item]) /\
  (forall a b, In a q' -> In b q' -> is_high a -> is_normal b -> before a b q') /\
  (prio = true -> forall a, In a q -> is_high a -> before a item q').
Proof.
  intros Hexec q item q'.
  pose proof (queue_partitioned_reachable c evs w Hexec) as Hpart.
  fold q in Hpart.
  assert (Hq' : q' = enqueue q item) by reflexivity.
  split; [|split; [|split]].
  - intros ->. destruct Hpart as [hs [ns [Hq [Hhs Hns]]]].
    exists hs, ns. repeat split; try assumption.
    + rewrite Hq. unfold findIndex. rewrite (findIndex_from_highs hs ns Hhs).
      destruct ns as [|n ns]; [reflexivity|].
      apply Forall_inv in Hns. unfold is_normal in Hns.
      cbn [findIndex_from]. rewrite Hns. reflexivity.
    + rewrite Hq', Hq. now apply enqueue_high.
  - intros ->. rewrite Hq'. now apply enqueue_normal.
  - intros a b Ha Hb Hha Hnb.
    destruct (partitioned_enqueue q item Hpart) as [hs [ns [Heq [Hhs Hns]]]].
    rewrite <- Hq' in Heq. rewrite Heq in *.
    rewrite Forall_forall in Hhs, Hns. unfold is_high, is_normal in *.
    apply in_app_or in Ha. apply in_app_or in Hb.
    destruct Ha as [Ha|Ha]; [|apply Hns in Ha; congruence].
    destruct Hb as [Hb|Hb]; [apply Hhs in Hb; congruence|].
    now apply before_app_parts.
  - intros -> a Ha Hha. destruct Hpart as [hs [ns [Hq [Hhs Hns]]]].
    rewrite Hq', Hq, enqueue_high by (assumption || reflexivity).
    rewrite Hq in Ha. apply in_app_or in Ha. destruct Ha as [Ha|Ha].
    + apply before_app_parts; [assumption | now left].
    + rewrite Forall_forall in Hns. apply Hns in Ha.
      unfold is_high, is_normal in *. congruence.
Qed.

Lemma add_insertion_witness :
  exists hs ns,
    [mkItem 1 true; mkItem 2 false] = hs ++ ns /\
    Forall is_high hs /\ Forall is_normal ns /\
    findIndex (fun i => negb (priority i)) [mkItem 1 true; mkItem 2 false]
      = (if Nat.eqb (List.length ns) 0 then -1 else Z.of_nat (List.length hs)) /\
    [mkItem 1 true; mkItem 3 true; mkItem 2 false] = hs ++ mkItem 3 true :: ns.
Proof.
  apply (proj1 (add_insertion 1
           [Add false; Add true; Add false]
           (mkWorld (mkQueue [mkItem 1 true; mkItem 2 false] 1 1)
                    [mkItem 0 false; mkItem 1 true; mkItem 2 false]
                    [mkItem 0 false]
                    [0%nat] [] [] ([] : list (nat * HandleCall unit)) [0; 1])
           true eq_refl) eq_refl).
Defined.

(** ** Order of dispatch *)

Lemma before_cons_iff (A : Type) (a b x : A) (l : list A) :
  before a b (x :: l) <-> (x = a /\ In b l) \/ before a b l.
Proof.
  unfold before. split.
  - intros [l1 [l2 [l3 Heq]]]. destruct l1 as [|y l1]; cbn [app] in Heq.
    + injection Heq as -> ->. left. split; [reflexivity|].
      apply in_or_app. right. now left.
    + injection Heq as _ ->. right. now exists l1, l2, l3.
  - intros [[-> Hin] | [l1 [l2 [l3 ->]]]].
    + apply in_split in Hin. destruct Hin as [l2 [l3 ->]]. now exists [], l2, l3.
    + now exists (x :: l1), l2, l3.
Qed.

Lemma before_In_r (A : Type) (a b : A) (l : list A) : before a b l -> In b l.
Proof.
  intros [l1 [l2 [l3 ->]]]. apply in_or_app. right. right.
  apply in_or_app. right. now left.
Qed.

Lemma before_app_r (A : Type) (a b : A) (s l : list A) :
  before a b l -> before a b (s ++ l).
Proof.
  intros [l1 [l2 [l3 ->]]]. exists (s ++ l1), l2, l3. now rewrite <- app_assoc.
Qed.

(** An element put into a list leaves the others in their order. *)
Lemma before_insert (A : Type) (a b x : A) (u v : list A) :
  before a b (u ++ v) -> before a b (u ++ x :: v).
Proof.
  induction u as [|y u IH]; cbn [app]; intros H.
  - apply before_cons_iff. now right.
  - apply before_cons_iff in H. apply before_cons_iff.
    destruct H as [[-> Hin] | H].
    + left. split; [reflexivity|]. apply in_app_or in Hin.
      apply in_or_app. destruct Hin; [now left | right; now right].
    + right. now apply IH.
Qed.

Lemma before_snoc (A : Type) (a b x : A) (l : list A) :
  before a b (l ++ [x]) -> before a b l \/ (b = x /\ In a l).
Proof.
  induction l as [|y l IH]; cbn [app]; intros H.
  - apply before_cons_iff in H. destruct H as [[_ []] | [l1 [l2 [l3 Heq]]]].
    destruct l1 as [|? [|? ?]]; discriminate.
  - apply before_cons_iff in H. destruct H as [[-> Hin] | H].
    + apply in_app_or in Hin. destruct Hin as [Hin | [-> | []]].
      * left. apply before_cons_iff. now left.
      * right. split; [reflexivity | now left].
    + destruct (IH H) as [Hb | [-> Hin]].
      * left. apply before_cons_iff. now right.
      * right. split; [reflexivity | now right].
Qed.

(** What comes before a started item was started before it. *)
Lemma before_prefix (A : Type) (a b : A) (s q : list A) :
  NoDup (s ++ q) -> before a b (s ++ q) -> In b s -> before a b s.
Proof.
  induction s as [|x s IH]; cbn [app]; intros Hnd Hbef Hin; [contradiction|].
  inversion Hnd as [|? ? Hx Hnd']; subst.
  apply before_cons_iff in Hbef. apply before_cons_iff.
  destruct Hbef as [[-> Hb] | Hbef].
  - destruct Hin as [<- | Hin]; [contradiction | now left].
  - destruct Hin as [<- | Hin].
    + apply before_In_r in Hbef. contradiction.
    + right. now apply IH.
Qed.

(** [enqueue] puts the item somewhere into the queue. *)
Lemma enqueue_inserts (q : list QueueItem) (item : QueueItem) :
  exists q1 q2, q = q1 ++ q2 /\ enqueue q item = q1 ++ item :: q2.
Proof.
  unfold enqueue, push, splice_insert.
  destruct (priority item);
    [destruct (findIndex (fun i => negb (priority i)) q =? -1)|].
  - exists q, []. now rewrite app_nil_r.
  - eexists _, _. split; [|reflexivity]. symmetry. apply firstn_skipn.
  - exists q, []. now rewrite app_nil_r.
Qed.

Lemma enqueue_permutation (q : list QueueItem) (item : QueueItem) :
  Permutation (item :: q) (enqueue q item).
Proof.
  destruct (enqueue_inserts q item) as [q1 [q2 [-> ->]]].
  apply Permutation_middle.
Qed.

Lemma line_start {T : Type} (w : World T) item rest :
  queue (pq w) = item :: rest -> line (start_item item rest w) = line w.
Proof.
  intros Hq. unfold line. cbn. rewrite Hq, <- app_assoc. reflexivity.
Qed.

Lemma line_insert {T : Type} (w : World T) prio :
  line (insert_item prio w)
  = started w ++ enqueue (queue (pq w)) (mkItem (List.length (submitted w)) prio).
Proof. reflexivity. Qed.

Lemma settle_inv {T : Type} t o (w w' : World T) :
  settle t o w = Some w' ->
  In t (awaiting w) /\
  w' = mkWorld (pq w) (submitted w) (started w)
               (remove_first t (awaiting w)) (finishing w ++ [t])
               (finished w)
               (handle_calls w ++ [(t, wrappedTask_settles o)])
               (running_seen w).
Proof.
  unfold settle. destruct (mem t (awaiting w)) eqn:Hmem; [|discriminate].
  intros [= <-]. split; [now apply mem_In | reflexivity].
Qed.

Lemma ids_ok_insert {T : Type} (w : World T) prio :
  ids_ok w -> ids_ok (insert_item prio w).
Proof.
  intros [Hnd Hlt]. unfold ids_ok. rewrite line_insert.
  set (item := mkItem (List.length (submitted w)) prio).
  assert (Hperm : Permutation (item :: line w)
                    (started w ++ enqueue (queue (pq w)) item)).
  { unfold line. rewrite Permutation_middle.
    apply Permutation_app_head, enqueue_permutation. }
  split.
  - apply (Permutation_NoDup (Permutation_map task Hperm)).
    cbn [map]. constructor; [|assumption].
    intros Hin. apply in_map_iff in Hin. destruct Hin as [x [Hx Hin]].
    apply Hlt in Hin. subst item. cbn [task] in Hx. lia.
  - intros x Hin. apply (Permutation_in _ (Permutation_sym Hperm)) in Hin.
    cbn [insert_item submitted]. rewrite length_app. cbn [List.length].
    destruct Hin as [<- | Hin]; [subst item; cbn [task]; lia|].
    apply Hlt in Hin. lia.
Qed.

Lemma order_ok_reachable {T : Type} (c : Z) (evs : list (Event T)) (w : World T) :
  exec (new_World c) evs = Some w -> order_ok w.
Proof.
  apply (exec_preserves order_ok).
  - intros w0 item rest [[Hnd Hlt] [Hpart [Hsub Hord]]] Hq _.
    unfold order_ok, ids_ok. rewrite (line_start w0 item rest Hq).
    repeat split; try assumption. cbn. rewrite Hq in Hpart.
    now apply partitioned_tail in Hpart.
  - intros prio w0 [Hids [Hpart [Hsub Hord]]].
    split; [now apply ids_ok_insert|].
    rewrite line_insert.
    set (item := mkItem (List.length (submitted w0)) prio).
    split; [now apply partitioned_enqueue|].
    destruct (enqueue_inserts (queue (pq w0)) item) as [q1 [q2 [Hq Henq]]].
    assert (Hkeep : forall x, In x (line w0) ->
                     In x (started w0 ++ enqueue (queue (pq w0)) item)).
    { intros x Hin. unfold line in Hin. apply in_app_or in Hin.
      apply in_or_app. destruct Hin as [Hin|Hin]; [now left | right].
      apply (Permutation_in _ (enqueue_permutation _ item)). now right. }
    assert (Hitem : In item (enqueue (queue (pq w0)) item)).
    { apply (Permutation_in _ (enqueue_permutation _ item)). now left. }
    split.
    + intros x Hin. cbn [insert_item submitted] in Hin.
      apply in_app_or in Hin. destruct Hin as [Hin | [<- | []]].
      * now apply Hkeep, Hsub.
      * apply in_or_app. now right.
    + intros a b Hbef Hprio. cbn [insert_item submitted] in Hbef.
      apply before_snoc in Hbef. destruct Hbef as [Hbef | [-> Hin]].
      * specialize (Hord a b Hbef Hprio). unfold line in Hord.
        rewrite Henq, app_assoc. apply before_insert.
        now rewrite <- app_assoc, <- Hq.
      * apply Hsub in Hin. unfold line in Hin. apply in_app_or in Hin.
        destruct Hin as [Hin|Hin]; [now apply before_app_parts|].
        apply before_app_r.
        destruct Hpart as [hs [ns [Hpq [Hhs Hns]]]].
        rewrite Hpq in Hin |- *. destruct prio.
        -- rewrite enqueue_high by (assumption || reflexivity).
           apply in_app_or in Hin. destruct Hin as [Hin|Hin].
           ++ apply before_app_parts; [assumption | now left].
           ++ rewrite Forall_forall in Hns. apply Hns in Hin.
              unfold is_normal in Hin. subst item. cbn in Hprio. congruence.
        -- rewrite enqueue_normal by reflexivity.
           apply before_app_parts; [assumption | now left].
  - intros t o w0 w' H Hs. apply settle_inv in Hs. destruct Hs as [_ ->].
    exact H.
  - intros t w0 H _. exact H.
  - unfold order_ok, ids_ok, line. cbn. repeat split.
    + constructor.
    + intros x [].
    + exists [], []. now repeat split.
    + intros x [].
    + intros a b [l1 [l2 [l3 Heq]]]. now destruct l1.
Qed.

(** C8.  Of two items of the same priority class, the one submitted
    first is started first: when the later one has been started, the
    earlier one was started before it. *)
Theorem fifo_within_class {T : Type} (c : Z) (evs : list (Event T)) (w : World T)
        (a b : QueueItem) :
  exec (new_World c) evs = Some w ->
  before a b (submitted w) ->
  priority a = priority b ->
  In b (started w) ->
  before a b (started w).
Proof.
  intros Hexec Hbef Hprio Hin.
  destruct (order_ok_reachable c evs w Hexec) as [[Hnd _] [_ [_ Hord]]].
  apply (before_prefix _ a b (started w) (queue (pq w))).
  - apply NoDup_map_inv with (f := task). exact Hnd.
  - now apply Hord.
  - exact Hin.
Qed.

Lemma fifo_within_class_witness :
  before (mkItem 1 false) (mkItem 2 false)
         [mkItem 0 false; mkItem 1 false; mkItem 2 false].
Proof.
  apply (fifo_within_class 1
           [Add false; Add false; Add false;
            Settle 0%nat (Fulfilled tt); Finally 0%nat;
            Settle 1%nat (Fulfilled tt); Finally 1%nat]
           (mkWorld (mkQueue [] 1 1)
                    [mkItem 0 false; mkItem 1 false; mkItem 2 false]
                    [mkItem 0 false; mkItem 1 false; mkItem 2 false]
                    [2%nat] [] [0%nat; 1%nat]
                    [(0%nat, Resolve tt); (1%nat, Resolve tt)]
                    [0; 1; 0; 1; 0; 1])).
  - reflexivity.
  - exists [mkItem 0 false], [], []. reflexivity.
  - reflexivity.
  - right. right. left. reflexivity.
Defined.

(** ** Settlement of the handles *)

Lemma In_remove_first (t x : nat) (l : list nat) :
  In x (remove_first t l) -> In x l.
Proof.
  induction l as [|y l IH]; cbn [remove_first]; [trivial|].
  destruct (Nat.eqb y t); intros H; [now right|].
  destruct H as [<- | H]; [now left | right; now apply IH].
Qed.

Lemma NoDup_remove_first (t : nat) (l : list nat) :
  NoDup l -> NoDup (remove_first t l) /\ ~ In t (remove_first t l).
Proof.
  induction 1 as [|y l Hy Hnd [IH1 IH2]]; cbn [remove_first].
  - split; [constructor | intros []].
  - destruct (Nat.eqb_spec y t) as [->|Hne]; [now split|].
    split.
    + constructor; [|assumption]. intros Hin. now apply In_remove_first in Hin.
    + intros [Heq | Hin]; [congruence | contradiction].
Qed.

Lemma calls_on_app {T : Type} t (a b : list (nat * HandleCall T)) :
  calls_on t (a ++ b) = calls_on t a ++ calls_on t b.
Proof. unfold calls_on. now rewrite filter_app, map_app. Qed.

Lemma calls_on_none {T : Type} t (hc : list (nat * HandleCall T)) :
  ~ In t (map fst hc) -> calls_on t hc = [].
Proof.
  induction hc as [|[t' c] hc IH]; intros Hnin; [reflexivity|].
  unfold calls_on in *. cbn [filter fst map] in *.
  destruct (Nat.eqb_spec t' t) as [->|Hne].
  - exfalso. apply Hnin. now left.
  - apply IH. intros Hin. apply Hnin. now right.
Qed.

Lemma calls_on_NoDup {T : Type} t (hc : list (nat * HandleCall T)) :
  NoDup (map fst hc) -> (List.length (calls_on t hc) <= 1)%nat.
Proof.
  induction hc as [|[t' c] hc IH]; intros Hnd; [cbn; lia|].
  cbn [map fst] in Hnd. inversion Hnd as [|? ? Hnin Hnd']; subst.
  change (calls_on t ((t', c) :: hc)) with (calls_on t ([(t', c)] ++ hc)).
  rewrite calls_on_app, length_app. unfold calls_on at 1. cbn [filter fst map].
  destruct (Nat.eqb_spec t' t) as [->|Hne]; cbn [map List.length].
  - rewrite (calls_on_none t hc Hnin). cbn. lia.
  - specialize (IH Hnd'). lia.
Qed.

Lemma handles_ok_start {T : Type} (w : World T) item rest :
  handles_ok w -> queue (pq w) = item :: rest ->
  handles_ok (start_item item rest w).
Proof.
  intros [[Hnd Hlt] [Haw [Hsub [Hhc Hnc]]]] Hq.
  assert (Hfresh : ~ In (task item) (map task (started w))).
  { unfold line in Hnd. rewrite Hq, map_app in Hnd. cbn [map] in Hnd.
    apply NoDup_remove_2 in Hnd. intros Hin. apply Hnd.
    apply in_or_app. now left. }
  unfold handles_ok, ids_ok. rewrite (line_start w item rest Hq).
  cbn [start_item submitted started awaiting handle_calls].
  split; [now split|]. rewrite map_app. cbn [map].
  split; [|split; [|split]].
  - apply NoDup_app; [assumption | repeat constructor; intros [] |].
    intros t Hin. intros [<- | []]. apply Hfresh. now apply Hsub.
  - intros t Hin. apply in_or_app. apply in_app_or in Hin.
    destruct Hin as [Hin | [<- | []]]; [left; now apply Hsub | right; now left].
  - intros t Hin. destruct (Hhc t Hin) as [Hst Hna]. split.
    + apply in_or_app. now left.
    + intros Hin'. apply in_app_or in Hin'.
      destruct Hin' as [Hin' | [<- | []]]; contradiction.
  - assumption.
Qed.

Lemma handles_ok_settle {T : Type} t o (w w' : World T) :
  handles_ok w -> settle t o w = Some w' ->
  handles_ok w' /\
  calls_on t (handle_calls w') = [wrappedTask_settles o] /\
  (forall t', t' <> t ->
     calls_on t' (handle_calls w') = calls_on t' (handle_calls w)) /\
  (forall t', In t' (map fst (handle_calls w)) -> t' <> t).
Proof.
  intros [Hids [Haw [Hsub [Hhc Hnc]]]] Hs.
  apply settle_inv in Hs. destruct Hs as [Hin ->].
  destruct (NoDup_remove_first t _ Haw) as [Haw' Hgone].
  assert (Hnew : ~ In t (map fst (handle_calls w))).
  { intros Hc. now apply Hhc in Hc. }
  cbn [handle_calls]. split; [|split; [|split]].
  - split; [exact Hids|]. cbn [awaiting started handle_calls].
    split; [exact Haw'|]. split; [|split].
    + intros t' Hin'. apply In_remove_first in Hin'. now apply Hsub.
    + intros t' H. rewrite map_app in H. apply in_app_or in H.
      destruct H as [H | [<- | []]].
      * destruct (Hhc t' H) as [Hst Hna]. split; [assumption|].
        intros Hin'. now apply In_remove_first in Hin'.
      * split; [now apply Hsub | assumption].
    + rewrite map_app. cbn [map fst].
      apply NoDup_app; [assumption | repeat constructor; intros [] |].
      intros t' Hin' [<- | []]. contradiction.
  - rewrite calls_on_app, (calls_on_none t _ Hnew). unfold calls_on.
    cbn [filter fst]. now rewrite Nat.eqb_refl.
  - intros t' Hne. rewrite calls_on_app. unfold calls_on at 2.
    cbn [filter fst]. destruct (Nat.eqb_spec t t'); [congruence|].
    cbn [map]. now rewrite app_nil_r.
  - intros t' Hin' ->. contradiction.
Qed.

Lemma handles_ok_reachable {T : Type} (c : Z) (evs : list (Event T)) (w : World T) :
  exec (new_World c) evs = Some w -> handles_ok w.
Proof.
  apply (exec_preserves handles_ok).
  - intros w0 item rest H Hq _. now apply handles_ok_start.
  - intros prio w0 [Hids H]. split; [now apply ids_ok_insert | exact H].
  - intros t o w0 w' H Hs. now apply (handles_ok_settle t o w0 w').
  - intros t w0 H _. exact H.
  - unfold handles_ok, ids_ok, line. cbn.
    split; [split; [apply NoDup_nil | intros x []]|].
    split; [apply NoDup_nil|]. split; [intros t []|].
    split; [intros t [] | apply NoDup_nil].
Qed.

Lemma exec_app {T : Type} (evs1 evs2 : list (Event T)) :
  forall w w', exec w (evs1 ++ evs2) = Some w' ->
  exists w1, exec w evs1 = Some w1 /\ exec w1 evs2 = Some w'.
Proof.
  induction evs1 as [|ev evs1 IH]; intros w w' H; cbn [app exec] in *.
  - now exists w.
  - destruct (step w ev) as [w0|]; [now apply IH | discriminate].
Qed.

(** Once the handle of [t] is settled, nothing calls it again. *)
Lemma settled_for_good {T : Type} (t : nat) (cs : list (HandleCall T))
      (evs : list (Event T)) (w w' : World T) :
  handles_ok w ->
  In t (map fst (handle_calls w)) ->
  calls_on t (handle_calls w) = cs ->
  exec w evs = Some w' ->
  calls_on t (handle_calls w') = cs.
Proof.
  intros Hok Hin Hcs Hexec.
  apply (exec_preserves
           (fun w0 => handles_ok w0 /\ In t (map fst (handle_calls w0)) /\
                      calls_on t (handle_calls w0) = cs))
    with (evs := evs) (w := w) (w' := w'); try assumption; try tauto.
  - intros w0 item rest [H0 [H1 H2]] Hq _.
    split; [now apply handles_ok_start | now split].
  - intros prio w0 [[Hids H0] [H1 H2]].
    split; [split; [now apply ids_ok_insert | exact H0] | now split].
  - intros t' o w0 w1 [H0 [H1 H2]] Hs.
    destruct (handles_ok_settle t' o w0 w1 H0 Hs) as [Hok1 [_ [Hother Hne]]].
    split; [exact Hok1|]. split.
    + apply settle_inv in Hs. destruct Hs as [_ ->]. cbn [handle_calls].
      rewrite map_app. apply in_or_app. now left.
    + rewrite Hother; [assumption | now apply Hne].
Qed.

(** C9.  In an execution in which the work of task [t] settles with [o],
    the handle of [t] is called exactly once: [resolve] with the result
    when [o] is a success, [reject] with the error itself when [o] is a
    failure.  No handle is ever called twice.  When the work is
    [retryOperation] around an operation, [o] is the outcome of the last
    invocation of the operation, whatever the number of attempts. *)
Theorem handle_settled_once {T : Type} (c : Z) (evs1 evs2 : list (Event T))
        (t : nat) (o : Outcome T) (w : World T) :
  exec (new_World c) (evs1 ++ Settle t o :: evs2) = Some w ->
  calls_on t (handle_calls w)
    = [match o with
       | Fulfilled result => Resolve result
       | Rejected err => Reject err
       end] /\
  (forall t', (List.length (calls_on t' (handle_calls w)) <= 1)%nat) /\
  (forall operation Math_random retries delay st,
     retryOperation operation Math_random retries delay retry_start = (Some o, st) ->
     (0 < calls st)%nat /\ o = operation (pred (calls st))).
Proof.
  intros Hexec. split; [|split].
  - apply exec_app in Hexec. destruct Hexec as [w1 [H1 H2]].
    cbn [exec step] in H2. destruct (settle t o w1) as [w2|] eqn:Hs;
      [|discriminate].
    pose proof (handles_ok_reachable c evs1 w1 H1) as Hok1.
    destruct (handles_ok_settle t o w1 w2 Hok1 Hs) as [Hok2 [Hcall _]].
    apply (settled_for_good t _ evs2 w2 w Hok2); [| exact Hcall | exact H2].
    apply settle_inv in Hs. destruct Hs as [_ ->]. cbn [handle_calls].
    rewrite map_app. apply in_or_app. right. now left.
  - intros t'. apply calls_on_NoDup.
    now destruct (handles_ok_reachable c _ w Hexec) as [_ [_ [_ [_ Hnd]]]].
  - intros operation Math_random retries delay st Hrun.
    destruct (retryOperation_run operation Math_random retries delay)
      as [st' [Hrun' [Hpos _]]].
    rewrite Hrun in Hrun'. injection Hrun' as -> ->. now split.
Qed.

Lemma handle_settled_once_witness :
  calls_on 0%nat [(0%nat, @Reject JsVal error_500)] = [Reject error_500].
Proof.
  apply (handle_settled_once 1 [Add true] [] 0%nat (Rejected error_500)
           (mkWorld (mkQueue [] 1 1) [mkItem 0 true] [mkItem 0 true]
                    [] [0%nat] [] [(0%nat, Reject error_500)] [0; 1])).
  reflexivity.
Defined.

(** No handle is called twice, and none before the work has settled. *)
Lemma handle_at_most_once {T : Type} (c : Z) (evs : list (Event T)) (w : World T)
      (t : nat) :
  exec (new_World c) evs = Some w ->
  (List.length (calls_on t (handle_calls w)) <= 1)%nat /\
  (In t (awaiting w) -> calls_on t (handle_calls w) = []).
Proof.
  intros Hexec.
  destruct (handles_ok_reachable c _ w Hexec) as [_ [_ [_ [Hhc Hnd]]]].
  split; [now apply calls_on_NoDup|].
  intros Hin. apply calls_on_none. intros Hc. now apply Hhc in Hc.
Qed.

(** ** Objects *)

Lemma obj_find_app (a b : list (string * JsVal)) (k : string) :
  obj_find (a ++ b) k
  = match obj_find b k with
    | Some v => Some v
    | None => obj_find a k
    end.
Proof.
  induction a as [|[k' v] a IH]; cbn [app obj_find].
  - now destruct (obj_find b k).
  - rewrite IH. now destruct (obj_find b k).
Qed.

Lemma obj_find_rebind (props : list (string * JsVal)) (k k0 : string) (v : JsVal) :
  obj_find (map (fun p => if String.eqb (fst p) k then (k, v) else p) props) k0
  = if String.eqb k k0
    then match obj_find props k with Some _ => Some v | None => None end
    else obj_find props k0.
Proof.
  induction props as [|[k' v'] props IH]; cbn [map obj_find fst].
  - now destruct (String.eqb k k0).
  - destruct (String.eqb_spec k' k) as [->|Hne]; cbn [obj_find]; rewrite IH;
      destruct (String.eqb_spec k k0) as [->|Hne0];
      try destruct (String.eqb_spec k' k0);
      try congruence;
      destruct (obj_find props k0); reflexivity.
Qed.

Lemma obj_find_set (props : list (string * JsVal)) (k k0 : string) (v : JsVal) :
  obj_find (obj_set props k v) k0
  = if String.eqb k k0 then Some v else obj_find props k0.
Proof.
  unfold obj_set. destruct (obj_find props k) eqn:Hk.
  - rewrite obj_find_rebind, Hk. reflexivity.
  - rewrite obj_find_app. cbn [obj_find].
    destruct (String.eqb_spec k k0) as [->|Hne]; [reflexivity|].
    reflexivity.
Qed.

Lemma obj_get_set_same (props : list (string * JsVal)) (k : string) (v : JsVal) :
  obj_get (obj_set props k v) k = v.
Proof. unfold obj_get. now rewrite obj_find_set, String.eqb_refl. Qed.

Lemma obj_get_set_other (props : list (string * JsVal)) (k k0 : string) (v : JsVal) :
  k <> k0 -> obj_get (obj_set props k v) k0 = obj_get props k0.
Proof.
  intros Hne. unfold obj_get. rewrite obj_find_set.
  now destruct (String.eqb_spec k k0).
Qed.

(** A spread copies every property of its source and keeps the others. *)
Lemma obj_find_spread (src : list (string * JsVal)) :
  forall target k,
    obj_find (fold_left (fun acc p => obj_set acc (fst p) (snd p)) src target) k
    = match obj_find src k with
      | Some v => Some v
      | None => obj_find target k
      end.
Proof.
  induction src as [|[k' v'] src IH]; intros target k; cbn [fold_left obj_find].
  - reflexivity.
  - rewrite IH. cbn [fst snd]. destruct (obj_find src k); [reflexivity|].
    rewrite obj_find_set. now destruct (String.eqb k' k).
Qed.

Lemma obj_get_spread_object (props : list (string * JsVal)) (k : string) :
  obj_get (spread [] (JObj props)) k = obj_get props k.
Proof.
  unfold obj_get, spread. cbn [own_props]. rewrite obj_find_spread.
  now destruct (obj_find props k).
Qed.

(** ** [regenerateQuestionData] *)

Lemma regenerated_fields (question newData : list (string * JsVal)) :
  field (regenerated question newData) "id" = obj_get question "id" /\
  field (regenerated question newData) "type" = obj_get question "type" /\
  field (regenerated question newData) "figure_image"
    = obj_get question "figure_image" /\
  (forall k, k <> "id" -> k <> "type" -> k <> "figure_image" ->
             field (regenerated question newData) k = obj_get newData k).
Proof.
  unfold field, regenerated. cbn [own_props]. repeat split.
  - rewrite obj_get_set_other by discriminate.
    rewrite obj_get_set_other by discriminate.
    apply obj_get_set_same.
  - rewrite obj_get_set_other by discriminate. apply obj_get_set_same.
  - apply obj_get_set_same.
  - intros k H1 H2 H3.
    rewrite !obj_get_set_other by congruence.
    apply obj_get_spread_object.
Qed.

(** C10.  When [regenerateQuestionData] returns a question, its [id],
    [type] and [figure_image] are those of the input question, whatever
    the response holds for them, and every other field is that of the
    validated data of the response of the last attempt. *)
Theorem regenerate_keeps_identity
        (String_of : JsVal -> string) (randomUUID : nat -> string)
        (TypeError_thrown : JsError)
        (question : list (string * JsVal)) (responses : nat -> Response)
        (Math_random : nat -> Q) (v : JsVal) (st : RetryState JsVal) :
  regenerateQuestionData String_of randomUUID TypeError_thrown
                         question responses Math_random
    = (Some (Fulfilled v), st) ->
  field v "id" = obj_get question "id" /\
  field v "type" = obj_get question "type" /\
  field v "figure_image" = obj_get question "figure_image" /\
  exists parsed newData,
    responses (pred (calls st)) = Parsed parsed /\
    validateAndFixData String_of randomUUID parsed (obj_get question "type")
      = Some newData /\
    forall k, k <> "id" -> k <> "type" -> k <> "figure_image" ->
              field v k = obj_get newData k.
Proof.
  unfold regenerateQuestionData, retryOperation_default. intros Hrun.
  destruct (retryOperation_run
              (fun k => regenerate_attempt String_of randomUUID TypeError_thrown
                                           question (responses k))
              Math_random 2 2000) as [st' [Hrun' _]].
  rewrite Hrun in Hrun'. injection Hrun' as Hv <-.
  unfold regenerate_attempt in Hv.
  destruct (responses (pred (calls st))) as [e | | e | parsed]; try discriminate.
  destruct (validateAndFixData String_of randomUUID parsed
                               (obj_get question "type")) as [newData|] eqn:Hval;
    [|discriminate].
  injection Hv as ->.
  destruct (regenerated_fields question newData) as [Hid [Hty [Hfig Hrest]]].
  repeat split; try assumption.
  now exists parsed, newData.
Qed.

Lemma regenerate_keeps_identity_witness :
  field regenerated_q1 "id" = JStr "q-1" /\
  field regenerated_q1 "type" = JStr "short_answer" /\
  field regenerated_q1 "figure_image" = JStr "data:image/png;base64,AAAA" /\
  field regenerated_q1 "correct_answer" = JStr "4".
Proof.
  destruct (regenerate_keeps_identity
              (fun _ => "4") (fun _ => "uuid") (Error_ "TypeError")
              question_q1 (fun _ => response_other) half
              regenerated_q1 (snd run_q1) eq_refl)
    as [Hid [Hty [Hfig _]]].
  exact (conj Hid (conj Hty (conj Hfig eq_refl))).
Defined.

(** ** The loop of [run()] ends by its own test *)

Lemma run_loop_exits {T : Type} (fuel : nat) :
  forall w : World T,
    (List.length (queue (pq w)) <= fuel)%nat ->
    let w' := run_loop fuel w in
    (running (pq w') <? concurrency (pq w'))
    && (Z.of_nat (List.length (queue (pq w'))) >? 0) = false.
Proof.
  induction fuel as [|fuel IH]; intros w Hlen; cbn [run_loop].
  - destruct (queue (pq w)); [|cbn in Hlen; lia].
    cbn. apply andb_false_r.
  - destruct ((running (pq w) <? concurrency (pq w))
              && (Z.of_nat (List.length (queue (pq w))) >? 0)) eqn:Htest;
      [|exact Htest].
    destruct (queue (pq w)) as [|item rest] eqn:Hq; cbn [shift].
    + cbn in Htest. now rewrite andb_false_r in Htest.
    + apply IH. cbn. cbn in Hlen. lia.
Qed.

Lemma run_exits {T : Type} (w : World T) :
  running (pq (run w)) >= concurrency (pq (run w)) \/ queue (pq (run w)) = [].
Proof.
  pose proof (run_loop_exits (List.length (queue (pq w))) w (Nat.le_refl _)) as H.
  cbv zeta in H. fold (run w) in H. apply andb_false_iff in H.
  destruct H as [H | H].
  - left. apply Z.ltb_ge in H. lia.
  - right. destruct (queue (pq (run w))); [reflexivity | discriminate].
Qed.

(** ** The scenarios of the specification *)

Example classify_429 :
  classify (mkError JUndefined (JNum 429) (Some "Too Many Requests")) = RateLimited.
Proof. reflexivity. Qed.

Example classify_quota_upper :
  classify (mkError JUndefined JUndefined (Some "QUOTA exceeded")) = RateLimited.
Proof. reflexivity. Qed.

Example classify_fetch :
  classify (mkError JUndefined JUndefined (Some "TypeError: Failed to fetch")) = Transient.
Proof. reflexivity. Qed.

Example classify_Network_upper :
  classify (mkError JUndefined JUndefined (Some "Network down")) = Fatal.
Proof. reflexivity. Qed.

Example classify_schema : classify error_schema = Fatal.
Proof. reflexivity. Qed.

(** 1. Normal A, B, C with nothing queued run in that order, each after
    the one before has settled. *)
Example scenario_fifo :
  option_map (fun w => (map task (started w), running_seen w))
    (exec (@new_World unit 1)
       [Add false; Add false; Add false;
        Settle 0%nat (Fulfilled tt); Finally 0%nat;
        Settle 1%nat (Fulfilled tt); Finally 1%nat;
        Settle 2%nat (Fulfilled tt); Finally 2%nat])
  = Some ([0; 1; 2]%nat, [0; 1; 0; 1; 0; 1; 0]).
Proof. reflexivity. Qed.

(** 2. Normal B then priority P submitted while A runs: P, then B. *)
Example scenario_priority :
  option_map (fun w => map task (started w))
    (exec (@new_World unit 1)
       [Add false; Add false; Add true;
        Settle 0%nat (Fulfilled tt); Finally 0%nat;
        Settle 2%nat (Fulfilled tt); Finally 2%nat])
  = Some [0; 2; 1]%nat.
Proof. reflexivity. Qed.

(** A task that is not running cannot settle. *)
Example scenario_not_started :
  exec (@new_World unit 1) [Add false; Add false; Settle 1%nat (Fulfilled tt)]
  = None.
Proof. reflexivity. Qed.

(** 3. Two failures with 429, then success: two rate-limit waits. *)
Example scenario_429 :
  let r := retryOperation twice_429 half 2 2000 retry_start in
  fst r = Some (Fulfilled (JStr "ok")) /\
  calls (snd r) = 3%nat /\
  waits_of RateLimited (timeline (snd r)) = [(5000 + (1 # 2) * 3000)%Q;
                                            (5000 + (1 # 2) * 3000)%Q].
Proof. repeat split. Qed.

(** 4. A validation error: one invocation, no wait. *)
Example scenario_fatal :
  let r := retryOperation always_invalid half 2 2000 retry_start in
  fst r = Some (Rejected error_schema) /\
  calls (snd r) = 1%nat /\ waits (timeline (snd r)) = [].
Proof. repeat split. Qed.

(** 5. Status 500 every time: three invocations, waits of 2000 and 4000. *)
Example scenario_500 :
  let r := retryOperation_default always_500 half retry_start in
  fst r = Some (Rejected error_500) /\
  calls (snd r) = 3%nat /\
  waits (timeline (snd r)) = [inject_Z 2000; inject_Z 4000].
Proof. repeat split. Qed.

(** The response names another id, type and figure; the question
    returned keeps its own. *)
Example scenario_regenerate :
  regenerated_q1
  = JObj [("id", JStr "q-1"); ("type", JStr "short_answer");
          ("content", JStr "2 + 2 = ?"); ("correct_answer", JStr "4");
          ("figure_image", JStr "data:image/png;base64,AAAA");
          ("solution_guide", JStr "(AI chưa tạo lời giải)")].
Proof. reflexivity. Qed.

(** * Further properties *)

(** ** [retryOperation]: budget, arguments by position, first success *)

Lemma doubling_args_shift (r d : Z) (n : nat) :
  map (fun j => (r - Z.of_nat j, d * 2 ^ Z.of_nat j)) (seq 1 n)
  = map (fun j => (r - 1 - Z.of_nat j, d * 2 * 2 ^ Z.of_nat j)) (seq 0 n).
Proof.
  rewrite <- seq_shift, map_map. apply map_ext. intros j.
  rewrite Nat2Z.inj_succ, Z.pow_succ_r by lia. f_equal; [lia | ring].
Qed.

(** The attempts of a chain: retryable failures, each made with a retry
    left, and then the attempt that ends the call. *)
Lemma chain_shape {T : Type} rnd retries delay (tl : list (RetryEvent T)) :
  backoff_chain rnd retries delay tl ->
  exists init last,
    attempts tl = init ++ [last] /\
    Forall retryable init /\
    ends_call (retries - Z.of_nat (List.length init)) last /\
    (init <> [] -> Z.of_nat (List.length init) <= retries) /\
    List.length (waits tl) = List.length init /\
    attempt_args tl
    = map (fun j => (retries - Z.of_nat j, delay * 2 ^ Z.of_nat j))
          (seq 0 (S (List.length init))).
Proof.
  assert (Hstep : forall r d e (why : Classification) ms (rest : list (RetryEvent T)),
    0 < r -> classify e <> Fatal ->
    (exists init last,
       attempts rest = init ++ [last] /\
       Forall retryable init /\
       ends_call (r - 1 - Z.of_nat (List.length init)) last /\
       (init <> [] -> Z.of_nat (List.length init) <= r - 1) /\
       List.length (waits rest) = List.length init /\
       attempt_args rest
       = map (fun j => (r - 1 - Z.of_nat j, d * 2 * 2 ^ Z.of_nat j))
             (seq 0 (S (List.length init)))) ->
    exists init last,
      attempts (Attempt r d (Rejected e) :: Wait why ms :: rest) = init ++ [last] /\
      Forall retryable init /\
      ends_call (r - Z.of_nat (List.length init)) last /\
      (init <> [] -> Z.of_nat (List.length init) <= r) /\
      List.length (waits (Attempt r d (Rejected e) :: Wait why ms :: rest))
        = List.length init /\
      attempt_args (Attempt r d (Rejected e) :: Wait why ms :: rest)
      = map (fun j => (r - Z.of_nat j, d * 2 ^ Z.of_nat j))
            (seq 0 (S (List.length init)))).
  { intros r d e why ms rest Hr Hnf [init [last [Hatt [Hall [Hend [Hlen [Hw Hargs]]]]]]].
    exists (Rejected e :: init), last.
    rewrite attempts_attempt, attempts_wait, Hatt, waits_attempt, waits_wait.
    cbn [List.length app]. split; [reflexivity|].
    split; [constructor; [now exists e | assumption]|].
    split.
    { replace (r - Z.of_nat (S (List.length init)))
        with (r - 1 - Z.of_nat (List.length init)) by lia. exact Hend. }
    split.
    { intros _. destruct init as [|o init]; [cbn; lia|].
      assert (Z.of_nat (List.length (o :: init)) <= r - 1)
        by (apply Hlen; discriminate).
      lia. }
    split; [now rewrite Hw|].
    change (attempt_args (Attempt r d (Rejected e) :: Wait why ms :: rest))
      with ((r, d) :: attempt_args rest).
    rewrite Hargs.
    change (seq 0 (S (S (List.length init))))
      with (0%nat :: seq 1 (S (List.length init))).
    cbn [map]. rewrite doubling_args_shift. f_equal. f_equal; [lia | cbn; ring]. }
  induction 1 as [retries delay o Hend
                 | retries delay e0 k rest Hr Hc Hchain IH
                 | retries delay e0 rest Hr Hc Hchain IH].
  - exists [], o. cbn [List.length app seq map]. rewrite Z.sub_0_r.
    repeat split; try assumption.
    + constructor.
    + intros H. now elim H.
    + cbn. repeat f_equal; lia.
  - apply Hstep; [assumption | congruence | exact IH].
  - apply Hstep; [assumption | congruence | exact IH].
Qed.

(** X1.  Whatever the operation does, a call of [retryOperation] invokes
    it at least once and at most once more than it has retries, and waits
    exactly once between two consecutive invocations. *)
Theorem retry_attempts_bounded {T : Type} (operation : nat -> Outcome T)
        (Math_random : nat -> Q) (retries delay : Z) :
  let st := snd (retryOperation operation Math_random retries delay retry_start) in
  (1 <= calls st <= S (Z.to_nat retries))%nat /\
  List.length (waits (timeline st)) = pred (calls st) /\
  List.length (attempts (timeline st)) = calls st.
Proof.
  intros st.
  destruct (retryOperation_timeline operation Math_random retries delay)
    as [Hchain Hatt]. fold st in Hchain, Hatt.
  destruct (chain_shape _ _ _ _ Hchain)
    as [init [last [Hsplit [_ [_ [Hlen [Hw _]]]]]]].
  assert (Hn : calls st = S (List.length init)).
  { apply (f_equal (@List.length _)) in Hatt.
    rewrite length_map, length_seq, Hsplit, length_app in Hatt.
    cbn [List.length] in Hatt. lia. }
  rewrite Hn, Hw, Hsplit, length_app. cbn [List.length pred].
  repeat split; try lia.
  destruct init as [|o init]; [cbn [List.length]; lia|].
  assert (Z.of_nat (List.length (o :: init)) <= retries)
    by (apply Hlen; discriminate).
  lia.
Qed.

(** X2.  The [j]-th call of [retryOperation] within one run has [j]
    retries less and the delay doubled [j] times, whether the failures
    before it were rate-limited or transient. *)
Theorem retry_arguments_by_position {T : Type} (operation : nat -> Outcome T)
        (Math_random : nat -> Q) (retries delay : Z) :
  let st := snd (retryOperation operation Math_random retries delay retry_start) in
  attempt_args (timeline st)
  = map (fun j => (retries - Z.of_nat j, delay * 2 ^ Z.of_nat j))
        (seq 0 (calls st)).
Proof.
  intros st.
  destruct (retryOperation_timeline operation Math_random retries delay)
    as [Hchain Hatt]. fold st in Hchain, Hatt.
  destruct (chain_shape _ _ _ _ Hchain)
    as [init [last [Hsplit [_ [_ [_ [_ Hargs]]]]]]].
  assert (Hn : calls st = S (List.length init)).
  { apply (f_equal (@List.length _)) in Hatt.
    rewrite length_map, length_seq, Hsplit, length_app in Hatt.
    cbn [List.length] in Hatt. lia. }
  now rewrite Hn.
Qed.

(** X3.  When the invocation number [k] is the first to succeed, the
    failures before it are retryable and [k] retries are available, the
    call returns the result of that invocation after [k + 1] invocations. *)
Theorem retry_first_success {T : Type} (operation : nat -> Outcome T)
        (Math_random : nat -> Q) (retries delay : Z) (k : nat) (v : T) :
  operation k = Fulfilled v ->
  (forall j, (j < k)%nat -> retryable (operation j)) ->
  Z.of_nat k <= retries ->
  exists st,
    retryOperation operation Math_random retries delay retry_start
      = (Some (Fulfilled v), st) /\
    calls st = S k /\
    List.length (waits (timeline st)) = k.
Proof.
  intros Hk Hbefore Hbudget.
  destruct (retryOperation_run operation Math_random retries delay)
    as [st [Hrun [Hpos [Hchain Hatt]]]].
  destruct (chain_shape _ _ _ _ Hchain)
    as [init [last [Hsplit [Hall [Hend [Hlen [Hw _]]]]]]].
  assert (Hn : calls st = S (List.length init)).
  { apply (f_equal (@List.length _)) in Hatt.
    rewrite length_map, length_seq, Hsplit, length_app in Hatt.
    cbn [List.length] in Hatt. lia. }
  assert (Hnth : forall j, (j < calls st)%nat ->
                 nth_error (init ++ [last]) j = Some (operation j)).
  { intros j Hj. rewrite <- Hsplit, Hatt.
    rewrite nth_error_map, nth_error_seq.
    destruct (Nat.ltb_spec j (calls st)); [reflexivity | lia]. }
  assert (Hk' : List.length init = k).
  { destruct (Nat.lt_trichotomy (List.length init) k) as [Hlt | [Heq | Hgt]];
      [exfalso | exact Heq | exfalso].
    - specialize (Hnth (List.length init) ltac:(lia)).
      rewrite nth_error_app2, Nat.sub_diag in Hnth by lia.
      injection Hnth as Hlast.
      destruct (Hbefore _ Hlt) as [e [He Hnf]].
      rewrite Hlast, He in Hend. cbn [ends_call] in Hend.
      destruct Hend as [Hend | Hend]; [lia | contradiction].
    - specialize (Hnth k ltac:(lia)).
      rewrite nth_error_app1 in Hnth by lia.
      apply nth_error_In in Hnth. rewrite Forall_forall in Hall.
      destruct (Hall _ Hnth) as [e [He _]]. congruence. }
  exists st. rewrite Hrun, Hn, Hw, Hk'. cbn [pred]. now rewrite Hk.
Qed.

Lemma retry_first_success_witness :
  exists st,
    retryOperation twice_429 half 2 2000 retry_start
      = (Some (Fulfilled (JStr "ok")), st) /\
    calls st = 3%nat /\
    List.length (waits (timeline st)) = 2%nat.
Proof.
  apply (retry_first_success twice_429 half 2 2000 2 (JStr "ok")).
  - reflexivity.
  - intros j Hj. exists error_429.
    destruct j as [|[|j]]; [| | lia]; (split; [reflexivity | vm_compute; discriminate]).
  - lia.
Defined.

(** ** [PromiseQueue]: priority, idle slots, loss and the life of a task *)

Lemma exec_app_intro {T : Type} (evs1 evs2 : list (Event T)) :
  forall w w1 w2 : World T,
    exec w evs1 = Some w1 -> exec w1 evs2 = Some w2 ->
    exec w (evs1 ++ evs2) = Some w2.
Proof.
  induction evs1 as [|ev evs1 IH]; intros w w1 w2 H1 H2; cbn [app exec] in *.
  - now injection H1 as ->.
  - destruct (step w ev) as [w0|]; [now apply (IH w0 w1) | discriminate].
Qed.

(** Items that are in the line stay in their order whatever happens. *)
Lemma line_order_kept {T : Type} (a b : QueueItem) (evs : list (Event T))
      (w w' : World T) :
  before a b (line w) -> exec w evs = Some w' -> before a b (line w').
Proof.
  apply (exec_preserves (fun w0 => before a b (line w0))).
  - intros w0 item rest H Hq _. now rewrite (line_start w0 item rest Hq).
  - intros prio w0 H. rewrite line_insert. unfold line in H.
    destruct (enqueue_inserts (queue (pq w0))
                (mkItem (List.length (submitted w0)) prio))
      as [q1 [q2 [Hq ->]]].
    rewrite app_assoc. apply before_insert. now rewrite <- app_assoc, <- Hq.
  - intros t o w0 w1 H Hs. apply settle_inv in Hs. now destruct Hs as [_ ->].
  - intros t w0 H _. exact H.
Qed.

(** X4.  A priority item and a normal item that wait in the queue
    together: whatever is submitted or settles afterwards, the normal one
    is not started unless the priority one was started before it. *)
Theorem priority_before_normal {T : Type} (c : Z) (evs1 evs2 : list (Event T))
        (w1 w2 : World T) (a b : QueueItem) :
  exec (new_World c) evs1 = Some w1 ->
  In a (queue (pq w1)) -> In b (queue (pq w1)) ->
  is_high a -> is_normal b ->
  exec w1 evs2 = Some w2 ->
  In b (started w2) ->
  before a b (started w2).
Proof.
  intros H1 Ha Hb Hha Hnb H2 Hin.
  assert (Hline : before a b (line w1)).
  { apply before_app_r.
    destruct (queue_partitioned_reachable c evs1 w1 H1) as [hs [ns [Hq [Hhs Hns]]]].
    rewrite Hq in Ha, Hb |- *. rewrite Forall_forall in Hhs, Hns.
    unfold is_high, is_normal in *.
    apply in_app_or in Ha. apply in_app_or in Hb.
    destruct Ha as [Ha|Ha]; [|apply Hns in Ha; congruence].
    destruct Hb as [Hb|Hb]; [apply Hhs in Hb; congruence|].
    now apply before_app_parts. }
  pose proof (line_order_kept a b evs2 w1 w2 Hline H2) as Hline2.
  pose proof (exec_app_intro evs1 evs2 _ _ _ H1 H2) as H12.
  destruct (order_ok_reachable c _ w2 H12) as [[Hnd _] _].
  apply (before_prefix _ a b (started w2) (queue (pq w2))).
  - apply NoDup_map_inv with (f := task). exact Hnd.
  - exact Hline2.
  - exact Hin.
Qed.

Lemma priority_before_normal_witness :
  before (mkItem 2 true) (mkItem 1 false)
         [mkItem 0 false; mkItem 2 true; mkItem 1 false].
Proof.
  apply (priority_before_normal 1
           [Add false; Add false; Add true]
           [Settle 0%nat (Fulfilled tt); Finally 0%nat;
            Settle 2%nat (Fulfilled tt); Finally 2%nat]
           (mkWorld (mkQueue [mkItem 2 true; mkItem 1 false] 1 1)
                    [mkItem 0 false; mkItem 1 false; mkItem 2 true]
                    [mkItem 0 false]
                    [0%nat] [] [] [] [0; 1])
           (mkWorld (mkQueue [] 1 1)
                    [mkItem 0 false; mkItem 1 false; mkItem 2 true]
                    [mkItem 0 false; mkItem 2 true; mkItem 1 false]
                    [1%nat] [] [0%nat; 2%nat]
                    [(0%nat, Resolve tt); (2%nat, Resolve tt)]
                    [0; 1; 0; 1; 0; 1])).
  - reflexivity.
  - left. reflexivity.
  - right. left. reflexivity.
  - reflexivity.
  - reflexivity.
  - reflexivity.
  - right. right. left. reflexivity.
Defined.

Lemma concurrency_fixed {T : Type} (c : Z) (evs : list (Event T)) (w : World T) :
  exec (new_World c) evs = Some w -> concurrency (pq w) = c.
Proof.
  apply (exec_preserves (fun w0 => concurrency (pq w0) = c)).
  - intros w0 item rest H _ _. exact H.
  - intros prio w0 H. exact H.
  - intros t o w0 w1 H Hs. apply settle_inv in Hs. now destruct Hs as [_ ->].
  - intros t w0 H _. exact H.
  - reflexivity.
Qed.

Lemma idle_kept {T : Type} (evs : list (Event T)) :
  forall w w' : World T,
    queue (pq w) = [] \/ running (pq w) >= concurrency (pq w) ->
    exec w evs = Some w' ->
    queue (pq w') = [] \/ running (pq w') >= concurrency (pq w').
Proof.
  induction evs as [|ev evs IH]; intros w w' Hw Hexec; cbn [exec] in Hexec.
  - now injection Hexec as <-.
  - destruct (step w ev) as [w1|] eqn:Hstep; [|discriminate].
    apply (IH w1); [|assumption].
    destruct ev as [prio | t o | t]; cbn [step] in Hstep.
    + injection Hstep as <-. unfold add.
      destruct (run_exits (insert_item prio w)); [now right | now left].
    + apply settle_inv in Hstep. destruct Hstep as [_ ->]. exact Hw.
    + unfold finally in Hstep. destruct (mem t (finishing w)); [|discriminate].
      injection Hstep as <-.
      destruct (run_exits (release t w)); [now right | now left].
Qed.

(** X5.  Between two events no item waits while a slot is free: the
    queue is empty or [running] has reached the limit. *)
Theorem no_idle_slot {T : Type} (c : Z) (evs : list (Event T)) (w : World T) :
  exec (new_World c) evs = Some w ->
  queue (pq w) = [] \/ running (pq w) >= c.
Proof.
  intros Hexec. rewrite <- (concurrency_fixed c evs w Hexec).
  apply (idle_kept evs (new_World c) w); [now left | exact Hexec].
Qed.

Lemma no_idle_slot_witness :
  [mkItem 1 false] = [] \/ 1 >= 1.
Proof.
  apply (no_idle_slot 1 [Add false; Add false]
           (mkWorld (mkQueue [mkItem 1 false] 1 1)
                    [mkItem 0 false; mkItem 1 false] [mkItem 0 false]
                    [0%nat] [] [] ([] : list (nat * HandleCall unit)) [0; 1])).
  reflexivity.
Defined.

(** X6.  Nothing is lost and nothing is run twice: the items submitted
    are, each once, the items started followed by the items queued; they
    are numbered in the order of their submission. *)
Theorem every_task_once {T : Type} (c : Z) (evs : list (Event T)) (w : World T) :
  exec (new_World c) evs = Some w ->
  Permutation (submitted w) (started w ++ queue (pq w)) /\
  NoDup (map task (started w ++ queue (pq w))) /\
  map task (submitted w) = seq 0 (List.length (submitted w)).
Proof.
  intros Hexec. split; [|split].
  - revert Hexec.
    apply (exec_preserves (fun w0 => Permutation (submitted w0) (line w0))).
    + intros w0 item rest H Hq _. now rewrite (line_start w0 item rest Hq).
    + intros prio w0 H. rewrite line_insert. cbn [insert_item submitted].
      rewrite <- Permutation_cons_append. unfold line in H.
      rewrite <- (enqueue_permutation (queue (pq w0))).
      rewrite <- Permutation_middle. now constructor.
    + intros t o w0 w1 H Hs. apply settle_inv in Hs. now destruct Hs as [_ ->].
    + intros t w0 H _. exact H.
    + constructor.
  - now destruct (order_ok_reachable c evs w Hexec) as [[Hnd _] _].
  - revert Hexec.
    apply (exec_preserves
             (fun w0 => map task (submitted w0)
                        = seq 0 (List.length (submitted w0)))).
    + intros w0 item rest H _ _. exact H.
    + intros prio w0 H. cbn [insert_item submitted].
      rewrite map_app, length_app, seq_app, H. reflexivity.
    + intros t o w0 w1 H Hs. apply settle_inv in Hs. now destruct Hs as [_ ->].
    + intros t w0 H _. exact H.
    + reflexivity.
Qed.

Lemma every_task_once_witness :
  Permutation [mkItem 0 false; mkItem 1 false; mkItem 2 true]
              ([mkItem 0 false] ++ [mkItem 2 true; mkItem 1 false]) /\
  NoDup (map task ([mkItem 0 false] ++ [mkItem 2 true; mkItem 1 false])) /\
  map task [mkItem 0 false; mkItem 1 false; mkItem 2 true] = seq 0 3.
Proof.
  apply (every_task_once 1 [Add false; Add false; Add true]
           (mkWorld (mkQueue [mkItem 2 true; mkItem 1 false] 1 1)
                    [mkItem 0 false; mkItem 1 false; mkItem 2 true]
                    [mkItem 0 false]
                    [0%nat] [] [] ([] : list (nat * HandleCall unit)) [0; 1])).
  reflexivity.
Defined.

Lemma NoDup_app_disjoint (A : Type) (x : A) (l1 l2 : list A) :
  NoDup (l1 ++ l2) -> In x l1 -> In x l2 -> False.
Proof.
  induction l1 as [|y l1 IH]; cbn [app]; intros Hnd H1 H2; [contradiction|].
  inversion Hnd as [|? ? Hy Hnd']; subst. destruct H1 as [-> | H1].
  - apply Hy. apply in_or_app. now right.
  - now apply IH.
Qed.

Lemma calls_on_some {T : Type} t (hc : list (nat * HandleCall T)) :
  In t (map fst hc) -> calls_on t hc <> [].
Proof.
  induction hc as [|[t' call] hc IH]; intros Hin; [contradiction|].
  change (calls_on t ((t', call) :: hc)) with (calls_on t ([(t', call)] ++ hc)).
  rewrite calls_on_app. unfold calls_on at 1. cbn [filter fst map].
  destruct (Nat.eqb_spec t' t) as [->|Hne]; [discriminate|].
  cbn [map app]. destruct Hin as [Heq|Hin]; [now elim Hne | now apply IH].
Qed.

Lemma settled_tasks_reachable {T : Type} (c : Z) (evs : list (Event T))
      (w : World T) :
  exec (new_World c) evs = Some w ->
  forall t, In t (finishing w) \/ In t (finished w) ->
            In t (map fst (handle_calls w)).
Proof.
  apply (exec_preserves
           (fun w0 => forall t, In t (finishing w0) \/ In t (finished w0) ->
                                In t (map fst (handle_calls w0)))).
  - intros w0 item rest H _ _. exact H.
  - intros prio w0 H. exact H.
  - intros t o w0 w1 H Hs. apply settle_inv in Hs. destruct Hs as [_ ->].
    cbn [finishing finished handle_calls]. intros t' Hin.
    rewrite map_app. apply in_or_app.
    destruct Hin as [Hin | Hin].
    + apply in_app_or in Hin. destruct Hin as [Hin | [<- | []]].
      * left. apply H. now left.
      * right. now left.
    + left. apply H. now right.
  - intros t w0 H Hmem t' Hin. cbn [release finishing finished handle_calls] in *.
    apply H. destruct Hin as [Hin | Hin].
    + left. now apply In_remove_first in Hin.
    + apply in_app_or in Hin. destruct Hin as [Hin | [<- | []]].
      * now right.
      * left. now apply mem_In.
  - intros t [[] | []].
Qed.

(** X7.  The life of a task, read off any state: while it is queued or
    its work is awaited its handle has not been called; once its
    [finally] callback is pending or has run its handle has been called
    exactly once. *)
Theorem handle_follows_task {T : Type} (c : Z) (evs : list (Event T))
        (w : World T) (t : nat) :
  exec (new_World c) evs = Some w ->
  (In t (map task (queue (pq w))) \/ In t (awaiting w) ->
   calls_on t (handle_calls w) = []) /\
  (In t (finishing w) \/ In t (finished w) ->
   exists call, calls_on t (handle_calls w) = [call]).
Proof.
  intros Hexec.
  destruct (handles_ok_reachable c evs w Hexec)
    as [[Hnd _] [_ [_ [Hhc Hnc]]]].
  split.
  - intros Hin. apply calls_on_none. intros Hc.
    destruct (Hhc t Hc) as [Hst Hna].
    destruct Hin as [Hq | Ha]; [|contradiction].
    unfold line in Hnd. rewrite map_app in Hnd.
    exact (NoDup_app_disjoint _ t _ _ Hnd Hst Hq).
  - intros Hin.
    pose proof (settled_tasks_reachable c evs w Hexec t Hin) as Hc.
    pose proof (calls_on_some t _ Hc) as Hsome.
    pose proof (calls_on_NoDup t _ Hnc) as Hle.
    destruct (calls_on t (handle_calls w)) as [|call [|call' rest]].
    + now elim Hsome.
    + now exists call.
    + cbn in Hle. lia.
Qed.

Lemma handle_follows_task_witness :
  (In 0%nat (map task []) \/ In 0%nat [] ->
   calls_on 0%nat [(0%nat, Resolve tt)] = []) /\
  (In 0%nat [0%nat] \/ In 0%nat [] ->
   exists call, calls_on 0%nat [(0%nat, Resolve tt)] = [call]).
Proof.
  apply (handle_follows_task 1 [Add false; Settle 0%nat (Fulfilled tt)]
           (mkWorld (mkQueue [] 1 1) [mkItem 0 false] [mkItem 0 false]
                    [] [0%nat] [] [(0%nat, Resolve tt)] [0; 1]) 0%nat).
  reflexivity.
Defined.

(** ** [validateAndFixData] *)

Lemma validateAndFixData_parts (String_of : JsVal -> string)
      (randomUUID : nat -> string) (data originalType : JsVal) :
  validateAndFixData String_of randomUUID data originalType
  = match first_or_empty data with
    | JObj _ | JArr _ =>
      fix_by_type String_of randomUUID originalType
        (ensure_mandatory (own_props (first_or_empty data)))
    | _ => None
    end.
Proof.
  unfold validateAndFixData, first_or_empty.
  destruct data as [| | b | q | s | [|first rest] | props]; reflexivity.
Qed.

Lemma truthy_js_or (a b : JsVal) : truthy b = true -> truthy (js_or a b) = true.
Proof. intros Hb. unfold js_or. now destruct (truthy a) eqn:Ha. Qed.

Lemma js_or_truthy (a b : JsVal) : truthy a = true -> js_or a b = a.
Proof. intros Ha. unfold js_or. now rewrite Ha. Qed.

Lemma ensure_mandatory_get (d : list (string * JsVal)) (k : string) :
  obj_get (ensure_mandatory d) k
  = if String.eqb k "solution_guide"
    then js_or (obj_get d "solution_guide") (JStr "(AI chưa tạo lời giải)")
    else if String.eqb k "content"
         then js_or (obj_get d "content") (JStr "Nội dung câu hỏi...")
         else obj_get d k.
Proof.
  unfold ensure_mandatory. cbv zeta.
  destruct (String.eqb_spec k "solution_guide") as [->|Hs].
  - rewrite obj_get_set_same. now rewrite obj_get_set_other by discriminate.
  - rewrite obj_get_set_other by congruence.
    destruct (String.eqb_spec k "content") as [->|Hc].
    + apply obj_get_set_same.
    + now rewrite obj_get_set_other by congruence.
Qed.

Lemma sequence_Some (A : Type) (l : list (option A)) (r : list A) :
  sequence l = Some r <-> l = map Some r.
Proof.
  revert r; induction l as [|[a|] l IH]; intros r; cbn [sequence].
  - split; [intros [= <-]; reflexivity | destruct r; [reflexivity | discriminate]].
  - destruct (sequence l) as [r'|] eqn:Hs.
    + split.
      * intros [= <-]. cbn [map]. f_equal. now apply IH.
      * destruct r as [|b r]; [discriminate|]. cbn [map]. intros [= -> Hl].
        apply IH in Hl. now injection Hl as ->.
    + split; [discriminate|]. destruct r as [|b r]; [discriminate|].
      cbn [map]. intros [= -> Hl]. apply IH in Hl. discriminate.
  - split; [discriminate | destruct r; discriminate].
Qed.


(** The elements of [items] under their indices, from [start] on. *)
Lemma nth_error_numbered (A : Type) (items : list A) :
  forall start i,
    nth_error (combine (seq start (List.length items)) items) i
    = option_map (fun x => ((start + i)%nat, x)) (nth_error items i).
Proof.
  induction items as [|x items IH]; intros start i; cbn [List.length seq combine].
  - now destruct i.
  - destruct i as [|i]; cbn [nth_error option_map].
    + now rewrite Nat.add_0_r.
    + rewrite IH. destruct (nth_error items i); cbn [option_map]; [|reflexivity].
      do 2 f_equal. lia.
Qed.


Lemma fix_sub_question_fixed (randomUUID : nat -> string) (k : nat) (sq sq' : JsVal) :
  fix_sub_question randomUUID k sq = Some sq' -> fixed_sub randomUUID k sq'.
Proof.
  unfold fix_sub_question. destruct (get_prop sq "content") as [content|];
    [|discriminate].
  destruct (get_prop sq "is_correct") as [is_correct|]; [|discriminate].
  intros [= <-]. eexists. split; [reflexivity|]. split; [|split].
  - rewrite obj_get_set_other by discriminate.
    rewrite obj_get_set_other by discriminate. apply obj_get_set_same.
  - rewrite obj_get_set_other by discriminate. rewrite obj_get_set_same.
    unfold js_or. destruct (truthy content) eqn:Ht; [now left | now right].
  - eexists. apply obj_get_set_same.
Qed.

(** What the [map] over the sub-questions gives when no callback throws. *)
Lemma fixed_subs_spec (randomUUID : nat -> string) (subs fixed : list JsVal) :
  sequence (map (fun p => fix_sub_question randomUUID (fst p) (snd p))
                (combine (seq 0 (List.length subs)) subs)) = Some fixed ->
  List.length fixed = List.length subs /\
  forall i sq', nth_error fixed i = Some sq' ->
    exists sq, nth_error subs i = Some sq /\
               fix_sub_question randomUUID i sq = Some sq'.
Proof.
  intros H. apply sequence_Some in H. split.
  - apply (f_equal (@List.length _)) in H.
    rewrite !length_map, length_combine, length_seq, Nat.min_id in H. lia.
  - intros i sq' Hi.
    apply (f_equal (fun l => nth_error l i)) in H.
    rewrite !nth_error_map, nth_error_numbered, Hi in H. cbn [option_map] in H.
    destruct (nth_error subs i) as [sq|]; [|discriminate].
    cbn [option_map fst snd] in H. exists sq. split; [reflexivity|].
    now injection H.
Qed.


(** A property is written by [fix_by_type] only where its value is not
    of the kind the type asks for; [sub_questions] are always rebuilt. *)
Lemma fix_by_type_changes (String_of : JsVal -> string) (randomUUID : nat -> string)
      (ty : JsVal) (d d' : list (string * JsVal)) (k : string) :
  fix_by_type String_of randomUUID ty d = Some d' ->
  obj_get d' k = obj_get d k \/
  (k = "options" /\ forall o os, obj_get d "options" <> JArr (o :: os)) \/
  (k = "correct_option" /\ truthy (obj_get d "correct_option") = false) \/
  k = "sub_questions" \/
  (k = "correct_answer" /\ forall s, obj_get d "correct_answer" <> JStr s) \/
  (k = "reference_solution" /\ truthy (obj_get d "reference_solution") = false).
Proof.
  unfold fix_by_type.
  destruct (strict_eq_str ty "multiple_choice").
  { cbv zeta. intros [= <-].
    set (d3 := match obj_get d "options" with
               | JArr (_ :: _) => d
               | _ => obj_set d "options" _
               end).
    assert (H3 : forall k', obj_get d3 k' = obj_get d k' \/
                 (k' = "options" /\ forall o os, obj_get d "options" <> JArr (o :: os))).
    { intros k'. subst d3.
      destruct (obj_get d "options") as [| | | | | [|o os] |] eqn:E;
        try (now left);
        (destruct (String.eqb_spec "options" k') as [<-|Hne];
         [right; split; [reflexivity | intros; discriminate]
         | left; now apply obj_get_set_other]). }
    destruct (truthy (obj_get d3 "correct_option")) eqn:Hco.
    - destruct (H3 k) as [-> | H]; [now left | right; now left].
    - destruct (String.eqb_spec "correct_option" k) as [<-|Hne].
      + right. right. left. split; [reflexivity|].
        destruct (H3 "correct_option") as [<- | [H _]]; [exact Hco | discriminate].
      + rewrite obj_get_set_other by assumption.
        destruct (H3 k) as [-> | H]; [now left | right; now left]. }
  destruct (strict_eq_str ty "true_false_group").
  { destruct (sequence _) as [fixed|]; [|discriminate]. intros [= <-].
    destruct (String.eqb_spec "sub_questions" k) as [<-|Hne].
    - right. right. right. now left.
    - left. now apply obj_get_set_other. }
  destruct (strict_eq_str ty "short_answer").
  { intros [= <-].
    destruct (obj_get d "correct_answer") eqn:E; try (now left);
      (destruct (String.eqb_spec "correct_answer" k) as [<-|Hne];
       [right; right; right; right; left; split;
        [reflexivity | intros; discriminate]
       | left; now apply obj_get_set_other]). }
  destruct (strict_eq_str ty "essay").
  { intros [= <-].
    destruct (truthy (obj_get d "reference_solution")) eqn:E; [now left|].
    destruct (String.eqb_spec "reference_solution" k) as [<-|Hne].
    - right. right. right. right. right. now split.
    - left. now apply obj_get_set_other. }
  intros [= <-]. now left.
Qed.

Lemma fix_by_type_frame (String_of : JsVal -> string) (randomUUID : nat -> string)
      (ty : JsVal) (d d' : list (string * JsVal)) (k : string) :
  fix_by_type String_of randomUUID ty d = Some d' ->
  ~ In k ["options"; "correct_option"; "sub_questions"; "correct_answer";
          "reference_solution"] ->
  obj_get d' k = obj_get d k.
Proof.
  intros H Hk.
  destruct (fix_by_type_changes _ _ _ _ _ k H)
    as [E | [[-> _] | [[-> _] | [-> | [[-> _] | [-> _]]]]]];
    [exact E | | | | | ]; exfalso; apply Hk; cbn; tauto.
Qed.

Lemma fix_multiple_choice (String_of : JsVal -> string) (randomUUID : nat -> string)
      (d d' : list (string * JsVal)) :
  fix_by_type String_of randomUUID (JStr "multiple_choice") d = Some d' ->
  (exists o os, obj_get d' "options" = JArr (o :: os)) /\
  truthy (obj_get d' "correct_option") = true.
Proof.
  unfold fix_by_type. cbn [strict_eq_str]. rewrite String.eqb_refl. cbv zeta.
  intros [= <-].
  set (d3 := match obj_get d "options" with
             | JArr (_ :: _) => d
             | _ => obj_set d "options" _
             end).
  assert (H3 : exists o os, obj_get d3 "options" = JArr (o :: os)).
  { subst d3.
    destruct (obj_get d "options") as [| | | | | [|o os] |] eqn:E;
      try (rewrite obj_get_set_same; eauto).
    rewrite E. eauto. }
  destruct (truthy (obj_get d3 "correct_option")) eqn:Hco.
  - now split.
  - rewrite obj_get_set_other by discriminate. rewrite obj_get_set_same.
    now split.
Qed.

Lemma fix_true_false_group (String_of : JsVal -> string) (randomUUID : nat -> string)
      (d d' : list (string * JsVal)) :
  fix_by_type String_of randomUUID (JStr "true_false_group") d = Some d' ->
  exists fixed,
    obj_get d' "sub_questions" = JArr fixed /\
    List.length fixed
    = List.length (match obj_get d "sub_questions" with
                   | JArr items => items
                   | _ => []
                   end) /\
    forall i sq, nth_error fixed i = Some sq -> fixed_sub randomUUID i sq.
Proof.
  unfold fix_by_type. cbn [strict_eq_str].
  change (String.eqb "true_false_group" "multiple_choice") with false.
  rewrite String.eqb_refl. cbv zeta.
  destruct (sequence _) as [fixed|] eqn:Hseq; [|discriminate]. intros [= <-].
  exists fixed. rewrite obj_get_set_same.
  destruct (fixed_subs_spec _ _ _ Hseq) as [Hlen Hnth].
  repeat split; [exact Hlen|].
  intros i sq Hi. destruct (Hnth i sq Hi) as [sq0 [_ Hfix]].
  now apply fix_sub_question_fixed in Hfix.
Qed.

Lemma fix_short_answer (String_of : JsVal -> string) (randomUUID : nat -> string)
      (d d' : list (string * JsVal)) :
  fix_by_type String_of randomUUID (JStr "short_answer") d = Some d' ->
  exists s, obj_get d' "correct_answer" = JStr s.
Proof.
  unfold fix_by_type. cbn [strict_eq_str].
  change (String.eqb "short_answer" "multiple_choice") with false.
  change (String.eqb "short_answer" "true_false_group") with false.
  rewrite String.eqb_refl. intros [= <-].
  destruct (obj_get d "correct_answer") eqn:E;
    try (rewrite obj_get_set_same; eauto).
  rewrite E. eauto.
Qed.

Lemma fix_essay (String_of : JsVal -> string) (randomUUID : nat -> string)
      (d d' : list (string * JsVal)) :
  fix_by_type String_of randomUUID (JStr "essay") d = Some d' ->
  truthy (obj_get d' "reference_solution") = true \/
  obj_get d' "reference_solution" = JStr "".
Proof.
  unfold fix_by_type. cbn [strict_eq_str].
  change (String.eqb "essay" "multiple_choice") with false.
  change (String.eqb "essay" "true_false_group") with false.
  change (String.eqb "essay" "short_answer") with false.
  rewrite String.eqb_refl. intros [= <-].
  destruct (truthy (obj_get d "reference_solution")) eqn:E; [now left|].
  right. apply obj_get_set_same.
Qed.

Lemma validate_Some (String_of : JsVal -> string) (randomUUID : nat -> string)
      (data ty : JsVal) (d : list (string * JsVal)) :
  validateAndFixData String_of randomUUID data ty = Some d ->
  fix_by_type String_of randomUUID ty
    (ensure_mandatory (own_props (first_or_empty data))) = Some d.
Proof.
  rewrite validateAndFixData_parts.
  now destruct (first_or_empty data).
Qed.

(** X8.  Data that [validateAndFixData] returns has a truthy [content] and
    [solution_guide] and, for each question type, the fields the editor
    reads: a non-empty [options] array and a truthy [correct_option]; an
    array of [sub_questions], each an object with a fresh [id], a string
    or truthy [content] and a boolean [is_correct]; a string
    [correct_answer]; a [reference_solution] that is truthy or the empty
    string. *)
Theorem validated_data_is_complete (String_of : JsVal -> string)
        (randomUUID : nat -> string) (data ty : JsVal) (d : list (string * JsVal)) :
  validateAndFixData String_of randomUUID data ty = Some d ->
  truthy (obj_get d "content") = true /\
  truthy (obj_get d "solution_guide") = true /\
  (ty = JStr "multiple_choice" ->
   (exists o os, obj_get d "options" = JArr (o :: os)) /\
   truthy (obj_get d "correct_option") = true) /\
  (ty = JStr "true_false_group" ->
   exists fixed,
     obj_get d "sub_questions" = JArr fixed /\
     forall i sq, nth_error fixed i = Some sq -> fixed_sub randomUUID i sq) /\
  (ty = JStr "short_answer" -> exists s, obj_get d "correct_answer" = JStr s) /\
  (ty = JStr "essay" ->
   truthy (obj_get d "reference_solution") = true \/
   obj_get d "reference_solution" = JStr "").
Proof.
  intros H. apply validate_Some in H.
  set (d2 := ensure_mandatory (own_props (first_or_empty data))) in H.
  split; [|split; [|split; [|split; [|split]]]].
  - rewrite (fix_by_type_frame _ _ _ _ _ "content" H)
      by (cbn; intuition discriminate).
    subst d2. rewrite ensure_mandatory_get. cbn [String.eqb Ascii.eqb Bool.eqb].
    now apply truthy_js_or.
  - rewrite (fix_by_type_frame _ _ _ _ _ "solution_guide" H)
      by (cbn; intuition discriminate).
    subst d2. rewrite ensure_mandatory_get. cbn [String.eqb Ascii.eqb Bool.eqb].
    now apply truthy_js_or.
  - intros ->. now apply fix_multiple_choice in H.
  - intros ->. apply fix_true_false_group in H.
    destruct H as [fixed [Hget [_ Hfixed]]]. now exists fixed.
  - intros ->. now apply fix_short_answer in H.
  - intros ->. now apply fix_essay in H.
Qed.

Lemma validated_data_is_complete_witness :
  truthy (JStr "2 + 2 = ?") = true /\
  truthy (JStr "(AI chưa tạo lời giải)") = true /\
  (JStr "short_answer" = JStr "multiple_choice" ->
   (exists o os, JUndefined = JArr (o :: os)) /\ truthy JUndefined = true) /\
  (JStr "short_answer" = JStr "true_false_group" ->
   exists fixed,
     JUndefined = JArr fixed /\
     forall i sq, nth_error fixed i = Some sq -> fixed_sub (fun _ => "uuid") i sq) /\
  (JStr "short_answer" = JStr "short_answer" -> exists s, JStr "4" = JStr s) /\
  (JStr "short_answer" = JStr "essay" ->
   truthy JUndefined = true \/ JUndefined = JStr "").
Proof.
  apply (validated_data_is_complete (fun _ => "4") (fun _ => "uuid")
           (JObj [("content", JStr "2 + 2 = ?"); ("correct_answer", JNum 4)])
           (JStr "short_answer")
           [("content", JStr "2 + 2 = ?"); ("correct_answer", JStr "4");
            ("solution_guide", JStr "(AI chưa tạo lời giải)")]).
  reflexivity.
Defined.

(** X9.  [validateAndFixData] writes nothing but the fields it repairs,
    and leaves a field it repairs as it is when the value is already of
    the kind asked for: a truthy [content], [solution_guide],
    [correct_option] or [reference_solution], a non-empty [options]
    array, a string [correct_answer]. *)
Theorem validation_keeps_valid_fields (String_of : JsVal -> string)
        (randomUUID : nat -> string) (data ty : JsVal) (d : list (string * JsVal)) :
  validateAndFixData String_of randomUUID data ty = Some d ->
  let d0 := own_props (first_or_empty data) in
  (forall k, ~ In k repaired_keys -> obj_get d k = obj_get d0 k) /\
  (truthy (obj_get d0 "content") = true ->
   obj_get d "content" = obj_get d0 "content") /\
  (truthy (obj_get d0 "solution_guide") = true ->
   obj_get d "solution_guide" = obj_get d0 "solution_guide") /\
  (forall o os, obj_get d0 "options" = JArr (o :: os) ->
                obj_get d "options" = JArr (o :: os)) /\
  (truthy (obj_get d0 "correct_option") = true ->
   obj_get d "correct_option" = obj_get d0 "correct_option") /\
  (forall s, obj_get d0 "correct_answer" = JStr s ->
             obj_get d "correct_answer" = JStr s) /\
  (truthy (obj_get d0 "reference_solution") = true ->
   obj_get d "reference_solution" = obj_get d0 "reference_solution").
Proof.
  intros H d0. apply validate_Some in H. fold d0 in H.
  assert (Hm : forall k, k <> "content" -> k <> "solution_guide" ->
                         obj_get (ensure_mandatory d0) k = obj_get d0 k).
  { intros k H1 H2. rewrite ensure_mandatory_get.
    destruct (String.eqb_spec k "solution_guide"); [contradiction|].
    now destruct (String.eqb_spec k "content"). }
  split; [|split; [|split; [|split; [|split; [|split]]]]].
  - intros k Hk. unfold repaired_keys in Hk.
    rewrite (fix_by_type_frame _ _ _ _ _ k H) by (cbn in *; tauto).
    apply Hm; intros ->; apply Hk; cbn; tauto.
  - intros Ht.
    rewrite (fix_by_type_frame _ _ _ _ _ "content" H)
      by (cbn; intuition discriminate).
    rewrite ensure_mandatory_get. cbn [String.eqb Ascii.eqb Bool.eqb].
    now apply js_or_truthy.
  - intros Ht.
    rewrite (fix_by_type_frame _ _ _ _ _ "solution_guide" H)
      by (cbn; intuition discriminate).
    rewrite ensure_mandatory_get. cbn [String.eqb Ascii.eqb Bool.eqb].
    now apply js_or_truthy.
  - intros o os Ho. rewrite <- Ho, <- (Hm "options") by discriminate.
    rewrite <- (Hm "options") in Ho by discriminate.
    destruct (fix_by_type_changes _ _ _ _ _ "options" H)
      as [E | [[_ Hbad] | [[E _] | [E | [[E _] | [E _]]]]]];
      try discriminate; [exact E | now elim (Hbad o os)].
  - intros Ht. rewrite <- (Hm "correct_option") in Ht |- * by discriminate.
    destruct (fix_by_type_changes _ _ _ _ _ "correct_option" H)
      as [E | [[E _] | [[_ Hbad] | [E | [[E _] | [E _]]]]]];
      try discriminate; [exact E | congruence].
  - intros s Hs. rewrite <- Hs, <- (Hm "correct_answer") by discriminate.
    rewrite <- (Hm "correct_answer") in Hs by discriminate.
    destruct (fix_by_type_changes _ _ _ _ _ "correct_answer" H)
      as [E | [[E _] | [[E _] | [E | [[_ Hbad] | [E _]]]]]];
      try discriminate; [exact E | now elim (Hbad s)].
  - intros Ht. rewrite <- (Hm "reference_solution") in Ht |- * by discriminate.
    destruct (fix_by_type_changes _ _ _ _ _ "reference_solution" H)
      as [E | [[E _] | [[E _] | [E | [[E _] | [_ Hbad]]]]]];
      try discriminate; [exact E | congruence].
Qed.

Lemma validation_keeps_valid_fields_witness :
  JStr "A. 4" = JStr "A. 4".
Proof.
  apply (proj1 (proj2 (validation_keeps_valid_fields
           (fun _ => "") (fun _ => "uuid")
           (JObj [("content", JStr "A. 4"); ("id", JStr "x")])
           (JStr "essay")
           [("content", JStr "A. 4"); ("id", JStr "x");
            ("solution_guide", JStr "(AI chưa tạo lời giải)");
            ("reference_solution", JStr "")]
           eq_refl))).
  reflexivity.
Defined.


Lemma validate_mandatory (String_of : JsVal -> string) (randomUUID : nat -> string)
      (data ty : JsVal) (d : list (string * JsVal)) :
  validateAndFixData String_of randomUUID data ty = Some d ->
  truthy (obj_get d "content") = true /\
  truthy (obj_get d "solution_guide") = true.
Proof.
  intros H. apply validate_Some in H. split.
  - rewrite (fix_by_type_frame _ _ _ _ _ "content" H)
      by (cbn; intuition discriminate).
    rewrite ensure_mandatory_get. cbn [String.eqb Ascii.eqb Bool.eqb].
    now apply truthy_js_or.
  - rewrite (fix_by_type_frame _ _ _ _ _ "solution_guide" H)
      by (cbn; intuition discriminate).
    rewrite ensure_mandatory_get. cbn [String.eqb Ascii.eqb Bool.eqb].
    now apply truthy_js_or.
Qed.

Lemma truthy_defined (v : JsVal) : truthy v = true -> v <> JUndefined.
Proof. intros H ->. discriminate. Qed.

(** ** [getStrictSchemaForType] *)

(** X11.  For each of the four question types, every field the strict
    schema of the type requires, [type] apart, is defined in the data
    [validateAndFixData] returns for that type; and every required field
    of the schema is one of its properties. *)
Theorem strict_schema_fields_present (String_of : JsVal -> string)
        (randomUUID : nat -> string) (data : JsVal) (t : string)
        (d : list (string * JsVal)) :
  In t ["multiple_choice"; "true_false_group"; "short_answer"; "essay"] ->
  validateAndFixData String_of randomUUID data (JStr t) = Some d ->
  (forall k, In k (schema_required (getStrictSchemaForType t)) ->
             In k (map fst (schema_properties (getStrictSchemaForType t)))) /\
  (forall k, In k (schema_required (getStrictSchemaForType t)) ->
             k <> "type" -> obj_get d k <> JUndefined).
Proof.
  intros Ht H.
  destruct (validate_mandatory _ _ _ _ _ H) as [Hc Hs].
  apply truthy_defined in Hc. apply truthy_defined in Hs.
  apply validate_Some in H.
  destruct Ht as [<- | [<- | [<- | [<- | []]]]]; cbn; split;
    try (intros k Hk; tauto).
  - destruct (fix_multiple_choice _ _ _ _ H) as [[o [os Ho]] Hco].
    apply truthy_defined in Hco.
    intros k [<- | [<- | [<- | [<- | [<- | []]]]]] Hk;
      try assumption; [now elim Hk | rewrite Ho; discriminate].
  - destruct (fix_true_false_group _ _ _ _ H) as [fixed [Hf _]].
    intros k [<- | [<- | [<- | [<- | []]]]] Hk;
      try assumption; [now elim Hk | rewrite Hf; discriminate].
  - destruct (fix_short_answer _ _ _ _ H) as [s Hs'].
    intros k [<- | [<- | [<- | [<- | []]]]] Hk;
      try assumption; [now elim Hk | rewrite Hs'; discriminate].
  - intros k [<- | [<- | [<- | [<- | []]]]] Hk;
      try assumption; [now elim Hk|].
    destruct (fix_essay _ _ _ _ H) as [Hr | Hr];
      [now apply truthy_defined | rewrite Hr; discriminate].
Qed.

Lemma strict_schema_fields_present_witness :
  (forall k, In k (schema_required (getStrictSchemaForType "short_answer")) ->
             In k (map fst (schema_properties
                              (getStrictSchemaForType "short_answer")))) /\
  (forall k, In k (schema_required (getStrictSchemaForType "short_answer")) ->
             k <> "type" ->
             obj_get [("content", JStr "2 + 2 = ?"); ("correct_answer", JStr "4");
                      ("solution_guide", JStr "(AI chưa tạo lời giải)")] k
             <> JUndefined).
Proof.
  apply (strict_schema_fields_present (fun _ => "4") (fun _ => "uuid")
           (JObj [("content", JStr "2 + 2 = ?"); ("correct_answer", JNum 4)])
           "short_answer").
  - right. right. left. reflexivity.
  - reflexivity.
Defined.

(** ** [solveSpecificQuestion] *)

Lemma obj_get_merge (question res : list (string * JsVal)) (k : string) :
  field (solved question res) k
  = match obj_find res k with
    | Some x => x
    | None => obj_get question k
    end.
Proof.
  unfold field, solved, spread, obj_get. cbn [own_props].
  rewrite !obj_find_spread. cbn [obj_find].
  destruct (obj_find res k); [reflexivity|].
  now destruct (obj_find question k).
Qed.

Lemma obj_get_found (props : list (string * JsVal)) (k : string) :
  obj_get props k <> JUndefined -> obj_find props k = Some (obj_get props k).
Proof. unfold obj_get. destruct (obj_find props k); [reflexivity | congruence]. Qed.

(** X12.  The question [solveSpecificQuestion] returns is the input
    question overwritten by the validated data of the last response: a
    field the data has is the data's, [id] and [type] included, a field
    it lacks is the question's; its [content] and [solution_guide] are
    truthy. *)
Theorem solve_merges_response
        (String_of : JsVal -> string) (randomUUID : nat -> string)
        (TypeError_thrown : JsError)
        (question : list (string * JsVal)) (responses : nat -> Response)
        (Math_random : nat -> Q) (v : JsVal) (st : RetryState JsVal) :
  solveSpecificQuestion String_of randomUUID TypeError_thrown
                        question responses Math_random
    = (Some (Fulfilled v), st) ->
  exists parsed res,
    responses (pred (calls st)) = Parsed parsed /\
    validateAndFixData String_of randomUUID parsed (obj_get question "type")
      = Some res /\
    (forall k, field v k = match obj_find res k with
                           | Some x => x
                           | None => obj_get question k
                           end) /\
    truthy (field v "content") = true /\
    truthy (field v "solution_guide") = true.
Proof.
  unfold solveSpecificQuestion, retryOperation_default. intros Hrun.
  destruct (retryOperation_run
              (fun k => solve_attempt String_of randomUUID TypeError_thrown
                                      question (responses k))
              Math_random 2 2000) as [st' [Hrun' _]].
  rewrite Hrun in Hrun'. injection Hrun' as Hv <-.
  unfold solve_attempt in Hv.
  destruct (responses (pred (calls st))) as [e | | e | parsed]; try discriminate.
  destruct (validateAndFixData String_of randomUUID parsed
                               (obj_get question "type")) as [res|] eqn:Hval;
    [|discriminate].
  injection Hv as ->. exists parsed, res.
  destruct (validate_mandatory _ _ _ _ _ Hval) as [Hc Hs].
  split; [reflexivity|]. split; [exact Hval|]. split; [|split].
  - intros k. apply obj_get_merge.
  - rewrite obj_get_merge, (obj_get_found res "content"); [exact Hc|].
    now apply truthy_defined.
  - rewrite obj_get_merge, (obj_get_found res "solution_guide"); [exact Hs|].
    now apply truthy_defined.
Qed.

Lemma solve_merges_response_witness :
  exists parsed res,
    response_other = Parsed parsed /\
    validateAndFixData (fun _ => "4") (fun _ => "uuid") parsed
                       (obj_get question_q1 "type") = Some res /\
    (forall k, field solved_q1 k = match obj_find res k with
                                   | Some x => x
                                   | None => obj_get question_q1 k
                                   end) /\
    truthy (field solved_q1 "content") = true /\
    truthy (field solved_q1 "solution_guide") = true.
Proof.
  apply (solve_merges_response (fun _ => "4") (fun _ => "uuid")
           (Error_ "TypeError") question_q1 (fun _ => response_other) half
           solved_q1 (snd run_solve_q1)).
  reflexivity.
Defined.

(** The response of the scenario names another id: the solved question
    takes it, where the regenerated question keeps its own. *)
Example scenario_solve_takes_id :
  field solved_q1 "id" = JStr "other" /\ field regenerated_q1 "id" = JStr "q-1".
Proof. split; reflexivity. Qed.

(** ** [extractQuestionsFromImage] *)

Lemma NoDup_map_injective (A B : Type) (f : A -> B) (l : list A) :
  (forall a b, f a = f b -> a = b) -> NoDup l -> NoDup (map f l).
Proof.
  intros Hinj. induction 1 as [|x l Hx Hnd IH]; cbn [map]; constructor.
  - intros Hin. apply in_map_iff in Hin. destruct Hin as [y [Hy Hin]].
    apply Hinj in Hy. now subst.
  - exact IH.
Qed.

Lemma increasing_NoDup (ks : list nat) : StronglySorted lt ks -> NoDup ks.
Proof.
  induction 1 as [|k ks Hs IH Hall]; constructor; [|exact IH].
  intros Hin. rewrite Forall_forall in Hall. apply Hall in Hin. lia.
Qed.

(** The questions [data.map] builds: as many as the elements, each with
    the mandatory fields, and each with the identifier of a draw of its
    own, later than all the draws before. *)
Lemma extract_items_spec (String_of : JsVal -> string) (randomUUID : nat -> string)
      (data : list JsVal) :
  forall n qs,
    extract_items String_of randomUUID n data = Some qs ->
    List.length qs = List.length data /\
    (forall q, In q qs -> truthy (field q "content") = true /\
                          truthy (field q "solution_guide") = true) /\
    exists ks,
      map (fun q => field q "id") qs = map (fun k => JStr (randomUUID k)) ks /\
      Forall (fun k => (n <= k)%nat) ks /\ StronglySorted lt ks.
Proof.
  induction data as [|q data IH]; intros n qs H; cbn [extract_items] in H.
  - injection H as <-. split; [reflexivity|]. split; [intros q []|].
    exists []. repeat split; constructor.
  - destruct (get_prop q "type") as [ty|]; [|discriminate].
    destruct (validateAndFixData _ _ q ty) as [d|] eqn:Hval; [|discriminate].
    cbv zeta in H.
    destruct (extract_items _ _ (n + uuids_used ty d + 1) data) as [qs'|] eqn:Hrest;
      [|discriminate].
    injection H as <-.
    destruct (IH _ _ Hrest) as [Hlen [Hfields [ks [Hids [Hge Hsorted]]]]].
    destruct (validate_mandatory _ _ _ _ _ Hval) as [Hc Hs].
    split; [cbn [List.length]; now rewrite Hlen|]. split.
    + intros q' [<- | Hin]; [|now apply Hfields].
      unfold field. cbn [own_props].
      rewrite !obj_get_set_other by discriminate.
      now rewrite !obj_get_spread_object.
    + exists ((n + uuids_used ty d)%nat :: ks). cbn [map]. split; [|split].
      * f_equal; [|exact Hids]. unfold field. cbn [own_props].
        apply obj_get_set_same.
      * constructor; [lia|]. eapply Forall_impl; [|exact Hge].
        cbv beta. intros k Hk. lia.
      * constructor; [exact Hsorted|]. eapply Forall_impl; [|exact Hge].
        cbv beta. intros k Hk. lia.
Qed.

(** X13.  The value [extractQuestionsFromImage] returns is an array with
    one question for each element of the array the last response parsed
    to; each has a truthy [content] and [solution_guide] and an [id] drawn
    from [crypto.randomUUID()], whatever [id] the response gave it; when
    no two draws give the same identifier, no two questions share an [id]. *)
Theorem extraction_gives_questions
        (String_of : JsVal -> string) (randomUUID : nat -> string)
        (TypeError_thrown : JsError) (responses : nat -> Response)
        (Math_random : nat -> Q) (v : JsVal) (st : RetryState JsVal) :
  extractQuestionsFromImage String_of randomUUID TypeError_thrown
                            responses Math_random
    = (Some (Fulfilled v), st) ->
  exists data qs,
    responses (pred (calls st)) = Parsed (JArr data) /\
    v = JArr qs /\
    List.length qs = List.length data /\
    (forall q, In q qs ->
       truthy (field q "content") = true /\
       truthy (field q "solution_guide") = true /\
       exists k, field q "id" = JStr (randomUUID k)) /\
    ((forall a b, randomUUID a = randomUUID b -> a = b) ->
     NoDup (map (fun q => field q "id") qs)).
Proof.
  unfold extractQuestionsFromImage. intros Hrun.
  destruct (retryOperation_run
              (fun k => extract_attempt String_of randomUUID TypeError_thrown
                                        (responses k))
              Math_random 2 3000) as [st' [Hrun' _]].
  rewrite Hrun in Hrun'. injection Hrun' as Hv <-.
  unfold extract_attempt in Hv.
  destruct (responses (pred (calls st))) as [e | | e | parsed]; try discriminate.
  destruct parsed as [| | | | | data |]; try discriminate.
  destruct (extract_items String_of randomUUID 0 data) as [qs|] eqn:Hitems;
    [|discriminate].
  injection Hv as ->. exists data, qs.
  destruct (extract_items_spec _ _ _ _ _ Hitems)
    as [Hlen [Hfields [ks [Hids [_ Hsorted]]]]].
  split; [reflexivity|]. split; [reflexivity|]. split; [exact Hlen|]. split.
  - intros q Hin. destruct (Hfields q Hin) as [Hc Hs].
    split; [exact Hc|]. split; [exact Hs|].
    assert (Hid : In (field q "id") (map (fun q => field q "id") qs))
      by (apply in_map_iff; now exists q).
    rewrite Hids in Hid. apply in_map_iff in Hid.
    destruct Hid as [k [Hk _]]. now exists k.
  - intros Hinj. rewrite Hids. apply NoDup_map_injective.
    + intros a b [= Hab]. now apply Hinj.
    + now apply increasing_NoDup.
Qed.

Lemma extraction_gives_questions_witness :
  exists data qs,
    response_page = Parsed (JArr data) /\
    extracted_page = JArr qs /\
    List.length qs = List.length data /\
    (forall q, In q qs ->
       truthy (field q "content") = true /\
       truthy (field q "solution_guide") = true /\
       exists k, field q "id" = JStr (uuid_numbered k)) /\
    ((forall a b, uuid_numbered a = uuid_numbered b -> a = b) ->
     NoDup (map (fun q => field q "id") qs)).
Proof.
  apply (extraction_gives_questions (fun _ => "") uuid_numbered
           (Error_ "TypeError") (fun _ => response_page) half
           extracted_page (snd run_extract_page)).
  reflexivity.
Defined.

(** In the scenario the two sub-questions take the draws 0 and 1, the
    group the draw 2 and the short answer the draw 3, in place of the
    identifier the model gave. *)
Example scenario_extract_ids :
  match extracted_page with
  | JArr qs => map (fun q => field q "id") qs
  | _ => []
  end = [JStr "2"; JStr "3"].
Proof. reflexivity. Qed.

(** ** Responses that cannot be used *)

Lemma fatal_at_once {T : Type} (operation : nat -> Outcome T)
      (Math_random : nat -> Q) (retries delay : Z) (e : JsError) :
  operation 0%nat = Rejected e ->
  classify e = Fatal ->
  retryOperation operation Math_random retries delay retry_start
  = (Some (Rejected e), mkRetryState 1 0 [Attempt retries delay (Rejected e)]).
Proof.
  intros Hop Hfatal. unfold retryOperation. rewrite retryOperation_fuel_S.
  cbv zeta. cbn [retry_start calls draws timeline app]. rewrite Hop.
  destruct (classify_cases e) as [[Hc _] | [[Hc _] | [_ [Hrl Htr]]]];
    try congruence.
  rewrite Hrl, Htr. now destruct (retries <=? 0).
Qed.

(** X14.  A response without text costs one call of the model: each of
    the four API functions rejects with its own error after a single
    attempt, without a wait.  So does [extractQuestionsFromImage] on a
    response that parses to anything but an array. *)
Theorem unusable_response_not_retried
        (String_of : JsVal -> string) (randomUUID : nat -> string)
        (TypeError_thrown : JsError)
        (question : list (string * JsVal)) (responses : nat -> Response)
        (Math_random : nat -> Q) :
  (responses 0%nat = NoText ->
   regenerateQuestionData String_of randomUUID TypeError_thrown
                          question responses Math_random
   = (Some (Rejected (Error_ "Empty response from regeneration")),
      mkRetryState 1 0
        [Attempt 2 2000 (Rejected (Error_ "Empty response from regeneration"))]) /\
   solveSpecificQuestion String_of randomUUID TypeError_thrown
                         question responses Math_random
   = (Some (Rejected (Error_ "Empty")),
      mkRetryState 1 0 [Attempt 2 2000 (Rejected (Error_ "Empty"))]) /\
   solveQuestionBatch responses Math_random
   = (Some (Rejected (Error_ "Batch solve returned empty.")),
      mkRetryState 1 0
        [Attempt 2 2000 (Rejected (Error_ "Batch solve returned empty."))]) /\
   extractQuestionsFromImage String_of randomUUID TypeError_thrown
                             responses Math_random
   = (Some (Rejected (Error_ "No data returned from AI")),
      mkRetryState 1 0
        [Attempt 2 3000 (Rejected (Error_ "No data returned from AI"))])) /\
  (forall v, responses 0%nat = Parsed v -> (forall data, v <> JArr data) ->
   extractQuestionsFromImage String_of randomUUID TypeError_thrown
                             responses Math_random
   = (Some (Rejected (Error_ "No data returned from AI")),
      mkRetryState 1 0
        [Attempt 2 3000 (Rejected (Error_ "No data returned from AI"))])).
Proof.
  split.
  - intros H0.
    unfold regenerateQuestionData, solveSpecificQuestion, solveQuestionBatch,
      extractQuestionsFromImage, retryOperation_default.
    repeat split; apply fatal_at_once; try reflexivity;
      cbv beta; rewrite H0; reflexivity.
  - intros v H0 Hv. unfold extractQuestionsFromImage.
    apply fatal_at_once; [|reflexivity].
    cbv beta. rewrite H0. unfold extract_attempt.
    destruct v; try reflexivity. now elim (Hv items).
Qed.

Lemma unusable_response_not_retried_witness :
  extractQuestionsFromImage (fun _ => "") uuid_numbered (Error_ "TypeError")
                            (fun _ => Parsed (JObj [("error", JStr "none")])) half
  = (Some (Rejected (Error_ "No data returned from AI")),
     mkRetryState 1 0
       [Attempt 2 3000 (Rejected (Error_ "No data returned from AI"))]).
Proof.
  apply (proj2 (unusable_response_not_retried (fun _ => "") uuid_numbered
                  (Error_ "TypeError") question_q1
                  (fun _ => Parsed (JObj [("error", JStr "none")])) half)
               (JObj [("error", JStr "none")]) eq_refl).
  intros data. discriminate.
Defined.

(** ** The store: history *)

Lemma pushToHistory_length (s : Store.State) (nq : list JsVal) :
  (List.length (Store.past s) <= 50)%nat ->
  (List.length (Store.h_past (Store.pushToHistory s nq)) <= 50)%nat /\
  Store.h_future (Store.pushToHistory s nq) = [].
Proof.
  intros H. unfold Store.pushToHistory. cbn [Store.h_past Store.h_future].
  split; [|reflexivity].
  destruct (Nat.ltb 50 (List.length (Store.past s ++ [Store.questions s]))) eqn:E.
  - destruct (Store.past s ++ [Store.questions s]) as [|x l] eqn:El.
    + cbn. lia.
    + assert (Hl : List.length (x :: l) = S (List.length (Store.past s))).
      { rewrite <- El, length_app. cbn. lia. }
      cbn in Hl. cbn. lia.
  - apply Nat.ltb_ge in E. exact E.
Qed.

Lemma history_ok_pushed (s s' : Store.State) (nq : list JsVal) :
  history_ok s ->
  Store.past s' = Store.h_past (Store.pushToHistory s nq) ->
  Store.future s' = Store.h_future (Store.pushToHistory s nq) ->
  history_ok s'.
Proof.
  unfold history_ok. intros H Hp Hf.
  destruct (pushToHistory_length s nq) as [H1 H2]; [lia|].
  rewrite Hp, Hf, H2. cbn [List.length]. lia.
Qed.

Lemma removelast_shorter {A : Type} (x : A) (l : list A) :
  List.length (removelast (x :: l)) = List.length l.
Proof.
  revert x. induction l as [|y l IH]; intros x; [reflexivity|].
  change (removelast (x :: y :: l)) with (x :: removelast (y :: l)).
  cbn [List.length]. now rewrite IH.
Qed.

Lemma dispatch_history_ok (String_of : JsVal -> string) (s : Store.State)
      (a : Store.Action) :
  history_ok s -> history_ok (Store.dispatch String_of s a).
Proof.
  intros H. destruct a; cbn [Store.dispatch]; try exact H;
    try (unfold history_ok; cbn; lia).
  - eapply history_ok_pushed with (nq := []); [exact H| |]; reflexivity.
  - eapply history_ok_pushed with (nq := []); [exact H| |]; reflexivity.
  - unfold Store.updateQuestion.
    destruct (Store.array_some _ _) as [[|]|]; cbn; try exact H.
    destruct (Store.array_map _ _); cbn; exact H.
  - unfold Store.deleteQuestion.
    destruct (Store.array_filter _ _) as [nq|]; cbn [Store.unless_thrown]; [|exact H].
    eapply history_ok_pushed with (nq := []); [exact H| |]; reflexivity.
  - unfold Store.reorderQuestions.
    destruct (Store.splice_remove _ _) as [spliced result].
    eapply history_ok_pushed with (nq := []); [exact H| |]; reflexivity.
  - unfold Store.duplicateQuestion.
    destruct (Store.array_findIndex _ _) as [[i|]|]; cbn [Store.unless_thrown];
      try exact H.
    destruct (nth_error _ _) as [original|]; cbn [Store.unless_thrown]; try exact H.
    destruct (Store.duplicate_of _ _ _) as [nq|]; cbn [Store.unless_thrown];
      try exact H.
    eapply history_ok_pushed with (nq := []); [exact H| |]; reflexivity.
  - unfold Store.deleteMultipleQuestions.
    destruct (Store.array_filter _ _) as [nq|]; cbn [Store.unless_thrown]; [|exact H].
    eapply history_ok_pushed with (nq := []); [exact H| |]; reflexivity.
  - unfold Store.selectAllQuestions.
    destruct (Store.array_map _ _); cbn; exact H.
  - unfold Store.undo. destruct (Store.past s) as [|p ps] eqn:Ep; [exact H|].
    unfold history_ok in *.
    cbn [Store.set_history Store.past Store.future Store.h_past Store.h_future].
    rewrite Ep in H. rewrite removelast_shorter. cbn [List.length] in *. lia.
  - unfold Store.redo. destruct (Store.future s) as [|next newFuture] eqn:Ef;
      [exact H|].
    unfold history_ok in *.
    cbn [Store.set_history Store.past Store.future Store.h_past Store.h_future].
    rewrite Ef in H. rewrite length_app. cbn [List.length] in *. lia.
Qed.

Lemma after_history_ok (String_of : JsVal -> string) (acts : list Store.Action)
      (s : Store.State) :
  history_ok s -> history_ok (Store.after String_of s acts).
Proof.
  revert s. induction acts as [|a acts IH]; intros s H; [exact H|].
  apply IH. now apply dispatch_history_ok.
Qed.

(** X15.  The undo history never holds more than 50 lists: after any
    sequence of calls on the store, [past] and [future] together have at
    most 50 entries, and so has [past] alone. *)
Theorem history_bounded (String_of : JsVal -> string)
        (acts : list Store.Action) :
  let s := Store.after String_of Store.initial acts in
  (List.length (Store.past s) + List.length (Store.future s) <= 50)%nat /\
  (List.length (Store.past s) <= 50)%nat.
Proof.
  intros s.
  assert (H : history_ok s).
  { apply after_history_ok. unfold history_ok. cbn. lia. }
  unfold history_ok in H. lia.
Qed.

(** X16.  [undo] and [redo] are inverse to each other: redoing what was
    just undone, or undoing what was just redone, gives back the store
    as it was, every field of it. *)
Theorem undo_redo_inverse (s : Store.State) :
  (Store.past s <> [] -> Store.redo (Store.undo s) = s) /\
  (Store.future s <> [] -> Store.undo (Store.redo s) = s).
Proof.
  destruct s as [qs im pp pr sel err crop st pa fu mode sels]. split.
  - cbn. intros Hp. unfold Store.undo. cbn.
    destruct pa as [|p ps]; [contradiction|].
    unfold Store.redo. cbn [Store.set_history Store.future Store.h_future
      Store.past Store.h_past Store.questions Store.h_questions
      Store.imageBase64 Store.pdfPages Store.isProcessing
      Store.selectedQuestionId Store.error Store.croppingForQuestionId
      Store.solvingStatus Store.isSelectionMode Store.selectedQuestionIds].
    rewrite <- app_removelast_last by discriminate. reflexivity.
  - cbn. intros Hf. unfold Store.redo. cbn.
    destruct fu as [|next newFuture]; [contradiction|].
    unfold Store.undo. cbn [Store.set_history Store.future Store.h_future
      Store.past Store.h_past Store.questions Store.h_questions
      Store.imageBase64 Store.pdfPages Store.isProcessing
      Store.selectedQuestionId Store.error Store.croppingForQuestionId
      Store.solvingStatus Store.isSelectionMode Store.selectedQuestionIds].
    destruct (pa ++ [qs]) as [|x l] eqn:E.
    + now destruct pa.
    + rewrite <- E, last_last, removelast_last. reflexivity.
Qed.

Lemma undo_redo_inverse_witness :
  let s := Store.addQuestion (JObj [("id", JStr "b")])
             (Store.addQuestion (JObj [("id", JStr "a")]) Store.initial) in
  Store.redo (Store.undo s) = s /\
  Store.undo (Store.redo (Store.undo s)) = Store.undo s.
Proof.
  intros s. split.
  - apply (proj1 (undo_redo_inverse s)). discriminate.
  - apply (proj2 (undo_redo_inverse (Store.undo s))). discriminate.
Defined.

Lemma undoes_pushed (s s' : Store.State) :
  Store.past s' = Store.h_past (Store.pushToHistory s []) ->
  Store.future s' = [] ->
  Store.undoes s s'.
Proof.
  intros Hp Hf. unfold Store.undoes.
  assert (Hlast : exists older, Store.past s' = older ++ [Store.questions s]).
  { rewrite Hp. unfold Store.pushToHistory. cbn [Store.h_past].
    destruct (Nat.ltb 50 _) eqn:E.
    - destruct (Store.past s) as [|p ps]; [discriminate E|].
      exists ps. reflexivity.
    - now exists (Store.past s). }
  destruct Hlast as [older Ho].
  unfold Store.undo. rewrite Ho.
  destruct (older ++ [Store.questions s]) as [|x l] eqn:E.
  { now destruct older. }
  rewrite <- E, last_last, removelast_last.
  unfold Store.redo.
  cbn [Store.set_history Store.future Store.h_future Store.past Store.h_past
       Store.questions Store.h_questions].
  rewrite Hf. repeat split.
Qed.

(** X17.  Every change of the list that goes through [pushToHistory]
    can be undone and redone: after adding, deleting, moving or
    duplicating questions, [undo] puts the list of before back on screen
    and [redo] the list of after.  A duplication either leaves the store
    as it is or is such a change. *)
Theorem recorded_change_undone (String_of : JsVal -> string)
        (fresh : nat -> string) (s : Store.State) :
  (forall q, Store.undoes s (Store.addQuestion q s)) /\
  (forall qs, Store.undoes s (Store.addQuestions qs s)) /\
  (forall from to, Store.undoes s (Store.reorderQuestions from to s)) /\
  (forall id s', Store.deleteQuestion id s = Some s' -> Store.undoes s s') /\
  (forall ids s', Store.deleteMultipleQuestions ids s = Some s' ->
                  Store.undoes s s') /\
  (forall id s', Store.duplicateQuestion String_of fresh id s = Some s' ->
                 s' = s \/ Store.undoes s s').
Proof.
  split; [|split; [|split; [|split; [|split]]]].
  - intros q. apply undoes_pushed; reflexivity.
  - intros qs. apply undoes_pushed; reflexivity.
  - intros from to. unfold Store.reorderQuestions.
    destruct (Store.splice_remove _ _) as [spliced result].
    apply undoes_pushed; reflexivity.
  - intros id s'. unfold Store.deleteQuestion.
    destruct (Store.array_filter _ _) as [nq|]; [|discriminate].
    intros [= <-]. apply undoes_pushed; reflexivity.
  - intros ids s'. unfold Store.deleteMultipleQuestions.
    destruct (Store.array_filter _ _) as [nq|]; [|discriminate].
    intros [= <-]. apply undoes_pushed; reflexivity.
  - intros id s'. unfold Store.duplicateQuestion.
    destruct (Store.array_findIndex _ _) as [[i|]|]; try discriminate.
    + destruct (nth_error _ _) as [original|]; [|discriminate].
      destruct (Store.duplicate_of _ _ _) as [nq|]; [|discriminate].
      intros [= <-]. right. apply undoes_pushed; reflexivity.
    + intros [= <-]. now left.
Qed.

Lemma recorded_change_undone_witness :
  let s := Store.addQuestion (JObj [("id", JStr "a")]) Store.initial in
  exists s', Store.deleteQuestion "a" s = Some s' /\ Store.undoes s s'.
Proof.
  intros s. eexists. split; [reflexivity|].
  apply (proj1 (proj2 (proj2 (proj2
           (recorded_change_undone (fun _ => "") (fun _ => "") s)))) "a").
  reflexivity.
Defined.

(** ** The store: questions by identifier *)

Lemma field_merged (q updates : JsVal) (k : string) :
  field (Store.merged q updates) k
  = match obj_find (own_props updates) k with
    | Some x => x
    | None => field q k
    end.
Proof.
  unfold field, Store.merged, spread, obj_get. cbn [own_props].
  rewrite !obj_find_spread. cbn [obj_find].
  destruct (obj_find (own_props updates) k); [reflexivity|].
  now destruct (obj_find (own_props q) k).
Qed.

Lemma id_is_field (id : string) (q : JsVal) (b : bool) :
  Store.id_is id q = Some b -> strict_eq_str (field q "id") id = b.
Proof.
  unfold Store.id_is, get_prop, field.
  destruct q; try discriminate; now intros [= <-].
Qed.

Lemma array_some_false {A : Type} (test : A -> option bool) (l : list A) :
  Store.array_some test l = Some false ->
  forall x, In x l -> test x = Some false.
Proof.
  induction l as [|y l IH]; cbn [Store.array_some]; intros H x Hin.
  - destruct Hin.
  - destruct (test y) as [[|]|] eqn:E; try discriminate.
    destruct Hin as [<-|Hin]; [exact E | now apply IH].
Qed.

Lemma array_filter_spec {A : Type} (test : A -> option bool) (l r : list A) :
  Store.array_filter test l = Some r ->
  exists keep : A -> bool,
    (forall x, In x l -> test x = Some (keep x)) /\ r = filter keep l.
Proof.
  intros H.
  exists (fun x => match test x with Some true => true | _ => false end).
  revert r H. induction l as [|y l IH]; cbn [Store.array_filter]; intros r H.
  - injection H as <-. split; [intros x []|reflexivity].
  - destruct (test y) as [b|] eqn:E; [|discriminate].
    destruct (Store.array_filter test l) as [r'|]; [|discriminate].
    injection H as <-. destruct (IH r' eq_refl) as [H1 H2]. split.
    + intros x [<-|Hin]; [rewrite E; now destruct b | now apply H1].
    + cbn [filter]. rewrite E, H2. now destruct b.
Qed.

Lemma array_map_spec {A B : Type} (f : A -> option B) (l : list A) (r : list B) :
  Store.array_map f l = Some r -> Forall2 (fun x y => f x = Some y) l r.
Proof.
  unfold Store.array_map. revert r.
  induction l as [|x l IH]; cbn [map sequence]; intros r H.
  - injection H as <-. constructor.
  - destruct (f x) as [y|] eqn:E; [|discriminate].
    destruct (sequence (map f l)) as [r'|]; [|discriminate].
    injection H as <-. constructor; [exact E | now apply IH].
Qed.

Lemma map_unless {A : Type} (test : A -> bool) (f : A -> A) (l : list A) :
  (forall x, In x l -> test x = false) ->
  map (fun x => if test x then f x else x) l = l.
Proof.
  induction l as [|x l IH]; intros H; [reflexivity|].
  cbn [map]. rewrite (H x (or_introl eq_refl)). f_equal.
  apply IH. intros y Hy. apply H. now right.
Qed.

Lemma updateQuestion_questions (id : string) (updates : JsVal)
      (s s' : Store.State) :
  Store.updateQuestion id updates s = Some s' ->
  s' = Store.set_questions s (Store.questions s') /\
  Store.questions s'
  = map (fun q => if strict_eq_str (field q "id") id
                  then Store.merged q updates else q) (Store.questions s).
Proof.
  unfold Store.updateQuestion.
  destruct (Store.array_some _ _) as [[|]|] eqn:Es; try discriminate.
  - destruct (Store.array_map _ _) as [nq|] eqn:Em; [|discriminate].
    intros [= <-]. split; [reflexivity|].
    cbn [Store.set_questions Store.questions].
    apply array_map_spec in Em. clear Es.
    induction Em as [|q y l r Hy _ IH]; [reflexivity|].
    cbn [map]. rewrite <- IH. f_equal.
    destruct (Store.id_is id q) as [b|] eqn:E; [|discriminate].
    rewrite (id_is_field _ _ _ E). destruct b; now injection Hy.
  - intros [= <-]. split; [now destruct s|].
    pose proof (array_some_false _ _ Es) as Hall.
    symmetry. apply map_unless. intros q Hin.
    exact (id_is_field _ _ _ (Hall q Hin)).
Qed.

(** X18.  [updateQuestion] rewrites the questions with the identifier in
    place and nothing else: every question with another identifier is
    kept, one with the identifier becomes [{ ...q, ...updates }], the
    order and the number of questions stay, and so does every other
    field of the store.  Unlike the other edits it records no history,
    so [undo] does not take it back.  Updates without an [id] leave the
    identifiers as they are. *)
Theorem update_in_place (id : string) (updates : JsVal) (s s' : Store.State) :
  Store.updateQuestion id updates s = Some s' ->
  s' = Store.set_questions s (Store.questions s') /\
  Store.questions s'
  = map (fun q => if strict_eq_str (field q "id") id
                  then Store.merged q updates else q) (Store.questions s) /\
  (forall k, obj_find (own_props updates) k = None ->
             map (fun q => field q k) (Store.questions s')
             = map (fun q => field q k) (Store.questions s)) /\
  ((forall q, In q (Store.questions s) -> strict_eq_str (field q "id") id = false)
   -> s' = s).
Proof.
  intros H. pose proof (updateQuestion_questions _ _ _ _ H) as Hq.
  destruct Hq as [Hs Hq]. split; [exact Hs|]. split; [exact Hq|]. split.
  - intros k Hk. rewrite Hq, map_map. apply map_ext. intros q.
    destruct (strict_eq_str (field q "id") id); [|reflexivity].
    now rewrite field_merged, Hk.
  - intros Hno. rewrite Hs, Hq. destruct s as [qs im pp pr sel err crop st pa fu mode sels].
    unfold Store.set_questions. cbn in *. f_equal.
    now apply map_unless.
Qed.

Lemma update_in_place_witness :
  let s := Store.addQuestions [JObj [("id", JStr "a"); ("content", JStr "x")];
                               JObj [("id", JStr "b"); ("content", JStr "y")]]
                              Store.initial in
  exists s', Store.updateQuestion "b" (JObj [("content", JStr "z")]) s = Some s' /\
             Store.questions s'
             = [JObj [("id", JStr "a"); ("content", JStr "x")];
                JObj [("id", JStr "b"); ("content", JStr "z")]] /\
             Store.past s' = Store.past s.
Proof.
  intros s. eexists. split; [reflexivity|].
  destruct (update_in_place "b" (JObj [("content", JStr "z")]) s _ eq_refl)
    as (Hs & Hq & _).
  split; [exact Hq | reflexivity].
Defined.

Lemma array_filter_None {A : Type} (test : A -> option bool) (l : list A) :
  Store.array_filter test l = None -> exists x, In x l /\ test x = None.
Proof.
  induction l as [|y l IH]; cbn [Store.array_filter]; [discriminate|].
  destruct (test y) as [b|] eqn:E.
  - destruct (Store.array_filter test l) as [r|]; [discriminate|].
    intros _. destruct (IH eq_refl) as (x & Hin & Hx).
    exists x. split; [now right | exact Hx].
  - intros _. exists y. split; [now left | exact E].
Qed.

Lemma obj_find_delete_same (props : list (string * JsVal)) (k : string) :
  obj_find (Store.obj_delete props k) k = None.
Proof.
  unfold Store.obj_delete.
  induction props as [|[k' v] props IH]; [reflexivity|].
  cbn [filter fst]. destruct (String.eqb_spec k' k) as [->|Hne]; cbn [negb].
  - exact IH.
  - cbn [obj_find]. rewrite IH. now destruct (String.eqb_spec k' k).
Qed.

Lemma obj_find_delete_other (props : list (string * JsVal)) (k k0 : string) :
  k <> k0 ->
  obj_find (Store.obj_delete props k) k0 = obj_find props k0.
Proof.
  intros Hne. unfold Store.obj_delete.
  induction props as [|[k' v] props IH]; [reflexivity|].
  cbn [filter fst]. destruct (String.eqb_spec k' k) as [->|Hne']; cbn [negb].
  - cbn [obj_find]. rewrite IH. destruct (obj_find props k0); [reflexivity|].
    now destruct (String.eqb_spec k k0).
  - cbn [obj_find]. now rewrite IH.
Qed.

Lemma id_is_None (id : string) (q : JsVal) :
  Store.id_is id q = None <-> q = JUndefined \/ q = JNull.
Proof.
  unfold Store.id_is, get_prop. split.
  - destruct q; try discriminate; auto.
  - now intros [-> | ->].
Qed.

Lemma delete_removes_None (id : string) (s : Store.State) :
  Store.deleteQuestion id s = None <->
  exists q, In q (Store.questions s) /\ (q = JUndefined \/ q = JNull).
Proof.
  unfold Store.deleteQuestion.
  destruct (Store.array_filter _ _) as [nq|] eqn:Ef.
  - split; [discriminate|]. intros (q & Hin & Hq).
    destruct (array_filter_spec _ _ _ Ef) as (keep & Hk & _).
    specialize (Hk q Hin). destruct Hq as [-> | ->]; discriminate Hk.
  - split; [|reflexivity]. intros _.
    apply array_filter_None in Ef. destruct Ef as (q & Hin & Hq).
    exists q. split; [exact Hin|]. apply (id_is_None id).
    now destruct (Store.id_is id q).
Qed.

(** X19.  [deleteQuestion] removes exactly the questions with the
    identifier: the others stay, in their order; the identifier has no
    entry left in [solvingStatus] and is no longer the selected
    question.  It throws, and changes nothing, only when the list holds
    [undefined] or [null]. *)
Theorem delete_removes (id : string) (s : Store.State) :
  (forall s', Store.deleteQuestion id s = Some s' ->
     Store.questions s'
     = filter (fun q => negb (strict_eq_str (field q "id") id))
              (Store.questions s) /\
     (forall q, In q (Store.questions s') ->
                strict_eq_str (field q "id") id = false) /\
     obj_find (Store.solvingStatus s') id = None /\
     (forall k, k <> id -> obj_find (Store.solvingStatus s') k
                           = obj_find (Store.solvingStatus s) k) /\
     Store.selectedQuestionId s' <> Some id /\
     (Store.selectedQuestionId s <> Some id ->
      Store.selectedQuestionId s' = Store.selectedQuestionId s)) /\
  (Store.deleteQuestion id s = None <->
   exists q, In q (Store.questions s) /\ (q = JUndefined \/ q = JNull)).
Proof.
  split.
  - intros s'. unfold Store.deleteQuestion.
    destruct (Store.array_filter _ _) as [nq|] eqn:Ef; [|discriminate].
    intros [= <-].
    cbn [Store.set_selectedQuestionId Store.set_solvingStatus Store.set_history
         Store.questions Store.solvingStatus Store.selectedQuestionId
         Store.pushToHistory Store.h_questions].
    assert (Hq : nq = filter (fun q => negb (strict_eq_str (field q "id") id))
                             (Store.questions s)).
    { destruct (array_filter_spec _ _ _ Ef) as (keep & Hk & ->).
      apply filter_ext_in. intros q Hin. specialize (Hk q Hin).
      destruct (Store.id_is id q) as [b|] eqn:E; [|discriminate].
      rewrite (id_is_field _ _ _ E). now injection Hk. }
    split; [exact Hq|]. split; [|split; [|split; [|split]]].
    + intros q Hin. rewrite Hq in Hin. apply filter_In in Hin.
      destruct Hin as [_ Hin]. now apply negb_true_iff in Hin.
    + apply obj_find_delete_same.
    + intros k Hk. rewrite obj_find_delete_other by congruence.
      unfold spread. cbn [own_props]. rewrite obj_find_spread.
      now destruct (obj_find (Store.solvingStatus s) k).
    + unfold Store.unselect. destruct (Store.selectedQuestionId s) as [x|];
        [|discriminate].
      destruct (String.eqb_spec x id); congruence.
    + intros Hne. unfold Store.unselect.
      destruct (Store.selectedQuestionId s) as [x|]; [|reflexivity].
      destruct (String.eqb_spec x id); congruence.
  - apply delete_removes_None.
Qed.

Lemma delete_removes_witness :
  let s := Store.setQuestionSolvingStatus "a" true
             (Store.setSelectedQuestion (Some "a")
                (Store.addQuestions [JObj [("id", JStr "a")]; JObj [("id", JStr "b")];
                                     JObj [("id", JStr "a")]]
                                    Store.initial)) in
  exists s', Store.deleteQuestion "a" s = Some s' /\
             Store.questions s' = [JObj [("id", JStr "b")]] /\
             obj_find (Store.solvingStatus s') "a" = None /\
             Store.selectedQuestionId s' <> Some "a".
Proof.
  intros s. eexists. split; [reflexivity|].
  destruct (proj1 (delete_removes "a" s) _ eq_refl) as (Hq & _ & Hs & _ & Hsel & _).
  split; [exact Hq|]. split; [exact Hs | exact Hsel].
Defined.

(** ** The store: moving and copying questions *)

Lemma splice_remove_at {A : Type} (a b : list A) (x : A) :
  Store.splice_remove (a ++ x :: b) (Z.of_nat (List.length a))
  = (Some x, a ++ b).
Proof.
  unfold Store.splice_remove.
  assert (Hk : (if Z.of_nat (List.length a) <? 0
                then Z.max (Z.of_nat (List.length (a ++ x :: b))
                            + Z.of_nat (List.length a)) 0
                else Z.min (Z.of_nat (List.length a))
                           (Z.of_nat (List.length (a ++ x :: b))))
               = Z.of_nat (List.length a)).
  { rewrite length_app. cbn [List.length].
    destruct (Z.ltb_spec (Z.of_nat (List.length a)) 0); lia. }
  rewrite Hk, Nat2Z.id. f_equal.
  - rewrite nth_error_app2 by lia. now rewrite Nat.sub_diag.
  - rewrite firstn_app, firstn_all, Nat.sub_diag. cbn [firstn].
    rewrite app_nil_r. f_equal.
    rewrite skipn_app, skipn_all2 by lia.
    replace (S (List.length a) - List.length a)%nat with 1%nat by lia.
    reflexivity.
Qed.

Lemma split_before {A : Type} (l : list A) (n : nat) :
  (n <= List.length l)%nat ->
  exists a b, l = a ++ b /\ List.length a = n.
Proof.
  intros H. exists (firstn n l), (skipn n l). split.
  - symmetry. apply firstn_skipn.
  - apply firstn_length_le. exact H.
Qed.

Lemma split_at {A : Type} (l : list A) (n : nat) :
  (n < List.length l)%nat ->
  exists a x b, l = a ++ x :: b /\ List.length a = n.
Proof.
  intros H. destruct (nth_error l n) as [x|] eqn:E.
  - apply nth_error_split in E. destruct E as (a & b & -> & Ha).
    now exists a, x, b.
  - apply nth_error_None in E. lia.
Qed.

(** X20.  [reorderQuestions] with both indices inside the list moves one
    question and loses none: the new list is a permutation of the old
    one, the question that was at [fromIndex] is at [toIndex], and the
    other questions keep their order. *)
Theorem reorder_moves_one (fromIndex toIndex : Z) (s : Store.State) :
  0 <= fromIndex < Z.of_nat (List.length (Store.questions s)) ->
  0 <= toIndex < Z.of_nat (List.length (Store.questions s)) ->
  let s' := Store.reorderQuestions fromIndex toIndex s in
  Permutation (Store.questions s) (Store.questions s') /\
  (exists q, nth_error (Store.questions s) (Z.to_nat fromIndex) = Some q /\
             nth_error (Store.questions s') (Z.to_nat toIndex) = Some q) /\
  snd (Store.splice_remove (Store.questions s') toIndex)
  = snd (Store.splice_remove (Store.questions s) fromIndex).
Proof.
  intros Hf Ht s'.
  destruct (split_at (Store.questions s) (Z.to_nat fromIndex)) as (a & x & b & Hq & Ha);
    [lia|].
  assert (Hfrom : fromIndex = Z.of_nat (List.length a)) by lia.
  assert (Hlen : List.length (Store.questions s) = S (List.length (a ++ b))).
  { rewrite Hq, !length_app. cbn [List.length]. lia. }
  destruct (split_before (a ++ b) (Z.to_nat toIndex)) as (c & d & Hcd & Hc); [lia|].
  assert (Hto : toIndex = Z.of_nat (List.length c)) by lia.
  assert (Hs' : Store.questions s' = c ++ x :: d).
  { unfold s', Store.reorderQuestions. rewrite Hq, Hfrom, splice_remove_at.
    cbn [Store.set_history Store.questions Store.pushToHistory Store.h_questions].
    rewrite Hcd, Hto. apply splice_insert_at. }
  rewrite Hs'. split; [|split].
  - rewrite Hq. etransitivity; [symmetry; apply Permutation_middle|].
    rewrite Hcd. apply Permutation_middle.
  - exists x. split.
    + rewrite Hq, <- Ha, nth_error_app2 by lia. now rewrite Nat.sub_diag.
    + rewrite <- Hc, nth_error_app2 by lia. now rewrite Nat.sub_diag.
  - rewrite Hto, splice_remove_at. rewrite Hq, Hfrom, splice_remove_at.
    cbn [snd]. now symmetry.
Qed.

Lemma reorder_moves_one_witness :
  let s := Store.addQuestions [JStr "a"; JStr "b"; JStr "c"; JStr "d"]
                              Store.initial in
  Store.questions (Store.reorderQuestions 0 2 s)
  = [JStr "b"; JStr "c"; JStr "a"; JStr "d"] /\
  Permutation (Store.questions s)
              (Store.questions (Store.reorderQuestions 0 2 s)).
Proof.
  intros s. split; [reflexivity|].
  apply (reorder_moves_one 0 2 s); cbn; lia.
Defined.

(** X21.  [reorderQuestions] with a [fromIndex] at or beyond the end of
    the list removes nothing and inserts [undefined]: the list gets one
    entry longer, and from then on [deleteQuestion] throws for every
    identifier. *)
Theorem reorder_beyond_end (fromIndex toIndex : Z) (s : Store.State) :
  Z.of_nat (List.length (Store.questions s)) <= fromIndex ->
  let s' := Store.reorderQuestions fromIndex toIndex s in
  Store.questions s' = splice_insert (Store.questions s) toIndex JUndefined /\
  List.length (Store.questions s') = S (List.length (Store.questions s)) /\
  In JUndefined (Store.questions s') /\
  forall id, Store.deleteQuestion id s' = None.
Proof.
  intros Hf s'.
  assert (Hs' : Store.questions s'
                = splice_insert (Store.questions s) toIndex JUndefined).
  { unfold s', Store.reorderQuestions, Store.splice_remove.
    assert (Hk : (if fromIndex <? 0
                  then Z.max (Z.of_nat (List.length (Store.questions s)) + fromIndex) 0
                  else Z.min fromIndex (Z.of_nat (List.length (Store.questions s))))
                 = Z.of_nat (List.length (Store.questions s))).
    { destruct (Z.ltb_spec fromIndex 0); lia. }
    rewrite Hk, Nat2Z.id.
    assert (Hn : nth_error (Store.questions s) (List.length (Store.questions s)) = None)
      by (apply nth_error_None; lia).
    rewrite Hn, firstn_all, skipn_all2 by lia. rewrite app_nil_r. reflexivity. }
  assert (Hin : In JUndefined (Store.questions s')).
  { rewrite Hs'. unfold splice_insert. apply in_or_app. right. now left. }
  split; [exact Hs'|]. split; [|split; [exact Hin|]].
  - rewrite Hs'. unfold splice_insert.
    rewrite length_app. cbn [List.length].
    rewrite Nat.add_succ_r, <- length_app, firstn_skipn. reflexivity.
  - intros id. apply (proj2 (delete_removes_None id s')).
    exists JUndefined. split; [exact Hin | now left].
Qed.

Lemma reorder_beyond_end_witness :
  let s := Store.addQuestions [JStr "a"; JStr "b"] Store.initial in
  Store.questions (Store.reorderQuestions 5 0 s)
  = [JUndefined; JStr "a"; JStr "b"].
Proof.
  intros s.
  rewrite (proj1 (reorder_beyond_end 5 0 s ltac:(cbn; lia))). reflexivity.
Defined.

Lemma array_findIndex_first {A : Type} (test : A -> option bool)
      (before : list A) (x : A) (after : list A) :
  (forall y, In y before -> test y = Some false) ->
  test x = Some true ->
  forall i, Store.array_findIndex_from test i (before ++ x :: after)
            = Some (Some (i + List.length before)%nat).
Proof.
  intros Hb Hx. induction before as [|y before IH]; intros i;
    cbn [app Store.array_findIndex_from List.length].
  - now rewrite Hx, Nat.add_0_r.
  - rewrite (Hb y (or_introl eq_refl)).
    rewrite IH by (intros z Hz; apply Hb; now right).
    do 2 f_equal. lia.
Qed.

Lemma array_findIndex_none {A : Type} (test : A -> option bool) (l : list A) :
  (forall y, In y l -> test y = Some false) ->
  forall i, Store.array_findIndex_from test i l = Some None.
Proof.
  intros Hl. induction l as [|y l IH]; intros i;
    cbn [Store.array_findIndex_from]; [reflexivity|].
  rewrite (Hl y (or_introl eq_refl)). apply IH. intros z Hz. apply Hl. now right.
Qed.

Lemma obj_get_spread (v : JsVal) (k : string) :
  obj_get (spread [] v) k = field v k.
Proof.
  unfold field, obj_get, spread. rewrite obj_find_spread.
  now destruct (obj_find (own_props v) k).
Qed.

Lemma renumbered_spec (fresh : nat -> string) (subs : list JsVal) :
  List.length (Store.renumbered fresh subs) = List.length subs /\
  forall i sq, nth_error subs i = Some sq ->
    exists sq', nth_error (Store.renumbered fresh subs) i = Some sq' /\
                field sq' "id" = JStr (fresh (S i)) /\
                forall k, k <> "id" -> field sq' k = field sq k.
Proof.
  unfold Store.renumbered. split.
  - rewrite length_map, length_combine, length_seq. lia.
  - intros i sq Hi. eexists. split.
    + rewrite nth_error_map, nth_error_numbered, Hi. cbn [option_map fst snd].
      reflexivity.
    + split.
      * unfold field. cbn [own_props]. apply obj_get_set_same.
      * intros k Hk. unfold field at 1. cbn [own_props].
        rewrite obj_get_set_other by congruence. apply obj_get_spread.
Qed.

(** X22.  [duplicateQuestion] puts a copy right after the first question
    with the identifier and touches no other question.  The copy has
    the first identifier drawn, the content of the original followed by
    [" (Sao chép)"], and every other field of the original; in a
    true/false group each sub-question is copied with an identifier of
    its own, the next ones drawn. *)
Theorem duplicate_inserts_copy (String_of : JsVal -> string)
        (fresh : nat -> string) (id : string) (s s' : Store.State)
        (before : list JsVal) (original : JsVal) (after : list JsVal) :
  Store.questions s = before ++ original :: after ->
  (forall q, In q before -> Store.id_is id q = Some false) ->
  Store.id_is id original = Some true ->
  Store.duplicateQuestion String_of fresh id s = Some s' ->
  exists copy,
    Store.questions s' = before ++ original :: copy :: after /\
    field copy "id" = JStr (fresh 0%nat) /\
    field copy "content"
    = JStr (Store.template_text String_of (field original "content")
            ++ " (Sao chép)")%string /\
    (forall k, k <> "id" -> k <> "content" -> k <> "sub_questions" ->
               field copy k = field original k) /\
    (strict_eq_str (field original "type") "true_false_group" = false ->
     field copy "sub_questions" = field original "sub_questions") /\
    (strict_eq_str (field original "type") "true_false_group" = true ->
     exists subs subs',
       field original "sub_questions" = JArr subs /\
       field copy "sub_questions" = JArr subs' /\
       List.length subs' = List.length subs /\
       forall i sq, nth_error subs i = Some sq ->
         exists sq', nth_error subs' i = Some sq' /\
                     field sq' "id" = JStr (fresh (S i)) /\
                     forall k, k <> "id" -> field sq' k = field sq k).
Proof.
  intros Hq Hb Ho. unfold Store.duplicateQuestion, Store.array_findIndex.
  rewrite Hq, (array_findIndex_first _ _ _ _ Hb Ho). cbn [Nat.add].
  rewrite nth_error_app2, Nat.sub_diag by lia. cbn [nth_error].
  destruct (Store.duplicate_of String_of fresh original) as [copy|] eqn:Ed;
    [|discriminate].
  intros [= <-]. exists copy.
  cbn [Store.set_history Store.questions Store.pushToHistory Store.h_questions].
  split.
  { replace (Z.of_nat (List.length before) + 1)
      with (Z.of_nat (List.length (before ++ [original])))
      by (rewrite length_app; cbn [List.length]; lia).
    replace (before ++ original :: after) with ((before ++ [original]) ++ after)
      by (now rewrite <- app_assoc).
    rewrite splice_insert_at. now rewrite <- app_assoc. }
  revert Ed. unfold Store.duplicate_of.
  set (np := obj_set (obj_set (spread [] original) "id" (JStr (fresh 0%nat)))
                     "content" _).
  assert (Hid : obj_get np "id" = JStr (fresh 0%nat)).
  { unfold np. rewrite obj_get_set_other by discriminate. apply obj_get_set_same. }
  assert (Hcontent : obj_get np "content"
                     = JStr (Store.template_text String_of (field original "content")
                             ++ " (Sao chép)")%string).
  { unfold np. apply obj_get_set_same. }
  assert (Hother : forall k, k <> "id" -> k <> "content" ->
                             obj_get np k = field original k).
  { intros k H1 H2. unfold np. rewrite !obj_get_set_other by congruence.
    apply obj_get_spread. }
  rewrite (Hother "type") by discriminate.
  destruct (strict_eq_str (field original "type") "true_false_group") eqn:Et.
  - rewrite (Hother "sub_questions") by discriminate.
    destruct (field original "sub_questions") as [| | | | |subs|] eqn:Es;
      try discriminate.
    intros [= <-]. unfold field at 1 2 3 4. cbn [own_props].
    rewrite !obj_get_set_other by discriminate.
    split; [exact Hid|]. split; [exact Hcontent|]. split; [|split].
    + intros k H1 H2 H3. unfold field at 1. cbn [own_props].
      rewrite obj_get_set_other by congruence. now apply Hother.
    + discriminate.
    + intros _. exists subs, (Store.renumbered fresh subs).
      split; [reflexivity|]. split.
      * unfold field. cbn [own_props]. apply obj_get_set_same.
      * apply renumbered_spec.
  - intros [= <-]. unfold field at 1 2 3 4. cbn [own_props].
    split; [exact Hid|]. split; [exact Hcontent|]. split; [|split].
    + intros k H1 H2 H3. unfold field at 1. cbn [own_props]. now apply Hother.
    + intros _. unfold field at 1. cbn [own_props]. now apply Hother.
    + discriminate.
Qed.

Lemma duplicate_inserts_copy_witness :
  let group := JObj [("id", JStr "g"); ("type", JStr "true_false_group");
                     ("content", JStr "Xét");
                     ("sub_questions",
                      JArr [JObj [("id", JStr "s1"); ("content", JStr "a")];
                            JObj [("id", JStr "s2"); ("content", JStr "b")]])] in
  let s := Store.addQuestions [JObj [("id", JStr "a")]; group] Store.initial in
  exists s' copy,
    Store.duplicateQuestion (fun _ => "") uuid_numbered "g" s = Some s' /\
    Store.questions s' = [JObj [("id", JStr "a")]; group; copy] /\
    field copy "id" = JStr "0" /\
    field copy "content" = JStr "Xét (Sao chép)".
Proof.
  intros group s.
  exists (Store.unless_thrown s
            (Store.duplicateQuestion (fun _ => "") uuid_numbered "g" s)).
  destruct (duplicate_inserts_copy (fun _ => "") uuid_numbered "g" s
              (Store.unless_thrown s
                 (Store.duplicateQuestion (fun _ => "") uuid_numbered "g" s))
              [JObj [("id", JStr "a")]] group [] eq_refl)
    as (copy & Hq & Hi & Hc & _).
  - intros q [<-|[]]. reflexivity.
  - reflexivity.
  - reflexivity.
  - exists copy. split; [reflexivity|]. split; [exact Hq|]. split; [exact Hi|exact Hc].
Defined.

(** ** The store: selection *)

Lemma existsb_filter_other (x id : string) (sel : list JsVal) :
  x <> id ->
  existsb (fun qid => strict_eq_str qid x)
          (filter (fun qid => negb (strict_eq_str qid id)) sel)
  = existsb (fun qid => strict_eq_str qid x) sel.
Proof.
  intros Hne. induction sel as [|v sel IH]; [reflexivity|].
  cbn [filter existsb].
  destruct (strict_eq_str v id) eqn:Ev; cbn [negb existsb]; rewrite IH.
  - destruct v; try discriminate Ev. cbn in Ev |- *.
    apply String.eqb_eq in Ev. subst s.
    destruct (String.eqb_spec id x); [congruence | reflexivity].
  - reflexivity.
Qed.

Lemma existsb_filter_same (id : string) (sel : list JsVal) :
  existsb (fun qid => strict_eq_str qid id)
          (filter (fun qid => negb (strict_eq_str qid id)) sel) = false.
Proof.
  induction sel as [|v sel IH]; [reflexivity|].
  cbn [filter]. destruct (strict_eq_str v id) eqn:Ev; cbn [negb]; [exact IH|].
  cbn [existsb]. now rewrite Ev, IH.
Qed.

(** X23.  [toggleQuestionSelection] flips the selection of its question
    and of no other: afterwards the identifier is selected exactly when
    it was not before, every other identifier is selected exactly when
    it was, and toggling twice gives the selection of before. *)
Theorem toggle_flips_one (id : string) (s : Store.State) :
  Store.is_selected id (Store.toggleQuestionSelection id s)
  = negb (Store.is_selected id s) /\
  (forall x, x <> id ->
     Store.is_selected x (Store.toggleQuestionSelection id s)
     = Store.is_selected x s) /\
  (forall x,
     Store.is_selected x (Store.toggleQuestionSelection id
                            (Store.toggleQuestionSelection id s))
     = Store.is_selected x s).
Proof.
  assert (H1 : forall s, Store.is_selected id (Store.toggleQuestionSelection id s)
                         = negb (Store.is_selected id s)).
  { intros t. unfold Store.toggleQuestionSelection.
    destruct (Store.is_selected id t) eqn:E;
      unfold Store.is_selected in *; cbn [Store.set_selectedQuestionIds
                                          Store.selectedQuestionIds negb].
    - apply existsb_filter_same.
    - rewrite existsb_app, E. cbn. now rewrite String.eqb_refl. }
  assert (H2 : forall s x, x <> id ->
                 Store.is_selected x (Store.toggleQuestionSelection id s)
                 = Store.is_selected x s).
  { intros t x Hne. unfold Store.toggleQuestionSelection.
    destruct (Store.is_selected id t) eqn:E;
      unfold Store.is_selected in *; cbn [Store.set_selectedQuestionIds
                                          Store.selectedQuestionIds].
    - now apply existsb_filter_other.
    - rewrite existsb_app. cbn.
      destruct (String.eqb_spec id x); [congruence|].
      now rewrite orb_false_r. }
  split; [apply H1|]. split; [apply H2|].
  intros x. destruct (string_dec x id) as [->|Hne].
  - rewrite !H1. apply negb_involutive.
  - now rewrite !H2.
Qed.

Lemma obj_find_delete_all (ids : list string) :
  forall (props : list (string * JsVal)) (k : string),
    obj_find (fold_left Store.obj_delete ids props) k
    = if existsb (String.eqb k) ids then None else obj_find props k.
Proof.
  induction ids as [|id ids IH]; intros props k; cbn [fold_left existsb];
    [reflexivity|].
  rewrite IH. destruct (existsb (String.eqb k) ids); [now rewrite orb_true_r|].
  rewrite orb_false_r. destruct (String.eqb_spec k id) as [->|Hne].
  - apply obj_find_delete_same.
  - apply obj_find_delete_other. congruence.
Qed.

(** X24.  [deleteMultipleQuestions] keeps exactly the questions whose
    identifier is none of those given, in their order, drops the
    [solvingStatus] entries of the identifiers given and of no other,
    and ends the selection: no identifier stays selected and the
    selection mode is off.  With a single identifier it leaves the list
    [deleteQuestion] leaves. *)
Theorem delete_multiple_removes (ids : list string) (s s' : Store.State) :
  Store.deleteMultipleQuestions ids s = Some s' ->
  Store.questions s'
  = filter (fun q => negb (existsb (strict_eq_str (field q "id")) ids))
           (Store.questions s) /\
  (forall k, obj_find (Store.solvingStatus s') k
             = if existsb (String.eqb k) ids then None
               else obj_find (Store.solvingStatus s) k) /\
  Store.selectedQuestionIds s' = [] /\
  Store.isSelectionMode s' = false /\
  (forall id, ids = [id] ->
     exists s1, Store.deleteQuestion id s = Some s1 /\
                Store.questions s1 = Store.questions s').
Proof.
  unfold Store.deleteMultipleQuestions.
  destruct (Store.array_filter _ _) as [nq|] eqn:Ef; [|discriminate].
  intros [= <-].
  cbn [Store.set_isSelectionMode Store.set_selectedQuestionIds
       Store.set_solvingStatus Store.set_history Store.questions
       Store.solvingStatus Store.selectedQuestionIds Store.isSelectionMode
       Store.pushToHistory Store.h_questions].
  destruct (array_filter_spec _ _ _ Ef) as (keep & Hk & Hnq).
  assert (Hkeep : forall q, In q (Store.questions s) ->
            keep q = negb (existsb (strict_eq_str (field q "id")) ids)).
  { intros q Hin. specialize (Hk q Hin). unfold Store.id_not_among in Hk.
    unfold field. destruct q; cbn in Hk |- *; try discriminate Hk;
      now injection Hk. }
  split; [|split; [|split; [reflexivity|split; [reflexivity|]]]].
  - rewrite Hnq. now apply filter_ext_in.
  - intros k. rewrite obj_find_delete_all.
    destruct (existsb (String.eqb k) ids); [reflexivity|].
    unfold spread. cbn [own_props]. rewrite obj_find_spread.
    now destruct (obj_find (Store.solvingStatus s) k).
  - intros id ->. unfold Store.deleteQuestion.
    destruct (Store.array_filter (fun q => option_map negb (Store.id_is id q))
                                 (Store.questions s)) as [nq1|] eqn:Ef1.
    + eexists. split; [reflexivity|].
      cbn [Store.set_selectedQuestionId Store.set_solvingStatus
           Store.set_history Store.questions Store.pushToHistory
           Store.h_questions].
      destruct (array_filter_spec _ _ _ Ef1) as (keep1 & Hk1 & ->).
      rewrite Hnq. apply filter_ext_in. intros q Hin.
      rewrite (Hkeep q Hin). specialize (Hk1 q Hin).
      destruct (Store.id_is id q) as [b|] eqn:E; [|discriminate].
      rewrite <- (id_is_field _ _ _ E) in Hk1. cbn in Hk1 |- *.
      rewrite orb_false_r. now injection Hk1.
    + exfalso. apply array_filter_None in Ef1.
      destruct Ef1 as (q & Hin & Hq). specialize (Hk q Hin).
      unfold Store.id_not_among in Hk. unfold Store.id_is in Hq.
      destruct (get_prop q "id"); discriminate.
Qed.

Lemma delete_multiple_removes_witness :
  let s := Store.toggleQuestionSelection "a"
             (Store.toggleSelectionMode
                (Store.addQuestions [JObj [("id", JStr "a")]; JObj [("id", JStr "b")];
                                     JObj [("id", JStr "c")]]
                                    Store.initial)) in
  exists s', Store.deleteMultipleQuestions ["a"; "c"] s = Some s' /\
             Store.questions s' = [JObj [("id", JStr "b")]] /\
             Store.selectedQuestionIds s' = [] /\
             Store.isSelectionMode s' = false.
Proof.
  intros s. eexists. split; [reflexivity|].
  destruct (delete_multiple_removes ["a"; "c"] s _ eq_refl)
    as (Hq & _ & Hs & Hm & _).
  split; [exact Hq|]. split; [exact Hs | exact Hm].
Defined.

(** ** The handlers *)









(** ** Text with formulas *)

Lemma append_nil_r (s : string) : (s ++ "")%string = s.
Proof. induction s as [|c s IH]; cbn; [reflexivity | now rewrite IH]. Qed.

Lemma append_assoc (a b c : string) :
  ((a ++ b) ++ c)%string = (a ++ b ++ c)%string.
Proof. induction a as [|x a IH]; cbn; [reflexivity | now rewrite IH]. Qed.

Lemma length_append (a b : string) :
  String.length (a ++ b) = (String.length a + String.length b)%nat.
Proof. induction a as [|x a IH]; cbn; [reflexivity | now rewrite IH]. Qed.

Lemma concat_empty_cons (x : string) (l : list string) :
  String.concat "" (x :: l) = (x ++ String.concat "" l)%string.
Proof.
  destruct l as [|y l]; cbn [String.concat]; [now rewrite append_nil_r|].
  reflexivity.
Qed.

Lemma find_dollar_sound (s inner after : string) :
  find_dollar s = Some (inner, after) ->
  s = (inner ++ "$" ++ after)%string.
Proof.
  revert inner. induction s as [|c s IH]; intros inner; cbn [find_dollar];
    [discriminate|].
  destruct (Ascii.eqb_spec c "$") as [->|Hne].
  - now intros [= <- <-].
  - destruct (find_dollar s) as [[i a]|]; [|discriminate].
    intros [= <- <-]. cbn. f_equal. now apply IH.
Qed.

Lemma after_dollars_sound (s after : string) :
  after_dollars s = Some after -> s = ("$$" ++ after)%string.
Proof.
  destruct s as [|c [|d s]]; cbn; try discriminate.
  destruct (Ascii.eqb_spec c "$") as [->|]; [|discriminate].
  destruct (Ascii.eqb_spec d "$") as [->|]; [|discriminate].
  now intros [= <-].
Qed.

Lemma find_dollars_sound (s inner after : string) :
  find_dollars s = Some (inner, after) ->
  s = (inner ++ "$$" ++ after)%string.
Proof.
  revert inner. induction s as [|c s IH]; intros inner.
  - cbn. discriminate.
  - cbn [find_dollars]. destruct (after_dollars (String c s)) as [a|] eqn:Ea.
    + intros [= <- <-]. now apply after_dollars_sound.
    + destruct (find_dollars s) as [[i a]|]; [|discriminate].
      intros [= <- <-]. cbn. f_equal. now apply IH.
Qed.

(** A match is a prefix of the text, and takes two characters at least. *)
Lemma match_formula_sound (s m after : string) :
  match_formula s = Some (m, after) ->
  s = (m ++ after)%string /\ (String.length after + 2 <= String.length s)%nat.
Proof.
  unfold match_formula.
  destruct (after_dollars s) as [rest|] eqn:Ea.
  - apply after_dollars_sound in Ea.
    destruct (find_dollars rest) as [[inner a]|] eqn:Ef.
    + intros [= <- <-]. apply find_dollars_sound in Ef. subst rest s.
      split.
      * cbn. now rewrite !append_assoc.
      * cbn. rewrite !length_append. cbn. lia.
    + subst s. cbn. intros [= <- <-]. split; [reflexivity | cbn; lia].
  - destruct s as [|c s]; [discriminate|].
    destruct (Ascii.eqb_spec c "$") as [->|]; [|discriminate].
    destruct (find_dollar s) as [[inner a]|] eqn:Ef'; [|discriminate].
    intros [= <- <-]. apply find_dollar_sound in Ef'. subst s. split.
    + cbn. now rewrite append_assoc.
    + cbn. rewrite !length_append. cbn. lia.
Qed.

Lemma split_from_concat (fuel : nat) :
  forall text acc,
    String.concat "" (split_from fuel text acc) = (acc ++ text)%string.
Proof.
  induction fuel as [|fuel IH]; intros text acc; cbn [split_from].
  - reflexivity.
  - destruct text as [|c rest]; [cbn; now rewrite append_nil_r|].
    destruct (match_formula (String c rest)) as [[m after]|] eqn:Em.
    + apply match_formula_sound in Em. destruct Em as [-> _].
      rewrite !concat_empty_cons, IH. reflexivity.
    + rewrite IH, append_assoc. reflexivity.
Qed.

Lemma split_from_enough (fuel1 : nat) :
  forall fuel2 text acc,
    (String.length text <= fuel1)%nat -> (String.length text <= fuel2)%nat ->
    split_from fuel1 text acc = split_from fuel2 text acc.
Proof.
  induction fuel1 as [|fuel1 IH]; intros fuel2 text acc H1 H2.
  - destruct text; [|cbn in H1; lia].
    destruct fuel2; cbn; now rewrite ?append_nil_r.
  - destruct fuel2 as [|fuel2].
    + destruct text; [|cbn in H2; lia]. cbn. now rewrite append_nil_r.
    + cbn [split_from]. destruct text as [|c rest]; [reflexivity|].
      cbn [String.length] in H1, H2.
      destruct (match_formula (String c rest)) as [[m after]|] eqn:Em.
      * apply match_formula_sound in Em. destruct Em as [_ Hlen].
        cbn [String.length] in Hlen.
        do 2 f_equal. apply IH; lia.
      * apply IH; lia.
Qed.

Lemma endsWith_app (x p : string) : endsWith (x ++ p) p = true.
Proof.
  induction x as [|c x IH].
  - cbn [append]. destruct p; cbn [endsWith]; now rewrite String.eqb_refl.
  - cbn [append endsWith]. rewrite IH. apply orb_true_r.
Qed.

Lemma match_formula_shape (s m after : string) :
  match_formula s = Some (m, after) ->
  startsWith m "$" = true /\ endsWith m "$" = true /\
  (2 <= String.length m)%nat.
Proof.
  assert (Hends : forall x : string, endsWith (x ++ "$") "$" = true)
    by (intros x; apply endsWith_app).
  assert (Hshape : forall inner : string,
            startsWith ("$" ++ inner ++ "$") "$" = true /\
            endsWith ("$" ++ inner ++ "$") "$" = true /\
            (2 <= String.length ("$" ++ inner ++ "$"))%nat).
  { intros inner. split; [|split].
    - unfold startsWith. cbn [append String.prefix].
      destruct (Ascii.ascii_dec "$" "$") as [_|Hx]; [|now elim Hx].
      now destruct (inner ++ "$")%string.
    - change ("$" ++ inner ++ "$")%string with (("$" ++ inner) ++ "$")%string.
      apply Hends.
    - cbn. rewrite length_append. cbn. lia. }
  unfold match_formula.
  destruct (after_dollars s) as [rest|] eqn:Ea.
  - destruct (find_dollars rest) as [[inner a]|] eqn:Ef.
    + intros [= <- <-].
      assert (E : (inner ++ "$$")%string = ((inner ++ "$") ++ "$")%string)
        by (now rewrite append_assoc).
      cbn [append]. rewrite E. apply (Hshape ("$" ++ inner ++ "$")%string).
    + apply after_dollars_sound in Ea. subst s. cbn.
      intros [= <- <-]. apply (Hshape "").
  - destruct s as [|c s]; [discriminate|].
    destruct (Ascii.eqb c "$"); [|discriminate].
    destruct (find_dollar s) as [[inner a]|]; [|discriminate].
    intros [= <- <-]. apply Hshape.
Qed.

Lemma split_from_formulas (fuel : nat) :
  forall text acc i p,
    Nat.odd i = true ->
    nth_error (split_from fuel text acc) i = Some p ->
    startsWith p "$" = true /\ endsWith p "$" = true /\
    (2 <= String.length p)%nat.
Proof.
  induction fuel as [|fuel IH]; intros text acc i p Hi Hp; cbn [split_from] in Hp.
  - destruct i as [|[|i]]; cbn in Hp; discriminate.
  - destruct text as [|c rest].
    + destruct i as [|[|i]]; cbn in Hp; discriminate.
    + destruct (match_formula (String c rest)) as [[m after]|] eqn:Em.
      * destruct i as [|[|i]]; [discriminate Hi| |].
        -- cbn in Hp. injection Hp as <-. now apply match_formula_shape in Em.
        -- cbn [nth_error] in Hp. rewrite Nat.odd_succ, Nat.even_succ in Hi.
           now apply (IH _ _ _ _ Hi Hp).
      * now apply (IH _ _ _ _ Hi Hp).
Qed.

(** X27.  Splitting a text at its formulas loses nothing: the pieces
    [split] returns, joined, are the text again.  The pieces come in odd
    number, and every second one is a match of the expression: it starts
    and ends with [$] and has two characters at least.  The length of
    the text is fuel enough for the scan. *)
Theorem split_lossless (text : string) :
  String.concat "" (split_formulas text) = text /\
  Nat.odd (List.length (split_formulas text)) = true /\
  (forall i p, Nat.odd i = true ->
               nth_error (split_formulas text) i = Some p ->
               startsWith p "$" = true /\ endsWith p "$" = true /\
               (2 <= String.length p)%nat) /\
  forall fuel, (String.length text <= fuel)%nat ->
               split_from fuel text "" = split_formulas text.
Proof.
  split; [|split; [|split]].
  - unfold split_formulas. now rewrite split_from_concat.
  - unfold split_formulas. generalize (String.length text) at 1. intros fuel.
    generalize EmptyString. revert text.
    induction fuel as [|fuel IH]; intros text acc; cbn [split_from];
      [reflexivity|].
    destruct text as [|c rest]; [reflexivity|].
    destruct (match_formula (String c rest)) as [[m after]|]; [|apply IH].
    cbn [List.length]. rewrite Nat.odd_succ, Nat.even_succ. apply IH.
  - intros i p. apply split_from_formulas.
  - intros fuel H. unfold split_formulas. apply split_from_enough; lia.
Qed.

Lemma replace_all_app (c : ascii) (by_ a b : string) :
  replace_all c by_ (a ++ b)
  = (replace_all c by_ a ++ replace_all c by_ b)%string.
Proof.
  induction a as [|x a IH]; cbn; [reflexivity|].
  destruct (Ascii.eqb x c); rewrite IH; [now rewrite append_assoc | reflexivity].
Qed.

Lemma escape_html_cons (c : ascii) (rest : string) :
  escape_html (String c rest) = (escape_char c ++ escape_html rest)%string.
Proof.
  unfold escape_html, escape_char.
  destruct (Ascii.eqb_spec c "&") as [->|H1]; [reflexivity|].
  destruct (Ascii.eqb_spec c "<") as [->|H2]; [reflexivity|].
  destruct (Ascii.eqb_spec c ">") as [->|H3]; [reflexivity|].
  destruct (Ascii.eqb_spec c newline) as [->|H4]; [reflexivity|].
  cbn [replace_all].
  apply Ascii.eqb_neq in H1, H2, H3, H4.
  rewrite H1. cbn [replace_all]. rewrite H2. cbn [replace_all]. rewrite H3.
  cbn [replace_all]. rewrite H4. reflexivity.
Qed.

(** X28.  The four chained replacements of [processText] escape every
    character of a plain text once: the result is the text with each
    [&], [<], [>] and line break replaced by its entity or [<br/>], and
    every other character kept.  The [&] of an entity put in by a
    replacement is not escaped again. *)
Theorem escape_once (part : string) :
  escape_html part = escape_each part.
Proof.
  induction part as [|c rest IH]; [reflexivity|].
  rewrite escape_html_cons, IH. reflexivity.
Qed.

Lemma match_formula_plain (c : ascii) (rest : string) :
  Ascii.eqb c "$" = false -> match_formula (String c rest) = None.
Proof.
  intros H. unfold match_formula, after_dollars.
  destruct rest as [|d rest]; rewrite ?H; reflexivity.
Qed.

Lemma dollar_free_split (t : string) :
  dollar_free t = true ->
  forall fuel acc, split_from fuel t acc = [(acc ++ t)%string].
Proof.
  induction t as [|c t IH]; intros H fuel acc.
  - destruct fuel; cbn; now rewrite ?append_nil_r.
  - cbn [dollar_free] in H. apply andb_true_iff in H. destruct H as [Hc Ht].
    apply negb_true_iff in Hc.
    destruct fuel as [|fuel]; [reflexivity|].
    cbn [split_from]. rewrite (match_formula_plain _ _ Hc), (IH Ht).
    now rewrite append_assoc.
Qed.

Lemma split_from_skip (a : string) :
  dollar_free a = true ->
  forall k t acc,
    split_from (String.length a + k) (a ++ t) acc
    = split_from k t (acc ++ a).
Proof.
  induction a as [|c a IH]; intros H k t acc.
  - cbn. now rewrite append_nil_r.
  - cbn [dollar_free] in H. apply andb_true_iff in H. destruct H as [Hc Ha].
    apply negb_true_iff in Hc.
    cbn [String.length Nat.add append split_from].
    rewrite (match_formula_plain _ _ Hc), (IH Ha).
    now rewrite append_assoc.
Qed.

Lemma find_dollar_free (m b : string) :
  dollar_free m = true -> find_dollar (m ++ "$" ++ b) = Some (m, b).
Proof.
  induction m as [|c m IH]; intros H; [reflexivity|].
  cbn [dollar_free] in H. apply andb_true_iff in H. destruct H as [Hc Hm].
  apply negb_true_iff in Hc. cbn [append find_dollar].
  rewrite Hc. cbn [append] in IH. now rewrite (IH Hm).
Qed.

Lemma find_dollars_free (m b : string) :
  dollar_free m = true -> find_dollars (m ++ "$$" ++ b) = Some (m, b).
Proof.
  induction m as [|c m IH]; intros H; [reflexivity|].
  cbn [dollar_free] in H. apply andb_true_iff in H. destruct H as [Hc Hm].
  apply negb_true_iff in Hc. cbn [append find_dollars].
  assert (Ha : after_dollars (String c (m ++ String "$" (String "$" b))) = None).
  { unfold after_dollars. destruct (m ++ String "$" (String "$" b))%string;
      rewrite ?Hc; reflexivity. }
  rewrite Ha. cbn [append] in IH. now rewrite (IH Hm).
Qed.

Lemma find_dollars_none (b : string) :
  dollar_free b = true -> find_dollars b = None.
Proof.
  induction b as [|c b IH]; intros H; [reflexivity|].
  cbn [dollar_free] in H. apply andb_true_iff in H. destruct H as [Hc Hb].
  apply negb_true_iff in Hc. cbn [find_dollars].
  assert (Ha : after_dollars (String c b) = None).
  { unfold after_dollars. destruct b; rewrite ?Hc; reflexivity. }
  now rewrite Ha, (IH Hb).
Qed.

Lemma substring_prefix (m x : string) :
  String.substring 0 (String.length m) (m ++ x) = m.
Proof.
  induction m as [|c m IH]; cbn.
  - now destruct x.
  - now rewrite IH.
Qed.

Lemma process_part_plain (katex : string -> bool -> option string) (a : string) :
  dollar_free a = true -> process_part katex a = escape_each a.
Proof.
  intros H. unfold process_part, startsWith.
  assert (H1 : String.prefix "$" a = false).
  { destruct a as [|c a]; [reflexivity|]. cbn [dollar_free] in H.
    apply andb_true_iff in H. destruct H as [Hc _]. apply negb_true_iff in Hc.
    cbn [String.prefix].
    destruct (Ascii.ascii_dec "$" c) as [<-|]; [discriminate Hc|reflexivity]. }
  assert (H2 : String.prefix "$$" a = false).
  { destruct a as [|c a]; [reflexivity|]. cbn [dollar_free] in H.
    apply andb_true_iff in H. destruct H as [Hc _]. apply negb_true_iff in Hc.
    cbn [String.prefix].
    destruct (Ascii.ascii_dec "$" c) as [<-|]; [discriminate Hc|reflexivity]. }
  rewrite H1, H2. cbn [andb]. clear.
  induction a as [|c a IH]; [reflexivity|].
  rewrite escape_html_cons, IH. reflexivity.
Qed.

Lemma process_part_inline (katex : string -> bool -> option string) (m : string) :
  dollar_free m = true -> m <> "" ->
  process_part katex ("$" ++ m ++ "$") = convertLatexToMathML katex m false.
Proof.
  intros H Hne. unfold process_part, startsWith.
  destruct m as [|c m]; [contradiction|].
  cbn [dollar_free] in H. apply andb_true_iff in H. destruct H as [Hc _].
  apply negb_true_iff in Hc.
  assert (H2 : String.prefix "$$" ("$" ++ String c m ++ "$") = false).
  { cbn [append String.prefix].
    destruct (Ascii.ascii_dec "$" "$") as [_|Hx]; [|now elim Hx].
    destruct (Ascii.ascii_dec "$" c) as [<-|]; [discriminate Hc|reflexivity]. }
  rewrite H2. cbn [andb].
  assert (H1 : String.prefix "$" ("$" ++ String c m ++ "$") = true) by reflexivity.
  rewrite H1. cbn [andb].
  change ("$" ++ String c m ++ "$")%string
    with (String "$" (String c m ++ "$"))%string.
  cbn [endsWith]. rewrite endsWith_app, orb_true_r.
  f_equal. unfold slice_ends. cbn [String.length]. rewrite length_append.
  cbn [String.length String.substring].
  match goal with
  | |- String.substring 0 ?n _ = _ =>
    replace n with (String.length (String c m)) by (cbn [String.length]; lia)
  end.
  apply substring_prefix.
Qed.

Lemma process_part_block (katex : string -> bool -> option string) (m : string) :
  process_part katex ("$$" ++ m ++ "$$")
  = ("<div style=" ++ double_quote ++ "text-align: center; margin: 10px 0;"
     ++ double_quote ++ ">" ++ convertLatexToMathML katex m true ++ "</div>")%string.
Proof.
  unfold process_part, startsWith.
  assert (H2 : String.prefix "$$" ("$$" ++ m ++ "$$") = true)
    by (destruct m; reflexivity).
  rewrite H2. cbn [andb].
  change ("$$" ++ m ++ "$$")%string
    with (String "$" (String "$" (m ++ "$$")))%string.
  assert (He : endsWith (String "$" (String "$" (m ++ "$$"))) "$$" = true).
  { cbn [endsWith]. rewrite endsWith_app. now rewrite !orb_true_r. }
  rewrite He. cbn [andb].
  assert (Hm : slice_ends 2 2 (String "$" (String "$" (m ++ "$$"))) = m).
  { unfold slice_ends. cbn [String.length]. rewrite length_append.
    cbn [String.length String.substring].
    match goal with
    | |- String.substring 0 ?n _ = _ =>
      replace n with (String.length m) by lia
    end.
    apply substring_prefix. }
  now rewrite Hm.
Qed.

Lemma eqb_formula_text (a rest : string) :
  String.eqb (a ++ String "$" rest) "" = false.
Proof. now destruct a. Qed.

Lemma split_around (a m b : string) :
  dollar_free a = true -> dollar_free b = true ->
  match_formula (m ++ b) = Some (m, b) ->
  m <> "" ->
  split_formulas (a ++ m ++ b) = [a; m; b].
Proof.
  intros Ha Hb Hm Hne. unfold split_formulas.
  rewrite length_append, (split_from_skip a Ha). cbn [append].
  destruct (m ++ b)%string as [|c rest] eqn:E.
  { destruct m; [contradiction | discriminate E]. }
  cbn [String.length split_from]. rewrite Hm.
  now rewrite (dollar_free_split b Hb).
Qed.

(** X29.  [processText] renders the formulas and escapes the text
    around them.  A text without [$] is escaped character by character.
    Around one formula, with no other [$] in the text: [$m$] with a
    non-empty [m] becomes the inline rendering of [m], [$$m$$] the
    centred block with the display rendering of [m], and the text before
    and after is escaped.  Two dollars with nothing between them, and no
    [$$] to close them, are rendered as a block with an empty
    formula. *)
Theorem formulas_rendered (katex : string -> bool -> option string)
        (a m b : string) :
  dollar_free a = true -> dollar_free m = true -> dollar_free b = true ->
  processText katex a = escape_each a /\
  (m <> "" ->
   processText katex (a ++ "$" ++ m ++ "$" ++ b)
   = (escape_each a ++ convertLatexToMathML katex m false ++ escape_each b)%string) /\
  processText katex (a ++ "$$" ++ m ++ "$$" ++ b)
  = (escape_each a
     ++ ("<div style=" ++ double_quote ++ "text-align: center; margin: 10px 0;"
         ++ double_quote ++ ">" ++ convertLatexToMathML katex m true ++ "</div>")
     ++ escape_each b)%string /\
  processText katex (a ++ "$$" ++ b)
  = (escape_each a
     ++ ("<div style=" ++ double_quote ++ "text-align: center; margin: 10px 0;"
         ++ double_quote ++ ">" ++ convertLatexToMathML katex "" true ++ "</div>")
     ++ escape_each b)%string.
Proof.
  intros Ha Hm Hb.
  assert (Hjoin : forall x y z : string,
            String.concat "" [x; y; z] = (x ++ y ++ z)%string).
  { intros x y z. now rewrite !concat_empty_cons, append_nil_r. }
  split; [|split; [|split]].
  - unfold processText. destruct (String.eqb_spec a "") as [->|_]; [reflexivity|].
    unfold split_formulas. rewrite (dollar_free_split a Ha).
    cbn [map String.concat append]. now apply process_part_plain.
  - intros Hne. unfold processText.
    change (a ++ "$" ++ m ++ "$" ++ b)%string
      with (a ++ String "$" (m ++ "$" ++ b))%string.
    rewrite eqb_formula_text.
    assert (Hsplit : split_formulas (a ++ String "$" (m ++ "$" ++ b))
                     = [a; ("$" ++ m ++ "$")%string; b]).
    { replace (a ++ String "$" (m ++ "$" ++ b))%string
        with (a ++ ("$" ++ m ++ "$") ++ b)%string
        by (cbn; now rewrite append_assoc).
      apply split_around; try assumption; [|discriminate].
      cbn [append]. rewrite append_assoc. cbn [append].
      unfold match_formula.
      assert (Hno : after_dollars (String "$" (m ++ String "$" b)) = None).
      { destruct m as [|c m]; [contradiction|]. cbn [dollar_free] in Hm.
        apply andb_true_iff in Hm. destruct Hm as [Hc _].
        apply negb_true_iff in Hc. cbn. now rewrite Hc. }
      rewrite Hno. cbn [Ascii.eqb Bool.eqb].
      pose proof (find_dollar_free m b Hm) as Hf. cbn [append] in Hf.
      now rewrite Hf. }
    rewrite Hsplit. cbn [map]. rewrite Hjoin.
    rewrite (process_part_plain katex a Ha), (process_part_plain katex b Hb).
    now rewrite (process_part_inline katex m Hm Hne).
  - unfold processText.
    change (a ++ "$$" ++ m ++ "$$" ++ b)%string
      with (a ++ String "$" (String "$" (m ++ "$$" ++ b)))%string.
    rewrite eqb_formula_text.
    assert (Hsplit : split_formulas (a ++ String "$" (String "$" (m ++ "$$" ++ b)))
                     = [a; ("$$" ++ m ++ "$$")%string; b]).
    { replace (a ++ String "$" (String "$" (m ++ "$$" ++ b)))%string
        with (a ++ ("$$" ++ m ++ "$$") ++ b)%string
        by (cbn; now rewrite append_assoc).
      apply split_around; try assumption; [|discriminate].
      cbn [append]. rewrite append_assoc. cbn [append].
      unfold match_formula. cbn [after_dollars Ascii.eqb Bool.eqb andb].
      pose proof (find_dollars_free m b Hm) as Hf. cbn [append] in Hf.
      now rewrite Hf. }
    rewrite Hsplit. cbn [map]. rewrite Hjoin.
    rewrite (process_part_plain katex a Ha), (process_part_plain katex b Hb).
    now rewrite (process_part_block katex m).
  - unfold processText.
    change (a ++ "$$" ++ b)%string with (a ++ String "$" (String "$" b))%string.
    rewrite eqb_formula_text.
    assert (Hsplit : split_formulas (a ++ String "$" (String "$" b))
                     = [a; "$$"; b]).
    { change (a ++ String "$" (String "$" b))%string
        with (a ++ "$$" ++ b)%string.
      apply split_around; try assumption; [|discriminate].
      cbn [append]. unfold match_formula.
      cbn [after_dollars Ascii.eqb Bool.eqb andb].
      rewrite (find_dollars_none b Hb). reflexivity. }
    rewrite Hsplit. cbn [map]. rewrite Hjoin.
    rewrite (process_part_plain katex a Ha), (process_part_plain katex b Hb).
    reflexivity.
Qed.

Lemma formulas_rendered_witness :
  let katex := fun (latex : string) (displayMode : bool) =>
                 Some ("<math>" ++ latex ++ "</math>")%string in
  processText katex "a < b khi $x^2$ & y"
  = "a &lt; b khi <math>x^2</math> &amp; y".
Proof.
  intros katex.
  exact (proj1 (proj2 (formulas_rendered katex "a < b khi " "x^2" " & y"
                         eq_refl eq_refl eq_refl))
               ltac:(discriminate)).
Defined.
